(** * gompmc: a fan-out dispatcher (package mpmc)

    A shallow embedding of [mpmc_fanout.go], [mpmc_consumer.go] and the
    [ConsumerList] sort interface.  Goroutines are interleaved one atomic
    step at a time; every critical section guarded by [consumers_mu] is one
    step.  Pointers to [Consumer] objects are indices into a heap, so that
    the registry, the goroutines and the callers all alias the same object.
    Channels carry their capacity, their buffer and their parked receivers,
    and [select] chooses among the ready cases by a number the runtime
    supplies.  The logger is a sink: it is modelled on its own, with the
    helpers of the package, after the dispatcher. *)

From stdpp Require Import base list strings sorting.
From Stdlib Require Import ZArith Lia.
From Stdlib Require Import Strings.Ascii.
From Stdlib Require Strings.Byte.

Open Scope nat_scope.

(** ** Channels

    A Go channel [make(chan T, n)]: its capacity, the buffered values
    (oldest first), the number of receivers parked on it, and the values
    receivers have taken from it so far (oldest first). *)

Section Chan.
Context {T : Type}.

Record Chan := mkChan {
  ch_cap : nat;
  ch_buf : list T;
  ch_recvq : nat;
  ch_recvd : list T
}.

Definition make_chan (n : nat) : Chan := mkChan n [] 0 [].

(** A send can proceed when a receiver is parked (the value is handed to
    it) or the buffer has room.  With capacity 0 only the first applies. *)
Definition can_send (c : Chan) : bool :=
  (0 <? ch_recvq c) || (length (ch_buf c) <? ch_cap c).

Definition chansend (c : Chan) (x : T) : Chan :=
  if 0 <? ch_recvq c
  then mkChan (ch_cap c) (ch_buf c) (pred (ch_recvq c)) (ch_recvd c ++ [x])
  else mkChan (ch_cap c) (ch_buf c ++ [x]) (ch_recvq c) (ch_recvd c).

Definition can_recv (c : Chan) : bool :=
  match ch_buf c with [] => false | _ :: _ => true end.

Definition chanrecv (c : Chan) : option (T * Chan) :=
  match ch_buf c with
  | [] => None
  | x :: b => Some (x, mkChan (ch_cap c) b (ch_recvq c) (ch_recvd c ++ [x]))
  end.

(** A receiver that finds nothing to receive parks on the channel. *)
Definition chanpark (c : Chan) : Chan :=
  mkChan (ch_cap c) (ch_buf c) (S (ch_recvq c)) (ch_recvd c).

(** A parked receiver woken by something else leaves the queue. *)
Definition chanwake (c : Chan) : Chan :=
  mkChan (ch_cap c) (ch_buf c) 0 (ch_recvd c).

(** Every value sent on the channel so far, in the order sent. *)
Definition ch_sent (c : Chan) : list T := ch_recvd c ++ ch_buf c.

(** A receiver parks only on an empty buffer. *)
Definition chan_ok (c : Chan) : Prop := 0 < ch_recvq c → ch_buf c = [].

End Chan.

Arguments Chan T : clear implicits.

(** ** select

    [go_select cases rnd]: each case comes with whether its communication
    can proceed.  Among the ready cases one is chosen by the runtime's
    random number; [None] when no case is ready (the [default] branch of a
    non-blocking select, or parking for a blocking one). *)

Fixpoint ready_cases {A : Type} (cases : list (bool * A)) : list A :=
  match cases with
  | [] => []
  | (true, a) :: rest => a :: ready_cases rest
  | (false, _) :: rest => ready_cases rest
  end.

Definition go_select {A : Type} (cases : list (bool * A)) (rnd : nat) : option A :=
  let ready := ready_cases cases in
  ready !! (rnd `mod` length ready).

(** ** sort.Sort

    The sorting routine of the standard library, whatever algorithm it
    runs: it rearranges the data looking at it through [Less] only. *)

Class Sorter := sort_by : ∀ A : Type, (A → A → bool) → list A → list A.

Arguments sort_by {_ _} _ _.

(** One such routine: insertion sort as the [sort] package runs it on short
    slices (its pattern-defeating quicksort hands slices of up to 12
    elements to it).  Each element in turn is swapped towards the front
    while it is [Less] than its left neighbour.  [sorted_rev] is the already
    sorted prefix, nearest neighbour first. *)

Fixpoint insert_back {A : Type} (less : A → A → bool) (x : A) (sorted_rev : list A) : list A :=
  match sorted_rev with
  | [] => [x]
  | y :: rest => if less x y then y :: insert_back less x rest else x :: y :: rest
  end.

Definition insertionSort {A : Type} (less : A → A → bool) (data : list A) : list A :=
  rev (fold_left (λ acc x, insert_back less x acc) data []).

#[export] Instance insertion_sorter : Sorter := @insertionSort.

(** ** Data model *)

Definition Timestamp := nat.

(** The clock during one run of the dispatch loop's critical section, which
    reads [time.Now()] after every push.  [goroutine_Producer_all] may push
    once in each iteration of its loop over the registry: [now i] is what
    it reads in iteration [i].  The other two loops push at most once and
    read [now 0].  [steady t] is a clock that shows [t] at every reading,
    [ticking t] one that shows [t] first and one more at each later
    iteration. *)
Definition Clock := nat → Timestamp.
Definition steady (t : Timestamp) : Clock := λ _, t.
Definition ticking (t : Timestamp) : Clock := λ i, t + i.
Definition ptr := nat.

(** [ProducerKind] is a Go [int]. *)
Definition ProducerKind := Z.
Definition ProducerKind_Single : ProducerKind := 0%Z.
Definition ProducerKind_LRU : ProducerKind := 1%Z.
Definition ProducerKind_All : ProducerKind := 2%Z.

Inductive error := ErrProducerClosed | ErrBufferFull.

(** The dispatch goroutine [NewProducer] starts, by the function it runs. *)
Inductive Goroutine :=
  | goroutine_Producer_single
  | goroutine_Producer_lru
  | goroutine_Producer_all.

Section Model.
Context {T : Type}.

(** Where the dispatch goroutine stands: at the [select] of its loop (parked
    there when it is in the receive queue of [input]), between receiving an
    item and delivering it, or returned. *)
Inductive LoopPc :=
  | AtSelect
  | Holding (item : T)
  | Returned.

(** [Consumer]: [Messages] is the output queue, [ctx_done] whether the
    context made by [context.WithCancel] is cancelled, [c_closeOnce] whether
    the [sync.Once] of [Close] has fired.  [watching] is the state of the
    goroutine [CreateConsumer] starts for this Consumer: it is still
    waiting on [ctx.Done()]. *)
Record Consumer := mkConsumer {
  c_id : string;
  Messages : Chan T;
  lastUsed : Timestamp;
  ctx_done : bool;
  c_closeOnce : bool;
  watching : bool
}.

(** [Producer] with the heap of Consumers and the goroutines around it.
    [done] is whether the [done] channel is closed; [dispatcher] and [pc]
    are the dispatch goroutine; [closer] is whether the shutdown goroutine
    of [NewProducer] is still waiting on [done]. *)
Record State := mkState {
  input : Chan T;
  consumer_buffer_size : nat;
  consumers : list ptr;
  done : bool;
  closeOnce : bool;
  heap : list Consumer;
  dispatcher : option Goroutine;
  pc : LoopPc;
  closer : bool
}.

Definition upd_input (s : State) (ch : Chan T) : State :=
  mkState ch (consumer_buffer_size s) (consumers s) (done s) (closeOnce s)
          (heap s) (dispatcher s) (pc s) (closer s).

Definition upd_consumers (s : State) (l : list ptr) : State :=
  mkState (input s) (consumer_buffer_size s) l (done s) (closeOnce s)
          (heap s) (dispatcher s) (pc s) (closer s).

Definition upd_heap (s : State) (h : list Consumer) : State :=
  mkState (input s) (consumer_buffer_size s) (consumers s) (done s) (closeOnce s)
          h (dispatcher s) (pc s) (closer s).

Definition upd_pc (s : State) (l : LoopPc) : State :=
  mkState (input s) (consumer_buffer_size s) (consumers s) (done s) (closeOnce s)
          (heap s) (dispatcher s) l (closer s).

Definition upd_closer (s : State) (b : bool) : State :=
  mkState (input s) (consumer_buffer_size s) (consumers s) (done s) (closeOnce s)
          (heap s) (dispatcher s) (pc s) b.

(** ** NewProducer *)

Definition NewProducer (kind : ProducerKind) (input_buffer_size consumer_buffer_size : nat) : State :=
  mkState (make_chan input_buffer_size) consumer_buffer_size [] false false []
    (if (kind =? ProducerKind_Single)%Z then Some goroutine_Producer_single
     else if (kind =? ProducerKind_LRU)%Z then Some goroutine_Producer_lru
     else if (kind =? ProducerKind_All)%Z then Some goroutine_Producer_all
     else None)
    AtSelect true.

(** ** Producer.Write *)

Inductive WriteCase := SendInput | RecvDone.

(** The send of [Write] on [input]: into the buffer, or straight to the
    dispatch goroutine when it is parked on [input]. *)
Definition send_input (item : T) (s : State) : State :=
  let s' := upd_input s (chansend (input s) item) in
  if 0 <? ch_recvq (input s) then upd_pc s' (Holding item) else s'.

Definition Write (item : T) (rnd : nat) (s : State) : option error * State :=
  match go_select [(can_send (input s), SendInput); (done s, RecvDone)] rnd with
  | Some SendInput => (None, send_input item s)
  | Some RecvDone => (Some ErrProducerClosed, s)
  | None => (Some ErrBufferFull, s)
  end.

(** ** Producer.Close

    [closeOnce.Do] runs [close(f.done)] on the first call only.  Closing a
    closed channel panics ([None]).  Closing [done] wakes the dispatch
    goroutine when it is parked: it leaves the receive queue of [input] and
    takes the [done] case, which returns. *)

Definition close_done (s : State) : option State :=
  if done s then None
  else
    let s' := mkState (input s) (consumer_buffer_size s) (consumers s) true (closeOnce s)
                      (heap s) (dispatcher s) (pc s) (closer s) in
    Some (if 0 <? ch_recvq (input s)
          then upd_pc (upd_input s' (chanwake (input s))) Returned
          else s').

Definition Close (s : State) : option State :=
  if closeOnce s then Some s
  else
    close_done (mkState (input s) (consumer_buffer_size s) (consumers s) (done s) true
                        (heap s) (dispatcher s) (pc s) (closer s)).

(** ** newConsumer, Producer.CreateConsumer

    [id] is what [CreateID] returned, [parent_done] whether the context
    passed in is already cancelled, [now] what [time.Now()] returned. *)

Definition newConsumer (id : string) (parent_done : bool) (now : Timestamp)
    (consumer_buffer_size : nat) : Consumer :=
  mkConsumer id (make_chan consumer_buffer_size) now parent_done false false.

Definition start_watcher (c : Consumer) : Consumer :=
  mkConsumer (c_id c) (Messages c) (lastUsed c) (ctx_done c) (c_closeOnce c) true.

(** The new object is allocated at the next free address; the registry is
    appended to under the lock, and the watcher goroutine is started. *)
Definition CreateConsumer (id : string) (parent_done : bool) (now : Timestamp)
    (s : State) : ptr * State :=
  let result := length (heap s) in
  let c := newConsumer id parent_done now (consumer_buffer_size s) in
  (result,
   upd_consumers (upd_heap s (heap s ++ [start_watcher c])) (consumers s ++ [result])).

(** The body of the watcher goroutine once [ctx.Done()] fires: the first
    registry entry equal to the Consumer is cut out. *)
Fixpoint removeConsumer (result : ptr) (l : list ptr) : list ptr :=
  match l with
  | [] => []
  | consumer :: rest =>
      if consumer =? result then rest else consumer :: removeConsumer result rest
  end.

Definition stop_watcher (c : Consumer) : Consumer :=
  mkConsumer (c_id c) (Messages c) (lastUsed c) (ctx_done c) (c_closeOnce c) false.

Definition watcher_step (p : ptr) (s : State) : State :=
  match heap s !! p with
  | Some c =>
      if watching c && ctx_done c
      then upd_consumers (upd_heap s (<[p := stop_watcher c]> (heap s)))
                         (removeConsumer p (consumers s))
      else s
  | None => s
  end.

(** ** Consumer.Close and context cancellation *)

Definition cancel (c : Consumer) : Consumer :=
  mkConsumer (c_id c) (Messages c) (lastUsed c) true (c_closeOnce c) (watching c).

Definition Consumer_Close (h : list Consumer) (p : ptr) : list Consumer :=
  match h !! p with
  | Some c =>
      if c_closeOnce c then h
      else <[p := cancel (mkConsumer (c_id c) (Messages c) (lastUsed c) (ctx_done c)
                                     true (watching c))]> h
  | None => h
  end.

(** The parent context is cancelled or its deadline passes. *)
Definition ctx_cancel (h : list Consumer) (p : ptr) : list Consumer :=
  match h !! p with
  | Some c => <[p := cancel c]> h
  | None => h
  end.

(** The shutdown goroutine of [NewProducer]: once [done] is closed it
    closes every registered Consumer under the lock. *)
Definition shutdown_step (s : State) : State :=
  if done s && closer s
  then upd_closer (upd_heap s (fold_left Consumer_Close (consumers s) (heap s))) false
  else s.

(** A reader outside the package receives from [Messages], or parks. *)
Definition with_Messages (c : Consumer) (ch : Chan T) : Consumer :=
  mkConsumer (c_id c) ch (lastUsed c) (ctx_done c) (c_closeOnce c) (watching c).

Definition read_step (p : ptr) (s : State) : State :=
  match heap s !! p with
  | Some c =>
      match chanrecv (Messages c) with
      | Some (_, ch) => upd_heap s (<[p := with_Messages c ch]> (heap s))
      | None => upd_heap s (<[p := with_Messages c (chanpark (Messages c))]> (heap s))
      end
  | None => s
  end.

(** ** Delivery

    The non-blocking push shared by the three loops:
    [select { case c.input <- item: c.lastUsed = time.Now(); default: }].
    The queue the loops call [input] is the one queue of the Consumer,
    [Messages]. *)

Definition pushed (c : Consumer) (item : T) (now : Timestamp) : Consumer :=
  mkConsumer (c_id c) (chansend (Messages c) item) now (ctx_done c) (c_closeOnce c)
             (watching c).

Definition offer (item : T) (now : Timestamp) (h : list Consumer) (p : ptr) : list Consumer :=
  match h !! p with
  | Some c => if can_send (Messages c) then <[p := pushed c item now]> h else h
  | None => h
  end.

Definition lastUsed_at (h : list Consumer) (p : ptr) : Timestamp :=
  match h !! p with Some c => lastUsed c | None => 0 end.

(** [ConsumerList.Less], on the entries themselves. *)
Definition Less (h : list Consumer) (p q : ptr) : bool :=
  lastUsed_at h p <? lastUsed_at h q.

Context `{Sorter}.

Definition deliver_single (item : T) (rnd : nat) (now : Timestamp) (s : State) : State :=
  if 0 <? length (consumers s) then
    match consumers s !! (rnd `mod` length (consumers s)) with
    | Some selected => upd_heap s (offer item now (heap s) selected)
    | None => s
    end
  else s.

Definition deliver_lru (item : T) (now : Timestamp) (s : State) : State :=
  if 0 <? length (consumers s) then
    let sorted := sort_by (Less (heap s)) (consumers s) in
    let s' := upd_consumers s sorted in
    match sorted !! 0 with
    | Some lru => upd_heap s' (offer item now (heap s) lru)
    | None => s'
    end
  else s.

(** [for _, consumer := range f.consumers]: iteration [i] offers the item
    to entry [i] of the registry and, when the push succeeds, stamps that
    Consumer with the reading of [time.Now()] taken there, [now i]. *)
Fixpoint range_offer (item : T) (now : Clock) (i : nat) (l : list ptr)
    (h : list Consumer) : list Consumer :=
  match l with
  | [] => h
  | consumer :: rest => range_offer item now (S i) rest (offer item (now i) h consumer)
  end.

Definition deliver_all (item : T) (now : Clock) (s : State) : State :=
  upd_heap s (range_offer item now 0 (consumers s) (heap s)).

(** The loops of [goroutine_Producer_single] and [goroutine_Producer_lru]
    push at most once and read the clock there. *)
Definition deliver (g : Goroutine) (item : T) (rnd : nat) (now : Clock) (s : State) : State :=
  match g with
  | goroutine_Producer_single => deliver_single item rnd (now 0) s
  | goroutine_Producer_lru => deliver_lru item (now 0) s
  | goroutine_Producer_all => deliver_all item now s
  end.

(** ** The dispatch loop, one step at a time

    At the [select]: parked, it stays parked (a sender or [Close] wakes
    it); otherwise the ready cases are the receive from [input] and the
    receive from [done], and with none ready it parks.  Holding an item, it
    runs the critical section and is back at the [select]. *)

Inductive LoopCase := RecvInput | LoopDone.

Definition loop_step (rnd : nat) (now : Clock) (s : State) : State :=
  match dispatcher s with
  | None => s
  | Some g =>
      match pc s with
      | Returned => s
      | Holding item => deliver g item rnd now (upd_pc s AtSelect)
      | AtSelect =>
          if 0 <? ch_recvq (input s) then s
          else
            match go_select [(can_recv (input s), RecvInput); (done s, LoopDone)] rnd with
            | Some RecvInput =>
                match chanrecv (input s) with
                | Some (item, ch) => upd_pc (upd_input s ch) (Holding item)
                | None => s
                end
            | Some LoopDone => upd_pc s Returned
            | None => upd_input s (chanpark (input s))
            end
      end
  end.

(** ** Executions

    One action per atomic step: the calls of the interface ([Write],
    [CreateConsumer], [Producer.Close], [Consumer.Close]), what the callers
    do outside it (cancel the context a Consumer was created with, receive
    from [Messages]), and a step of each goroutine (the dispatch loop, the
    shutdown goroutine, the watcher of a Consumer).  A goroutine that cannot
    move stays where it is.  [rnd] is the runtime's random number (for
    [select], and for [rand.Intn] in the delivery step), [now] the reading
    of [time.Now()] (for the dispatch loop the readings of its critical
    section, one for each Consumer it may push to), [id] the result of
    [CreateID]. *)

Inductive Action :=
  | AWrite (item : T) (rnd : nat)
  | ACreateConsumer (id : string) (parent_done : bool) (now : Timestamp)
  | AClose
  | AConsumerClose (p : ptr)
  | ACtxCancel (p : ptr)
  | ARead (p : ptr)
  | ALoop (rnd : nat) (now : Clock)
  | AShutdown
  | AWatcher (p : ptr).

(** [None] is a panic. *)
Definition step (a : Action) (s : State) : option State :=
  match a with
  | AWrite item rnd => Some (snd (Write item rnd s))
  | ACreateConsumer id parent_done now => Some (snd (CreateConsumer id parent_done now s))
  | AClose => Close s
  | AConsumerClose p => Some (upd_heap s (Consumer_Close (heap s) p))
  | ACtxCancel p => Some (upd_heap s (ctx_cancel (heap s) p))
  | ARead p => Some (read_step p s)
  | ALoop rnd now => Some (loop_step rnd now s)
  | AShutdown => Some (shutdown_step s)
  | AWatcher p => Some (watcher_step p s)
  end.

Fixpoint exec (tr : list Action) (s : State) : option State :=
  match tr with
  | [] => Some s
  | a :: rest => match step a s with Some s' => exec rest s' | None => None end
  end.

Definition reachable (kind : ProducerKind) (icap ccap : nat) (s : State) : Prop :=
  ∃ tr, exec tr (NewProducer kind icap ccap) = Some s.

End Model.

(** ** [ConsumerList] as [sort.Interface]

    The methods on the slice of Consumer pointers.  [None] is the panic of
    an index out of range or of a nil pointer. *)

Section ConsumerList.
Context {T : Type}.

Definition ConsumerList_Len (cl : list ptr) : nat := length cl.

Definition ConsumerList_Less (h : list (Consumer (T:=T))) (cl : list ptr) (i j : nat) :
    option bool :=
  match cl !! i, cl !! j with
  | Some p, Some q =>
      match h !! p, h !! q with
      | Some c, Some d => Some (lastUsed c <? lastUsed d)
      | _, _ => None
      end
  | _, _ => None
  end.

(** [cl[i], cl[j] = cl[j], cl[i]]: both elements are read, then [cl[i]] and
    [cl[j]] are assigned in that order. *)
Definition ConsumerList_Swap (cl : list ptr) (i j : nat) : option (list ptr) :=
  match cl !! i, cl !! j with
  | Some p, Some q => Some (<[j := p]> (<[i := q]> cl))
  | _, _ => None
  end.

End ConsumerList.

(** ** Helpers of the package: [equalSlices], [CreateID], [TypeName]

    A Go [string] is its bytes, here a [list ascii]; a Go [int] is a [Z]. *)

(** [a[lo:hi]] for indices within the slice. *)
Definition slice {A : Type} (a : list A) (lo hi : nat) : list A :=
  take (hi - lo) (drop lo a).

(** The loop [for i := range a] of [equalSlices] from index [i] on, with
    [n] rounds to go.  [None] is the panic of an index out of range. *)
Fixpoint equalSlices_loop (a b : list Z) (i n : nat) : option bool :=
  match n with
  | 0 => Some true
  | S n =>
      match a !! i, b !! i with
      | Some x, Some y =>
          if (x =? y)%Z then equalSlices_loop a b (S i) n else Some false
      | _, _ => None
      end
  end.

Definition equalSlices (a b : list Z) : option bool :=
  if length a =? length b then equalSlices_loop a b 0 (length a) else Some false.

(** The verb [%x] on a byte slice: two lower-case hexadecimal digits for
    each byte. *)
Definition ldigits : list ascii := String.list_ascii_of_string "0123456789abcdef".

Definition hex_digit (n : nat) : ascii := default "0"%char (ldigits !! n).

Definition fmt_x (b : list Byte.byte) : list ascii :=
  b ≫= λ x, [hex_digit (Byte.to_nat x / 16); hex_digit (Byte.to_nat x `mod` 16)].

(** [rand_Read] is [rand.Read] of [crypto/rand]: from the buffer it is
    given it returns the buffer filled, or [None] for an error.  [None] as
    the result of [CreateID] is its panic. *)
Definition CreateID (rand_Read : list Byte.byte → option (list Byte.byte)) :
    option (list ascii) :=
  match rand_Read (replicate 16 Byte.x00) with
  | None => None
  | Some b =>
      Some (fmt_x (slice b 0 4) ++ ["-"%char] ++ fmt_x (slice b 4 6) ++ ["-"%char]
            ++ fmt_x (slice b 6 8) ++ ["-"%char] ++ fmt_x (slice b 8 10) ++ ["-"%char]
            ++ fmt_x (slice b 10 16))
  end.

Definition TrimPrefix (s prefix : list ascii) : list ascii :=
  if bool_decide (prefix `prefix_of` s) then drop (length prefix) s else s.

(** [strings.LastIndex]; [None] is its [-1]. *)
Fixpoint LastIndex (s substr : list ascii) : option nat :=
  match s with
  | [] => if bool_decide (substr = []) then Some 0 else None
  | _ :: s' =>
      match LastIndex s' substr with
      | Some i => Some (S i)
      | None => if bool_decide (substr `prefix_of` s) then Some 0 else None
      end
  end.

(** [percent_T] is [fmt.Sprintf("%T", new(T))], the name of the pointer
    type. *)
Definition TypeName (percent_T : list ascii) : list ascii :=
  let temp := TrimPrefix percent_T ["*"%char] in
  match LastIndex temp ["."%char] with
  | Some lastDot => drop (lastDot + 1) temp
  | None => temp
  end.

(** ** Package logger

    The lines handed to the underlying [log.Logger] are collected in
    [logger], oldest first, without the date and time it puts in front.
    The message of a formatting method is [fmt.Sprintf(format, v...)]; the
    arguments of a [...ln] method are given by their [fmt.Sprint]. *)

Module logger.

Definition LogLevelDebug : Z := 0.
Definition LogLevelInfo : Z := 1.
Definition LogLevelWarn : Z := 2.
Definition LogLevelError : Z := 3.

Record Logger := mkLogger {
  logger : list (list ascii);
  level : Z;
  prefix : list ascii
}.

Definition NewLogger (level : Z) (prefix : list ascii) : Logger :=
  mkLogger [] level prefix.

(** [l.logger.Printf("%s: %s %s", level, l.prefix, msg)] *)
Definition Printf (l : Logger) (lvl msg : list ascii) : Logger :=
  mkLogger (logger l ++ [lvl ++ String.list_ascii_of_string ": " ++ prefix l
                         ++ [" "%char] ++ msg])
           (level l) (prefix l).

Definition log (l : Logger) (lvl msg : list ascii) : Logger := Printf l lvl msg.

(** [strings.Join] *)
Definition Join (elems : list (list ascii)) (sep : list ascii) : list ascii :=
  match elems with
  | [] => []
  | x :: rest => x ++ (rest ≫= λ y, sep ++ y)
  end.

Definition logln (l : Logger) (lvl : list ascii) (v : list (list ascii)) : Logger :=
  Printf l lvl (Join v [" "%char]).

Definition DEBUG : list ascii := String.list_ascii_of_string "DEBUG".
Definition INFO : list ascii := String.list_ascii_of_string "INFO".
Definition WARN : list ascii := String.list_ascii_of_string "WARN".
Definition ERROR : list ascii := String.list_ascii_of_string "ERROR".

Definition Debug (l : Logger) (msg : list ascii) : Logger :=
  if (level l <=? LogLevelDebug)%Z then log l DEBUG msg else l.

Definition Info (l : Logger) (msg : list ascii) : Logger :=
  if (level l <=? LogLevelInfo)%Z then log l INFO msg else l.

Definition Warn (l : Logger) (msg : list ascii) : Logger :=
  if (level l <=? LogLevelWarn)%Z then log l WARN msg else l.

Definition Error (l : Logger) (msg : list ascii) : Logger :=
  if (level l <=? LogLevelError)%Z then log l ERROR msg else l.

Definition Debugln (l : Logger) (v : list (list ascii)) : Logger :=
  if (level l <=? LogLevelDebug)%Z then logln l DEBUG v else l.

Definition Infoln (l : Logger) (v : list (list ascii)) : Logger :=
  if (level l <=? LogLevelInfo)%Z then logln l INFO v else l.

Definition Warnln (l : Logger) (v : list (list ascii)) : Logger :=
  if (level l <=? LogLevelWarn)%Z then logln l WARN v else l.

Definition Errorln (l : Logger) (v : list (list ascii)) : Logger :=
  if (level l <=? LogLevelError)%Z then logln l ERROR v else l.

(** A call of one of the eight methods, and a sequence of calls. *)
Inductive Call :=
  | CDebug (msg : list ascii)
  | CInfo (msg : list ascii)
  | CWarn (msg : list ascii)
  | CError (msg : list ascii)
  | CDebugln (v : list (list ascii))
  | CInfoln (v : list (list ascii))
  | CWarnln (v : list (list ascii))
  | CErrorln (v : list (list ascii)).

Definition call (l : Logger) (c : Call) : Logger :=
  match c with
  | CDebug msg => Debug l msg
  | CInfo msg => Info l msg
  | CWarn msg => Warn l msg
  | CError msg => Error l msg
  | CDebugln v => Debugln l v
  | CInfoln v => Infoln l v
  | CWarnln v => Warnln l v
  | CErrorln v => Errorln l v
  end.

Definition calls (cs : list Call) (l : Logger) : Logger := fold_left call cs l.

End logger.

(** ** PrettyMap (package logger)

    An [interface{}] value as [PrettyMap] looks at it: the nil interface, a
    [map[string]interface{}], a map of another type (given by its [%T]), or
    anything else (given by its [%v]).  A map is the list of its entries in
    the order in which [range] happens to run over it. *)

Set Warnings "-register-all".

Inductive value :=
  | VNil
  | VMap (data : list (list ascii * value))
  | VOtherMap (percent_T : list ascii)
  | VOther (percent_v : list ascii).

(** [data[k]]; the nil interface when the key is absent. *)
Definition map_index (data : list (list ascii * value)) (k : list ascii) : value :=
  match list_find (λ e, e.1 = k) data with
  | Some (_, e) => e.2
  | None => VNil
  end.

(** The order of Go strings: byte by byte, a proper prefix first. *)
Fixpoint string_leb (a b : list ascii) : bool :=
  match a, b with
  | [], _ => true
  | _ :: _, [] => false
  | x :: a', y :: b' =>
      if nat_of_ascii x <? nat_of_ascii y then true
      else if nat_of_ascii y <? nat_of_ascii x then false
      else string_leb a' b'
  end.

Definition string_le (a b : list ascii) : Prop := string_leb a b = true.

#[export] Instance string_le_dec (a b : list ascii) : Decision (string_le a b) :=
  decide (string_leb a b = true).

(** [sort.Strings]: the keys in increasing order.  On the keys of a map,
    which are distinct, every sorting algorithm returns the same list. *)
Definition sort_Strings (keys : list (list ascii)) : list (list ascii) :=
  merge_sort string_le keys.

Definition newline : list ascii := ["010"%char].

(** One round of the loop over the sorted keys: what it writes to the
    builder for the key [k].  [PrettyMap_rec] is the recursive call. *)
Definition PrettyMap_entry
    (PrettyMap_rec : list (list ascii * value) → list ascii → option (list ascii))
    (data : list (list ascii * value)) (indent k : list ascii) : option (list ascii) :=
  let v := map_index data k in
  let head := indent ++ k ++ String.list_ascii_of_string ": " in
  match v with
  | VNil => Some (head ++ String.list_ascii_of_string "nil" ++ newline)
  | VMap subMap =>
      r ← PrettyMap_rec subMap (indent ++ String.list_ascii_of_string "  ");
      Some (head ++ newline ++ r)
  | VOtherMap percent_T =>
      Some (head ++ String.list_ascii_of_string "(Unsupported map type: "
            ++ percent_T ++ String.list_ascii_of_string ")" ++ newline)
  | VOther percent_v => Some (head ++ percent_v ++ newline)
  end.

(** [fuel] bounds the depth of the recursion; [None] is out of fuel. *)
Fixpoint PrettyMap (fuel : nat) (data : list (list ascii * value)) (indent : list ascii) :
    option (list ascii) :=
  match fuel with
  | 0 => None
  | S fuel =>
      let keys := sort_Strings data.*1 in
      fold_left (λ builder k,
                   b ← builder;
                   t ← PrettyMap_entry (PrettyMap fuel) data indent k;
                   Some (b ++ t))
                keys (Some [])
  end.

(** * Specification

    The vocabulary of the statements below. *)

(** The contract of [sort.Sort], the only part of it the dispatcher relies
    on: the result is a rearrangement of the input, is in ascending order
    of [Less], and depends on nothing but the outcome of [Less] on the
    elements.  No stability is promised. *)
Class SorterContract (S : Sorter) : Prop := {
  sort_by_perm : ∀ A (less : A → A → bool) (l : list A),
    sort_by less l ≡ₚ l;
  sort_by_sorted : ∀ A (key : A → nat) (l : list A),
    StronglySorted (λ a b, key a ≤ key b) (sort_by (λ a b, key a <? key b) l);
  sort_by_ext : ∀ A (less1 less2 : A → A → bool) (l : list A),
    (∀ a b, a ∈ l → b ∈ l → less1 a b = less2 a b) →
    sort_by less1 l = sort_by less2 l
}.

(** [first_least key l m]: [m] is the first element of [l] among those of
    least [key]. *)
Definition first_least {A : Type} (key : A → nat) (l : list A) (m : A) : Prop :=
  ∃ l1 l2, l = l1 ++ m :: l2
           ∧ Forall (λ y, key m < key y) l1 ∧ Forall (λ y, key m ≤ key y) l2.

(** A routine the contract allows and that is not stable: insertion sort
    taking the elements from the far end, which leaves elements that
    compare equal in the reverse of their order. *)
Definition backSort {A : Type} (less : A → A → bool) (data : list A) : list A :=
  insertionSort less (rev data).

Definition back_sorter : Sorter := @backSort.

(** [Interleaving ws l]: [l] merges the sequences [ws], each in its own
    order; the writes of concurrent producers as [input] receives them. *)
Inductive Interleaving {A : Type} : list (list A) → list A → Prop :=
  | interleaving_nil ws : Forall (λ w, w = []) ws → Interleaving ws []
  | interleaving_cons ws1 x w ws2 l :
      Interleaving (ws1 ++ w :: ws2) l →
      Interleaving (ws1 ++ (x :: w) :: ws2) (x :: l).

Section Spec.
Context {T : Type}.
Implicit Types (s : State (T:=T)) (c : Consumer (T:=T)) (h : list (Consumer (T:=T))).
Implicit Types (p q : ptr) (item : T) (tr : list (Action (T:=T))).

(** [heap_le R h h']: same addresses, each object related by [R]. *)
Definition heap_le (R : Consumer (T:=T) → Consumer (T:=T) → Prop) h h' : Prop :=
  length h' = length h ∧
  ∀ q c, h !! q = Some c → ∃ c', h' !! q = Some c' ∧ R c c'.

(** What every operation but creation and the watcher's removal may do to
    a Consumer: the identifier, the capacity and the watcher stay, a parked
    reader stays on an empty queue, cancellation is never undone. *)
Definition evolves c c' : Prop :=
  c_id c' = c_id c ∧
  watching c' = watching c ∧
  ch_cap (Messages c') = ch_cap (Messages c) ∧
  (chan_ok (Messages c) → chan_ok (Messages c')) ∧
  (ctx_done c = true → ctx_done c' = true) ∧
  (c_closeOnce c = true → c_closeOnce c' = true).

(** What an execution can do to an allocated Consumer: the watcher, once
    it has run, never runs again, and a cancelled context stays cancelled. *)
Definition ages c c' : Prop :=
  (watching c' = true → watching c = true) ∧ (ctx_done c = true → ctx_done c' = true).

(** Cancelling touches no queue. *)
Definition same_queue c c' : Prop := Messages c' = Messages c.

(** The push on one Consumer: it happens when the send can proceed, and
    otherwise the Consumer is left as it is. *)
Definition try_push item (now : Timestamp) c : Consumer :=
  if can_send (Messages c) then pushed c item now else c.

(** Well-formed states, what every state of every execution satisfies.
    The dispatch goroutine is the only receiver on [input]; parked there it
    is at its [select] and the buffer is empty; it has returned only after
    [done] was closed; the item it holds is the last it received.
    [closeOnce] has fired exactly when [done] is closed.  The registry lists
    distinct allocated Consumers, each of the configured capacity, readers
    park on empty queues only, and a Consumer is registered exactly while
    its watcher goroutine has not run its removal. *)
Record wf s : Prop := {
  wf_input : chan_ok (input s);
  wf_recvq : ch_recvq (input s) ≤ 1;
  wf_parked : 0 < ch_recvq (input s) → pc s = AtSelect;
  wf_returned : pc s = Returned → done s = true;
  wf_holding : ∀ item, pc s = Holding item → ∃ l, ch_recvd (input s) = l ++ [item];
  wf_once : closeOnce s = done s;
  wf_nodup : NoDup (consumers s);
  wf_reg : ∀ p, p ∈ consumers s → p < length (heap s);
  wf_chan : ∀ p c, heap s !! p = Some c → chan_ok (Messages c);
  wf_cap : ∀ p c, heap s !! p = Some c → ch_cap (Messages c) = consumer_buffer_size s;
  wf_watch : ∀ p c, heap s !! p = Some c → (watching c = true ↔ p ∈ consumers s)
}.

(** The capacities and the dispatch goroutine's function are fixed by
    [NewProducer]. *)
Definition params s : nat * nat * option Goroutine :=
  (ch_cap (input s), consumer_buffer_size s, dispatcher s).

(** No dispatch goroutine: nothing is parked on [input], nothing was ever
    taken from it, and nothing was ever sent to a Consumer. *)
Definition silent s : Prop :=
  dispatcher s = None
  ∧ pc s = AtSelect
  ∧ ch_recvq (input s) = 0
  ∧ ch_recvd (input s) = []
  ∧ ∀ p c, heap s !! p = Some c → ch_sent (Messages c) = [].

(** Whatever a Consumer has been sent, the dispatch goroutine received from
    [input]. *)
Definition sourced s : Prop :=
  ∀ p c x, heap s !! p = Some c → x ∈ ch_sent (Messages c) → x ∈ ch_recvd (input s).

(** The item the dispatch goroutine has received and not yet delivered. *)
Definition held s : list T :=
  match pc s with Holding item => [item] | _ => [] end.

(** The items of the [Write] calls of an execution, in order. *)
Fixpoint writes tr : list T :=
  match tr with
  | [] => []
  | AWrite item _ :: rest => item :: writes rest
  | _ :: rest => writes rest
  end.

(** An execution step that neither closes the Producer nor cancels a
    Consumer of [P]. *)
Definition undisturbed (P : list ptr) (a : Action (T:=T)) : Prop :=
  match a with
  | AClose => False
  | AConsumerClose q | ACtxCancel q => q ∉ P
  | _ => True
  end.

(** The Producer is open and runs [goroutine_Producer_all]; all queues hold
    at least [B] items; every Consumer of [P] is registered, not cancelled,
    and has been sent exactly what the dispatch goroutine has delivered so
    far. *)
Definition serving (B : nat) (P : list ptr) s : Prop :=
  wf s ∧ done s = false ∧ dispatcher s = Some goroutine_Producer_all
  ∧ B ≤ ch_cap (input s) ∧ B ≤ consumer_buffer_size s
  ∧ ∀ p, p ∈ P →
      p ∈ consumers s
      ∧ ∃ c, heap s !! p = Some c ∧ ctx_done c = false
             ∧ ch_sent (Messages c) ++ held s = ch_recvd (input s).

End Spec.

(** ** Concrete runs *)

(** An execution from a state, staying put on a panic. *)
Definition run `{Sorter} {T : Type} (tr : list (Action (T:=T))) (s : State (T:=T)) : State :=
  match exec tr s with Some s' => s' | None => s end.

(** Two Consumers under LRU; an item written, received and delivered to the
    first of them at time 30. *)
Definition lru_trace : list (Action (T:=nat)) :=
  [ACreateConsumer "a" false 10; ACreateConsumer "b" false 20;
   AWrite 7 0; ALoop 0 (steady 0); ALoop 0 (steady 30)].

Definition lru_run : State (T:=nat) :=
  run lru_trace (NewProducer ProducerKind_LRU 4 4).

(** Thirteen Consumers under LRU, one more than the [sort] package sorts by
    insertion alone.  The third and the last registered share the earliest
    [lastUsed]. *)
Definition tied_trace : list (Action (T:=nat)) :=
  [ACreateConsumer "a" false 5; ACreateConsumer "b" false 100;
   ACreateConsumer "c" false 1; ACreateConsumer "d" false 50;
   ACreateConsumer "e" false 6; ACreateConsumer "f" false 7;
   ACreateConsumer "g" false 51; ACreateConsumer "h" false 8;
   ACreateConsumer "i" false 9; ACreateConsumer "j" false 52;
   ACreateConsumer "k" false 10; ACreateConsumer "l" false 11;
   ACreateConsumer "m" false 1].

Definition tied_run : State (T:=nat) :=
  run tied_trace (NewProducer ProducerKind_LRU 4 4).

(** Two Consumers under All, none cancelled, nothing written. *)
Definition all_trace : list (Action (T:=nat)) :=
  [ACreateConsumer "a" false 10; ALoop 0 (steady 0); ACreateConsumer "b" false 20].

Definition all_ready : State (T:=nat) :=
  run all_trace (NewProducer ProducerKind_All 4 4).

(** One Consumer whose context has been cancelled by the caller, after
    [Close]; neither the shutdown goroutine nor the watcher has run. *)
Definition cancelled_trace : list (Action (T:=nat)) :=
  [ACreateConsumer "a" false 10; ACtxCancel 0; AClose].

Definition cancelled_run : State (T:=nat) :=
  run cancelled_trace (NewProducer ProducerKind_Single 1 1).

(** Two producers write [1; 2] and [3; 4] while the dispatch goroutine and
    a reader run in between. *)
Definition two_writers : list (Action (T:=nat)) :=
  [AWrite 1 0; AWrite 3 0; ALoop 0 (steady 0); AWrite 2 0; ALoop 0 (steady 11); ARead 0;
   AWrite 4 0].

(** * Further vocabulary

    For the properties of the package beyond delivery to a fixed set of
    Consumers. *)

Section Spec2.
Context {T : Type}.
Implicit Types (s : State (T:=T)) (c : Consumer (T:=T)) (h : list (Consumer (T:=T))).
Implicit Types (p q : ptr) (item : T) (tr : list (Action (T:=T))).

(** A buffer within its capacity. *)
Definition chan_bounded (ch : Chan T) : Prop := length (ch_buf ch) ≤ ch_cap ch.

(** A property of Consumers that everything the package does to a Consumer
    keeps: creation, a successful push, cancellation, [Close], a receive or
    a parked reader on [Messages], and the watcher's exit on a cancelled
    context. *)
Record stable (Q : Consumer (T:=T) → Prop) : Prop := {
  stable_new : ∀ id parent_done now size,
    Q (start_watcher (newConsumer id parent_done now size));
  stable_push : ∀ c item now,
    Q c → can_send (Messages c) = true → Q (pushed c item now);
  stable_cancel : ∀ c, Q c → Q (cancel c);
  stable_close : ∀ c,
    Q c → c_closeOnce c = false →
    Q (cancel (mkConsumer (c_id c) (Messages c) (lastUsed c) (ctx_done c) true
                          (watching c)));
  stable_recv : ∀ c x ch,
    Q c → chanrecv (Messages c) = Some (x, ch) → Q (with_Messages c ch);
  stable_park : ∀ c,
    Q c → chanrecv (Messages c) = None →
    Q (with_Messages c (chanpark (Messages c)));
  stable_stop : ∀ c, Q c → ctx_done c = true → Q (stop_watcher c)
}.

(** Every allocated Consumer satisfies [Q]. *)
Definition cells (Q : Consumer (T:=T) → Prop) s : Prop :=
  ∀ p c, heap s !! p = Some c → Q c.

(** What the dispatch goroutine has delivered, [d], is what it received
    from [input] but for the item it holds; every Consumer has been sent a
    subsequence of it. *)
Definition in_order s : Prop :=
  ∃ d, ch_recvd (input s) = d ++ held s
       ∧ ∀ p c, heap s !! p = Some c → ch_sent (Messages c) `sublist_of` d.

(** The history of the queue is untouched. *)
Definition same_sent c c' : Prop := ch_sent (Messages c') = ch_sent (Messages c).

(** Everything the Consumers have been sent, all together. *)
Definition all_sent h : list T := h ≫= λ c, ch_sent (Messages c).

(** A step that is not a cancellation of [p] by its caller. *)
Definition not_cancelling p (a : Action (T:=T)) : Prop :=
  match a with
  | AConsumerClose q | ACtxCancel q => q ≠ p
  | _ => True
  end.

(** The Producer is open and runs [goroutine_Producer_single] or
    [goroutine_Producer_lru]; the Consumer [p] is registered and not
    cancelled; what the Consumers have been sent, with the item the
    dispatch goroutine holds, is what it has received. *)
Definition serving_one p s : Prop :=
  wf s ∧ done s = false
  ∧ (dispatcher s = Some goroutine_Producer_single
     ∨ dispatcher s = Some goroutine_Producer_lru)
  ∧ in_order s
  ∧ p ∈ consumers s ∧ ctx_done <$> heap s !! p = Some false
  ∧ all_sent (heap s) ++ held s ≡ₚ ch_recvd (input s).

(** The critical section of [goroutine_Producer_lru] run once for each of
    [items], an item with the reading of [time.Now()] at its delivery, with
    nothing else touching the Consumers in between. *)
Definition lru_rounds `{Sorter} (items : list (T * Timestamp)) s : State :=
  fold_left (λ s x, deliver_lru x.1 x.2 s) items s.

(** [s'] is [s] with one more Consumer allocated, at [p], cancelled and
    with its watcher gone; the registry and everything else are as in
    [s]. *)
Definition restored s p s' : Prop :=
  consumers s' = consumers s
  ∧ (input s', done s', closeOnce s', pc s', closer s')
    = (input s, done s, closeOnce s, pc s, closer s)
  ∧ length (heap s') = S (length (heap s))
  ∧ (∀ q c, heap s !! q = Some c → heap s' !! q = Some c)
  ∧ ∃ c', heap s' !! p = Some c' ∧ ctx_done c' = true ∧ watching c' = false.

End Spec2.

(** ** Further concrete runs *)

(** A Producer closed with one Consumer and one item still in [input]; the
    dispatch goroutine has seen [done] and returned. *)
Definition returned_trace : list (Action (T:=nat)) :=
  [ACreateConsumer "a" false 10; AWrite 7 0; AClose; ALoop 1 (steady 0)].

Definition returned_run : State (T:=nat) :=
  run returned_trace (NewProducer ProducerKind_Single 4 4).

(** Two Consumers under LRU, then [Close]: the shutdown goroutine is about
    to make its pass. *)
Definition closing_trace : list (Action (T:=nat)) :=
  [ACreateConsumer "a" false 10; ACreateConsumer "b" false 20; AClose].

Definition closing_run : State (T:=nat) :=
  run closing_trace (NewProducer ProducerKind_LRU 4 4).

(** The same once the shutdown goroutine has made its pass and both
    watchers have run. *)
Definition shut_trace : list (Action (T:=nat)) :=
  closing_trace ++ [AShutdown; AWatcher 1; AWatcher 0].

Definition shut_run : State (T:=nat) :=
  run shut_trace (NewProducer ProducerKind_LRU 4 4).

(** What may still run on a Producer that has been closed: writes, the
    dispatch goroutine, a new Consumer, the shutdown goroutine, watchers. *)
Definition late_trace : list (Action (T:=nat)) :=
  [AWrite 8 0; ALoop 0 (steady 0); ACreateConsumer "b" false 20; ALoop 0 (steady 30); AClose;
   AShutdown; AWatcher 0; AWatcher 2; ARead 1].

(** Two Consumers under LRU, nothing written. *)
Definition lru_ready_trace : list (Action (T:=nat)) :=
  [ACreateConsumer "a" false 10; ACreateConsumer "b" false 20].

Definition lru_ready : State (T:=nat) :=
  run lru_ready_trace (NewProducer ProducerKind_LRU 4 4).

(** Three writes while the dispatch goroutine runs, the second Consumer is
    closed and removed, and the first is read from. *)
Definition three_writes : list (Action (T:=nat)) :=
  [AWrite 1 0; AWrite 2 0; ALoop 0 (steady 0); AConsumerClose 1; ALoop 0 (steady 30); AWrite 3 0;
   ARead 0; AWatcher 1].

(** Under LRU with queues of one item: the first Consumer holds an item it
    has not read, the second was created later and is empty. *)
Definition lru_blocked_trace : list (Action (T:=nat)) :=
  [ACreateConsumer "a" false 10; AWrite 7 0; ALoop 0 (steady 0); ALoop 0 (steady 15);
   ACreateConsumer "b" false 20].

Definition lru_blocked : State (T:=nat) :=
  run lru_blocked_trace (NewProducer ProducerKind_LRU 4 1).

(** Two Consumers under LRU and two items waiting on [input]. *)
Definition lru_loaded_trace : list (Action (T:=nat)) :=
  lru_ready_trace ++ [AWrite 1 0; AWrite 2 0].

Definition lru_loaded : State (T:=nat) :=
  run lru_loaded_trace (NewProducer ProducerKind_LRU 4 4).

(** The first Consumer of [shut_run]. *)
Definition shut_a : Consumer (T:=nat) :=
  mkConsumer "a" (mkChan 4 [] 0 []) 10 true true false.

(** ** The logger's lines *)

(** The level a method logs at, its name in the line, and its message. *)
Definition call_level (c : logger.Call) : Z :=
  match c with
  | logger.CDebug _ | logger.CDebugln _ => logger.LogLevelDebug
  | logger.CInfo _ | logger.CInfoln _ => logger.LogLevelInfo
  | logger.CWarn _ | logger.CWarnln _ => logger.LogLevelWarn
  | logger.CError _ | logger.CErrorln _ => logger.LogLevelError
  end.

Definition call_name (c : logger.Call) : list ascii :=
  match c with
  | logger.CDebug _ | logger.CDebugln _ => logger.DEBUG
  | logger.CInfo _ | logger.CInfoln _ => logger.INFO
  | logger.CWarn _ | logger.CWarnln _ => logger.WARN
  | logger.CError _ | logger.CErrorln _ => logger.ERROR
  end.

Definition call_message (c : logger.Call) : list ascii :=
  match c with
  | logger.CDebug msg | logger.CInfo msg | logger.CWarn msg | logger.CError msg => msg
  | logger.CDebugln v | logger.CInfoln v | logger.CWarnln v | logger.CErrorln v =>
      logger.Join v [" "%char]
  end.

(** The line of a call under a prefix: ["LEVEL: prefix message"]. *)
Definition line_of (prefix : list ascii) (c : logger.Call) : list ascii :=
  call_name c ++ String.list_ascii_of_string ": " ++ prefix ++ [" "%char]
  ++ call_message c.

(** A lower-case hexadecimal digit, and its value. *)
Definition unhex_digit (a : ascii) : option nat :=
  fst <$> list_find (λ d, d = a) ldigits.

(** The bytes an identifier of [CreateID] was made of: the dashes at their
    places, two digits for each byte. *)
Fixpoint unhex (s : list ascii) : option (list Byte.byte) :=
  match s with
  | [] => Some []
  | [_] => None
  | hi :: lo :: rest =>
      h ← unhex_digit hi; l ← unhex_digit lo;
      x ← Byte.of_nat (16 * h + l);
      (x ::.) <$> unhex rest
  end.

Definition parseID (id : list ascii) : option (list Byte.byte) :=
  if bool_decide ((λ i, id !! i) <$> [8; 13; 18; 23] = replicate 4 (Some "-"%char))
  then unhex (slice id 0 8 ++ slice id 9 13 ++ slice id 14 18 ++ slice id 19 23
              ++ slice id 24 36)
  else None.

(** Sixteen bytes as [rand.Read] may deliver them. *)
Definition sample_bytes : list Byte.byte :=
  [Byte.x00; Byte.x01; Byte.x7f; Byte.x80; Byte.xff; Byte.x10; Byte.xa5; Byte.x5a;
   Byte.xde; Byte.xad; Byte.xbe; Byte.xef; Byte.x09; Byte.x90; Byte.xc3; Byte.x3c].

Definition sample_Read (b : list Byte.byte) : option (list Byte.byte) :=
  Some (take (length b) sample_bytes).

(** A Producer closed with one Consumer and one item on [input], the
    dispatch goroutine still at its [select]. *)
Definition stranded_trace : list (Action (T:=nat)) :=
  [ACreateConsumer "a" false 10; AWrite 7 0; AClose].

Definition stranded_run : State (T:=nat) :=
  run stranded_trace (NewProducer ProducerKind_Single 4 4).

(** Six writes, with the random number [select] is given for each. *)
Definition six_writes : list (nat * nat) :=
  [(1, 0); (2, 0); (3, 1); (4, 0); (5, 1); (6, 0)].

(** ** Maps as [PrettyMap] sees them *)

(** The depth of nesting of maps. *)
Fixpoint value_depth (v : value) : nat :=
  match v with
  | VMap data =>
      S ((fix go (l : list (list ascii * value)) : nat :=
            match l with
            | [] => 0
            | (_, v) :: l => value_depth v `max` go l
            end) data)
  | _ => 0
  end.

Definition map_depth (data : list (list ascii * value)) : nat :=
  foldr (λ e d, value_depth e.2 `max` d) 0 data.

(** The same Go value, whatever the order its maps are run over in: the
    same keys, and under each key the same value. *)
Inductive same_value : value → value → Prop :=
  | same_VNil : same_value VNil VNil
  | same_VMap data data' :
      data.*1 ≡ₚ data'.*1 →
      (∀ k, k ∈ data.*1 → same_value (map_index data k) (map_index data' k)) →
      same_value (VMap data) (VMap data')
  | same_VOtherMap percent_T : same_value (VOtherMap percent_T) (VOtherMap percent_T)
  | same_VOther percent_v : same_value (VOther percent_v) (VOther percent_v).

(** A map with a nested map, a map of another type and a scalar, and the
    same map run over in another order at both levels. *)
Definition sample_map : list (list ascii * value) :=
  [(String.list_ascii_of_string "b", VOther (String.list_ascii_of_string "2"));
   (String.list_ascii_of_string "a",
    VMap [(String.list_ascii_of_string "y", VNil);
          (String.list_ascii_of_string "x",
           VOther (String.list_ascii_of_string "[1 2]"))]);
   (String.list_ascii_of_string "c",
    VOtherMap (String.list_ascii_of_string "map[int]string"))].

Definition sample_map' : list (list ascii * value) :=
  [(String.list_ascii_of_string "a",
    VMap [(String.list_ascii_of_string "x",
           VOther (String.list_ascii_of_string "[1 2]"));
          (String.list_ascii_of_string "y", VNil)]);
   (String.list_ascii_of_string "b", VOther (String.list_ascii_of_string "2"));
   (String.list_ascii_of_string "c",
    VOtherMap (String.list_ascii_of_string "map[int]string"))].


(** Two rounds of two items, the clock advancing. *)
Definition two_rounds : list (list (nat * Timestamp)) :=
  [[(1, 30); (2, 31)]; [(3, 32); (4, 33)]].

(** * Proofs *)

(** ** Insertion sort meets the contract of [sort.Sort] *)

Section InsertionSort.
Context {A : Type}.
Implicit Types (less : A → A → bool) (key : A → nat) (l acc : list A).

Lemma insert_back_perm less x l : insert_back less x l ≡ₚ x :: l.
Proof.
  induction l as [|y l IH]; simpl; [done|].
  destruct (less x y); [|done].
  rewrite IH. apply Permutation_swap.
Qed.

Lemma insert_fold_perm less l acc :
  fold_left (λ acc x, insert_back less x acc) l acc ≡ₚ l ++ acc.
Proof.
  revert acc. induction l as [|x l IH]; intros acc; simpl; [done|].
  rewrite IH, insert_back_perm. by rewrite Permutation_middle.
Qed.

Lemma insertionSort_perm less l : insertionSort less l ≡ₚ l.
Proof.
  unfold insertionSort. rewrite <-Permutation_rev.
  rewrite insert_fold_perm. by rewrite app_nil_r.
Qed.

Lemma insert_back_desc key x l :
  StronglySorted (λ a b, key b ≤ key a) l →
  StronglySorted (λ a b, key b ≤ key a) (insert_back (λ a b, key a <? key b) x l).
Proof.
  induction l as [|y l IH]; simpl; intros Hs.
  - repeat constructor.
  - apply StronglySorted_cons in Hs as [Hy Hl].
    destruct (key x <? key y) eqn:E.
    + apply Nat.ltb_lt in E. apply StronglySorted_cons. split; [|by apply IH].
      rewrite insert_back_perm. constructor; [lia|done].
    + apply Nat.ltb_ge in E. apply StronglySorted_cons. split.
      * constructor; [done|]. eapply Forall_impl; [exact Hy|]. simpl. lia.
      * apply StronglySorted_cons. done.
Qed.

Lemma insert_fold_desc key l acc :
  StronglySorted (λ a b, key b ≤ key a) acc →
  StronglySorted (λ a b, key b ≤ key a)
    (fold_left (λ acc x, insert_back (λ a b, key a <? key b) x acc) l acc).
Proof.
  revert acc. induction l as [|x l IH]; intros acc Hs; simpl; [done|].
  apply IH. by apply insert_back_desc.
Qed.

Lemma StronglySorted_rev_flip (R : A → A → Prop) l :
  StronglySorted (λ a b, R b a) l → StronglySorted R (rev l).
Proof.
  induction l as [|x l IH]; simpl; intros Hs; [constructor|].
  apply StronglySorted_cons in Hs as [Hx Hl].
  apply StronglySorted_app. split_and!.
  - intros a b Ha Hb. apply list_elem_of_singleton in Hb as ->.
    rewrite Forall_forall in Hx. apply Hx.
    apply list_elem_of_In. apply in_rev. by apply list_elem_of_In.
  - by apply IH.
  - repeat constructor.
Qed.

Lemma insertionSort_sorted key l :
  StronglySorted (λ a b, key a ≤ key b) (insertionSort (λ a b, key a <? key b) l).
Proof.
  unfold insertionSort. apply StronglySorted_rev_flip.
  apply insert_fold_desc. constructor.
Qed.

Lemma insert_back_ext less1 less2 x l :
  (∀ b, b ∈ l → less1 x b = less2 x b) →
  insert_back less1 x l = insert_back less2 x l.
Proof.
  induction l as [|y l IH]; simpl; intros Hag; [done|].
  rewrite (Hag y) by left.
  rewrite IH; [done|]. intros b Hb. apply Hag. by right.
Qed.

Lemma insert_fold_ext less1 less2 l acc :
  (∀ a b, a ∈ l ++ acc → b ∈ l ++ acc → less1 a b = less2 a b) →
  fold_left (λ acc x, insert_back less1 x acc) l acc
  = fold_left (λ acc x, insert_back less2 x acc) l acc.
Proof.
  revert acc. induction l as [|x l IH]; intros acc Hag; simpl; [done|].
  rewrite (insert_back_ext less1 less2 x acc).
  - apply IH. intros a b Ha Hb.
    apply Hag.
    + rewrite insert_back_perm in Ha. by rewrite <-Permutation_middle in Ha.
    + rewrite insert_back_perm in Hb. by rewrite <-Permutation_middle in Hb.
  - intros b Hb. apply Hag; simpl; [left|right]. apply elem_of_app. by right.
Qed.

Lemma insertionSort_ext less1 less2 l :
  (∀ a b, a ∈ l → b ∈ l → less1 a b = less2 a b) →
  insertionSort less1 l = insertionSort less2 l.
Proof.
  intros Hag. unfold insertionSort. f_equal.
  apply insert_fold_ext. by rewrite app_nil_r.
Qed.

(** Insertion sort is stable, so that its head is the first of the least
    elements. *)
Lemma insert_back_last key x acc m :
  StronglySorted (λ a b, key b ≤ key a) acc →
  last acc = Some m →
  last (insert_back (λ a b, key a <? key b) x acc)
  = Some (if key x <? key m then x else m).
Proof.
  induction acc as [|y acc IH]; intros Hs Hl; [done|].
  apply StronglySorted_cons in Hs as [Hy Hs]. cbn [insert_back].
  assert (Hym : key m ≤ key y).
  { apply last_Some in Hl as [l' Hl']. destruct l' as [|y' l'].
    - injection Hl' as -> _. done.
    - injection Hl' as -> ->. rewrite Forall_forall in Hy. apply Hy.
      apply elem_of_app. right. by left. }
  rewrite last_cons in Hl. destruct (key x <? key y) eqn:E.
  - rewrite last_cons. destruct (last acc) as [m0|] eqn:Hacc.
    + injection Hl as ->. by rewrite (IH Hs eq_refl).
    + injection Hl as ->. apply last_None in Hacc as ->. simpl. by rewrite E.
  - apply Nat.ltb_ge in E. rewrite !last_cons.
    assert ((key x <? key m) = false) as -> by (apply Nat.ltb_ge; lia).
    by destruct (last acc).
Qed.

Lemma first_least_snoc key l m x :
  first_least key l m →
  first_least key (l ++ [x]) (if key x <? key m then x else m).
Proof.
  intros (l1 & l2 & -> & H1 & H2). destruct (key x <? key m) eqn:E.
  - apply Nat.ltb_lt in E. exists (l1 ++ m :: l2), []. split; [done|].
    split; [|constructor]. apply Forall_app. split; [|constructor].
    + eapply Forall_impl; [exact H1|]. simpl. lia.
    + lia.
    + eapply Forall_impl; [exact H2|]. simpl. lia.
  - apply Nat.ltb_ge in E. exists l1, (l2 ++ [x]). split; [by rewrite <-app_assoc|].
    split; [done|]. apply Forall_app. split; [done|]. by constructor.
Qed.

Lemma insert_fold_first_least key l seen acc m :
  StronglySorted (λ a b, key b ≤ key a) acc →
  last acc = Some m →
  first_least key seen m →
  ∃ m', last (fold_left (λ acc x, insert_back (λ a b, key a <? key b) x acc) l acc)
        = Some m'
        ∧ first_least key (seen ++ l) m'.
Proof.
  revert seen acc m. induction l as [|x l IH]; intros seen acc m Hs Hl Hf; simpl.
  - exists m. by rewrite app_nil_r.
  - destruct (IH (seen ++ [x]) (insert_back (λ a b, key a <? key b) x acc)
                 (if key x <? key m then x else m)) as (m' & Hl' & Hf').
    + by apply insert_back_desc.
    + by apply insert_back_last.
    + by apply first_least_snoc.
    + exists m'. split; [done|]. by rewrite <-app_assoc in Hf'.
Qed.

Lemma insertionSort_first_least key l m rest :
  insertionSort (λ a b, key a <? key b) l = m :: rest →
  first_least key l m.
Proof.
  unfold insertionSort. destruct l as [|a l]; [done|]. simpl. intros Hrev.
  destruct (insert_fold_first_least key l [a] [a] a) as (m' & Hl & Hf).
  - repeat constructor.
  - done.
  - exists [], []. by repeat split.
  - assert (m' = m) as ->; [|done].
    apply (f_equal (@rev A)) in Hrev. rewrite rev_involutive in Hrev. simpl in Hrev.
    rewrite Hrev in Hl. rewrite last_snoc in Hl. by injection Hl.
Qed.

End InsertionSort.

#[export] Instance insertion_sorter_contract : SorterContract insertion_sorter.
Proof.
  split.
  - exact @insertionSort_perm.
  - exact @insertionSort_sorted.
  - exact @insertionSort_ext.
Qed.

Lemma back_sorter_contract : SorterContract back_sorter.
Proof.
  split; unfold sort_by, back_sorter, backSort.
  - intros A less l. by rewrite insertionSort_perm, <-Permutation_rev.
  - intros A key l. apply insertionSort_sorted.
  - intros A less1 less2 l Hag. apply insertionSort_ext.
    intros a b Ha Hb. rewrite <-(Permutation_rev l) in Ha, Hb. by apply Hag.
Qed.

(** Sorted by insertion, the registry has at its head the first registered
    of the Consumers with the earliest [lastUsed]. *)
Lemma lru_insertion_first_least {T : Type} (s : State (T:=T)) (lru : ptr) :
  sort_by (Sorter:=insertion_sorter) (Less (heap s)) (consumers s) !! 0 = Some lru →
  first_least (lastUsed_at (heap s)) (consumers s) lru.
Proof.
  unfold sort_by, insertion_sorter. intros Hhd.
  destruct (insertionSort (Less (heap s)) (consumers s)) as [|m rest] eqn:E; [done|].
  injection Hhd as ->. by apply (insertionSort_first_least _ _ _ rest).
Qed.

(** ** select with two cases *)

Lemma go_select_first {A : Type} (a b : A) rnd :
  go_select [(true, a); (false, b)] rnd = Some a.
Proof. reflexivity. Qed.

Lemma go_select_second {A : Type} (a b : A) rnd :
  go_select [(false, a); (true, b)] rnd = Some b.
Proof. reflexivity. Qed.

Lemma go_select_none {A : Type} (a b : A) rnd :
  go_select [(false, a); (false, b)] rnd = None.
Proof. unfold go_select. simpl. apply lookup_nil. Qed.

Lemma go_select_both {A : Type} (a b : A) rnd :
  go_select [(true, a); (true, b)] rnd = Some (if rnd `mod` 2 =? 0 then a else b).
Proof.
  unfold go_select. cbn [ready_cases length].
  pose proof (Nat.mod_upper_bound rnd 2) as Hlt.
  destruct (rnd `mod` 2) as [|[|n]]; [done|done|lia].
Qed.

(** The default branch is taken exactly when no case is ready. *)
Lemma go_select_two {A : Type} (r1 r2 : bool) (a b : A) rnd :
  go_select [(r1, a); (r2, b)] rnd = None ↔ r1 = false ∧ r2 = false.
Proof.
  destruct r1, r2.
  - rewrite go_select_both. split; [done|by intros [? ?]].
  - rewrite go_select_first. split; [done|by intros [? ?]].
  - rewrite go_select_second. split; [done|by intros [? ?]].
  - by rewrite go_select_none.
Qed.

(** ** Channel operations keep parked receivers on empty buffers *)

Section ChanFacts.
Context {T : Type}.
Implicit Types (c : Chan T) (x : T).

Lemma make_chan_ok n : chan_ok (make_chan (T:=T) n).
Proof. unfold chan_ok. simpl. lia. Qed.

Lemma chansend_ok c x : chan_ok c → chan_ok (chansend c x).
Proof.
  unfold chan_ok, chansend. intros Hok.
  destruct (0 <? ch_recvq c) eqn:E; simpl.
  - apply Nat.ltb_lt in E. intros _. by apply Hok.
  - apply Nat.ltb_ge in E. lia.
Qed.

Lemma chansend_cap c x : ch_cap (chansend c x) = ch_cap c.
Proof. unfold chansend. by destruct (0 <? ch_recvq c). Qed.

(** A send appends to the history of the channel. *)
Lemma chansend_sent c x : chan_ok c → ch_sent (chansend c x) = ch_sent c ++ [x].
Proof.
  unfold chan_ok, chansend, ch_sent. intros Hok.
  destruct (0 <? ch_recvq c) eqn:E; simpl.
  - apply Nat.ltb_lt in E. rewrite (Hok E). by rewrite !app_nil_r.
  - by rewrite app_assoc.
Qed.

Lemma chanrecv_ok c x c' : chan_ok c → chanrecv c = Some (x, c') → chan_ok c'.
Proof.
  unfold chan_ok, chanrecv. intros Hok Hr.
  destruct (ch_buf c) as [|y b] eqn:E; [done|].
  injection Hr as <- <-. simpl. intros Hq. by specialize (Hok Hq).
Qed.

Lemma chanrecv_cap c x c' : chanrecv c = Some (x, c') → ch_cap c' = ch_cap c.
Proof.
  unfold chanrecv. destruct (ch_buf c); [done|]. by intros [= <- <-].
Qed.

Lemma chanrecv_sent c x c' : chanrecv c = Some (x, c') → ch_sent c' = ch_sent c.
Proof.
  unfold chanrecv, ch_sent. destruct (ch_buf c) as [|y b]; [done|].
  intros [= <- <-]. simpl. by rewrite <-app_assoc.
Qed.

Lemma chanrecv_None c : chanrecv c = None ↔ ch_buf c = [].
Proof. unfold chanrecv. by destruct (ch_buf c). Qed.

Lemma can_recv_false c : can_recv c = false ↔ ch_buf c = [].
Proof. unfold can_recv. by destruct (ch_buf c). Qed.

Lemma chanpark_ok c : ch_buf c = [] → chan_ok (chanpark c).
Proof. by intros ? ?. Qed.

Lemma chanwake_ok c : chan_ok (chanwake c).
Proof. unfold chan_ok. simpl. lia. Qed.

Lemma can_send_false c :
  can_send c = false ↔ ch_recvq c = 0 ∧ ch_cap c ≤ length (ch_buf c).
Proof.
  unfold can_send. rewrite orb_false_iff, !Nat.ltb_ge. lia.
Qed.

(** With a buffer, a parked receiver means room in the buffer. *)
Lemma can_send_buffered c :
  chan_ok c → 0 < ch_cap c →
  can_send c = (length (ch_buf c) <? ch_cap c).
Proof.
  unfold can_send. intros Hok Hcap.
  destruct (0 <? ch_recvq c) eqn:E; [|done].
  apply Nat.ltb_lt in E. rewrite (Hok E). simpl. symmetry. by apply Nat.ltb_lt.
Qed.

End ChanFacts.

(** ** The registry *)

Lemma removeConsumer_absent p l : p ∉ l → removeConsumer p l = l.
Proof.
  induction l as [|q l IH]; simpl; intros Hni; [done|].
  apply not_elem_of_cons in Hni as [Hne Hni].
  destruct (q =? p) eqn:E.
  - apply Nat.eqb_eq in E. congruence.
  - by rewrite IH.
Qed.

Lemma removeConsumer_length p l :
  p ∈ l → S (length (removeConsumer p l)) = length l.
Proof.
  induction l as [|q l IH]; simpl; intros Hin; [by apply elem_of_nil in Hin|].
  destruct (q =? p) eqn:E; [done|]. simpl. f_equal. apply IH.
  apply Nat.eqb_neq in E. apply elem_of_cons in Hin as [->|Hin]; done.
Qed.

Lemma removeConsumer_elem_of p q l :
  NoDup l → q ∈ removeConsumer p l ↔ q ∈ l ∧ q ≠ p.
Proof.
  induction l as [|r l IH]; simpl; intros Hnd.
  - split; [by intros ?%elem_of_nil|by intros [?%elem_of_nil _]].
  - apply NoDup_cons in Hnd as [Hr Hnd].
    destruct (r =? p) eqn:E.
    + apply Nat.eqb_eq in E as ->. rewrite elem_of_cons. split.
      * intros Hq. split; [by right|]. by intros ->.
      * by intros [[->|Hq] Hne].
    + apply Nat.eqb_neq in E. rewrite !elem_of_cons, (IH Hnd). split.
      * intros [->|[Hq Hne]]; [by split; [left|]|by split; [right|]].
      * intros [[->|Hq] Hne]; [by left|by right].
Qed.

Lemma removeConsumer_NoDup p l : NoDup l → NoDup (removeConsumer p l).
Proof.
  induction l as [|r l IH]; simpl; intros Hnd; [done|].
  apply NoDup_cons in Hnd as [Hr Hnd].
  destruct (r =? p); [done|]. apply NoDup_cons. split; [|by apply IH].
  rewrite removeConsumer_elem_of by done. by intros [? _].
Qed.

(** ** Heaps evolving Consumer by Consumer *)

Section HeapFacts.
Context {T : Type}.
Implicit Types (c : Consumer (T:=T)) (h : list (Consumer (T:=T))) (p q : ptr).

Lemma heap_le_refl R h : (∀ c, R c c) → heap_le R h h.
Proof. intros HR. split; [done|]. intros q c Hq. by exists c. Qed.

Lemma heap_le_trans R h1 h2 h3 :
  (∀ a b c, R a b → R b c → R a c) →
  heap_le R h1 h2 → heap_le R h2 h3 → heap_le R h1 h3.
Proof.
  intros HR [Hl1 H1] [Hl2 H2]. split; [congruence|].
  intros q c Hq. destruct (H1 q c Hq) as (c2 & Hq2 & Hr2).
  destruct (H2 q c2 Hq2) as (c3 & Hq3 & Hr3). exists c3. eauto.
Qed.

Lemma heap_le_insert R h p c c' :
  (∀ c, R c c) → h !! p = Some c → R c c' → heap_le R h (<[p := c']> h).
Proof.
  intros HR Hp Hr. split; [apply length_insert|].
  intros q d Hq. destruct (decide (q = p)) as [->|Hne].
  - exists c'. rewrite list_lookup_insert_eq by (by eapply lookup_lt_Some).
    split; [done|]. congruence.
  - exists d. by rewrite list_lookup_insert_ne.
Qed.

Lemma heap_le_fold R (f : list Consumer → ptr → list Consumer) (l : list ptr) h :
  (∀ c, R c c) → (∀ a b c, R a b → R b c → R a c) →
  (∀ h p, heap_le R h (f h p)) →
  heap_le R h (fold_left f l h).
Proof.
  intros Hrefl Htrans Hf. revert h.
  induction l as [|p l IH]; intros h; simpl; [by apply heap_le_refl|].
  eapply heap_le_trans; [done|apply Hf|apply IH].
Qed.

Lemma evolves_refl c : evolves c c.
Proof. by repeat split. Qed.

Lemma evolves_trans a b c : evolves a b → evolves b c → evolves a c.
Proof.
  intros (?&?&?&?&?&?) (?&?&?&?&?&?).
  repeat split; [congruence|congruence|congruence|auto|auto|auto].
Qed.

Lemma offer_evolves (item : T) now h p : heap_le evolves h (offer item now h p).
Proof.
  unfold offer. destruct (h !! p) as [c|] eqn:Hp; [|by apply heap_le_refl, evolves_refl].
  destruct (can_send (Messages c)); [|by apply heap_le_refl, evolves_refl].
  eapply heap_le_insert; [apply evolves_refl|done|].
  repeat split; simpl; [apply chansend_cap|apply chansend_ok|done|done].
Qed.

Lemma heap_le_range_offer R (item : T) now i (l : list ptr) h :
  (∀ c, R c c) → (∀ a b c, R a b → R b c → R a c) →
  (∀ t h p, heap_le R h (offer item t h p)) →
  heap_le R h (range_offer item now i l h).
Proof.
  intros Hrefl Htrans Hf. revert i h.
  induction l as [|p l IH]; intros i h; simpl; [by apply heap_le_refl|].
  eapply heap_le_trans; [done|apply Hf|apply IH].
Qed.

Lemma range_offer_evolves (item : T) now i (l : list ptr) h :
  heap_le evolves h (range_offer item now i l h).
Proof.
  apply heap_le_range_offer; [apply evolves_refl|apply evolves_trans|].
  intros t h' p. apply offer_evolves.
Qed.

Lemma Consumer_Close_evolves h p : heap_le evolves h (Consumer_Close h p).
Proof.
  unfold Consumer_Close.
  destruct (h !! p) as [c|] eqn:Hp; [|by apply heap_le_refl, evolves_refl].
  destruct (c_closeOnce c) eqn:E; [by apply heap_le_refl, evolves_refl|].
  eapply heap_le_insert; [apply evolves_refl|done|]. by repeat split.
Qed.

Lemma ctx_cancel_evolves h p : heap_le evolves h (ctx_cancel h p).
Proof.
  unfold ctx_cancel.
  destruct (h !! p) as [c|] eqn:Hp; [|by apply heap_le_refl, evolves_refl].
  eapply heap_le_insert; [apply evolves_refl|done|]. by repeat split.
Qed.

End HeapFacts.

(** ** Well-formed states are kept by every step *)

Section Invariant.
Context {T : Type} {sorter : Sorter} {contract : SorterContract sorter}.
Implicit Types (s : State (T:=T)) (c : Consumer (T:=T)) (p q : ptr).

Lemma wf_NewProducer kind icap ccap : wf (NewProducer (T:=T) kind icap ccap).
Proof.
  split; simpl; try done; try lia.
  - constructor.
  - by intros p ?%elem_of_nil.
Qed.

Lemma wf_evolve s s' :
  wf s →
  input s' = input s → pc s' = pc s → done s' = done s → closeOnce s' = closeOnce s →
  consumer_buffer_size s' = consumer_buffer_size s →
  consumers s' ≡ₚ consumers s →
  heap_le evolves (heap s) (heap s') →
  wf s'.
Proof.
  intros [Hin Hrq Hpk Hret Hhold Honce Hnd Hreg Hchan Hcap Hwatch].
  intros Ein Epc Ed Eo Hcbs Hperm [Hlen Hle].
  assert (Hback : ∀ p c', heap s' !! p = Some c' →
                  ∃ c, heap s !! p = Some c ∧ evolves c c').
  { intros p c' Hp. destruct (heap s !! p) as [c|] eqn:Hq.
    - exists c. split; [done|]. destruct (Hle p c Hq) as (c2 & Hp2 & Hev). congruence.
    - apply lookup_ge_None in Hq. apply lookup_lt_Some in Hp. lia. }
  split; rewrite ?Ein, ?Epc, ?Ed, ?Eo; try done.
  - by rewrite Hperm.
  - intros p Hp. rewrite Hperm in Hp. rewrite Hlen. by apply Hreg.
  - intros p c' Hp. destruct (Hback p c' Hp) as (c & Hq & Hev).
    destruct Hev as (_&_&_&Hok&_). apply Hok. by eapply Hchan.
  - intros p c' Hp. destruct (Hback p c' Hp) as (c & Hq & Hev).
    destruct Hev as (_&_&Hc&_). rewrite Hc, Hcbs. by eapply Hcap.
  - intros p c' Hp. destruct (Hback p c' Hp) as (c & Hq & Hev).
    destruct Hev as (_&Hw&_). rewrite Hw, Hperm. by eapply Hwatch.
Qed.

(** Delivery touches the registry order (LRU only) and the heap, nothing
    else. *)
Lemma deliver_shape g (item : T) rnd now s :
  ∃ l h, deliver g item rnd now s = upd_heap (upd_consumers s l) h
         ∧ l ≡ₚ consumers s ∧ heap_le evolves (heap s) h.
Proof.
  assert (Hid : s = upd_heap (upd_consumers s (consumers s)) (heap s)) by by destruct s.
  assert (Hsame : ∃ l h, s = upd_heap (upd_consumers s l) h
                         ∧ l ≡ₚ consumers s ∧ heap_le evolves (heap s) h).
  { exists (consumers s), (heap s). split; [done|]. split; [done|].
    apply heap_le_refl, evolves_refl. }
  destruct g; simpl.
  - unfold deliver_single. destruct (0 <? length (consumers s)); [|done].
    destruct (consumers s !! _) as [selected|]; [|done].
    exists (consumers s), (offer item (now 0) (heap s) selected).
    split; [done|]. split; [done|]. apply offer_evolves.
  - unfold deliver_lru. destruct (0 <? length (consumers s)); [|done].
    destruct (sort_by (Less (heap s)) (consumers s) !! 0) as [lru|] eqn:E.
    + exists (sort_by (Less (heap s)) (consumers s)), (offer item (now 0) (heap s) lru).
      split; [done|]. split; [apply sort_by_perm|apply offer_evolves].
    + exists (sort_by (Less (heap s)) (consumers s)), (heap s).
      split; [done|]. split; [apply sort_by_perm|apply heap_le_refl, evolves_refl].
  - unfold deliver_all.
    exists (consumers s), (range_offer item now 0 (consumers s) (heap s)).
    split; [done|]. split; [done|]. apply range_offer_evolves.
Qed.

Lemma wf_deliver g (item : T) rnd now s : wf s → wf (deliver g item rnd now s).
Proof.
  intros Hwf. destruct (deliver_shape g item rnd now s) as (l & h & -> & Hl & Hh).
  by apply (wf_evolve s).
Qed.

(** Back at the [select] after a delivery. *)
Lemma wf_upd_pc_AtSelect s item : wf s → pc s = Holding item → wf (upd_pc s AtSelect).
Proof. intros [] Hpc. by split. Qed.

Lemma go_select_second_ready {A : Type} (r1 r2 : bool) (a b : A) rnd :
  a ≠ b → go_select [(r1, a); (r2, b)] rnd = Some b → r2 = true.
Proof.
  intros Hne. destruct r1, r2; try done.
  rewrite go_select_first. congruence.
Qed.

Lemma wf_Write (item : T) rnd s : wf s → wf (snd (Write item rnd s)).
Proof.
  intros Hwf. unfold Write.
  destruct (go_select _ rnd) as [[]|]; simpl; try done.
  unfold send_input.
  pose proof (chansend_ok (input s) item (wf_input s Hwf)) as Hok.
  destruct Hwf as [Hin Hrq Hpk Hret Hhold Honce Hnd Hreg Hchan Hcap Hwatch].
  unfold chansend in *.
  destruct (0 <? ch_recvq (input s)) eqn:E; split; simpl; try done; try lia.
  intros x [= <-]. by eexists.
Qed.

Lemma wf_loop_step rnd now s : wf s → wf (loop_step rnd now s).
Proof.
  intros Hwf. unfold loop_step.
  destruct (dispatcher s) as [g|]; [|done].
  destruct (pc s) as [|item|] eqn:Epc; [|by eapply wf_deliver, wf_upd_pc_AtSelect|done].
  destruct (0 <? ch_recvq (input s)) eqn:Erq; [done|]. apply Nat.ltb_ge in Erq.
  destruct (go_select _ rnd) as [[]|] eqn:E.
  - destruct (chanrecv (input s)) as [[item ch]|] eqn:Er; [|done].
    pose proof (chanrecv_ok _ _ _ (wf_input s Hwf) Er) as Hok.
    unfold chanrecv in Er. destruct (ch_buf (input s)) as [|x b]; [done|].
    injection Er as <- <-.
    destruct Hwf as [Hin Hrq Hpk Hret Hhold Honce Hnd Hreg Hchan Hcap Hwatch].
    split; simpl; try done; try lia.
    intros y [= <-]. by eexists.
  - apply go_select_second_ready in E; [|done].
    destruct Hwf as [Hin Hrq Hpk Hret Hhold Honce Hnd Hreg Hchan Hcap Hwatch].
    split; simpl; try done; try lia.
  - apply go_select_two in E as [E _]. apply can_recv_false in E.
    destruct Hwf as [Hin Hrq Hpk Hret Hhold Honce Hnd Hreg Hchan Hcap Hwatch].
    split; simpl; try done; try lia.
    by intros _.
Qed.

Lemma wf_Close s s' : wf s → Close s = Some s' → wf s'.
Proof.
  intros Hwf. unfold Close, close_done.
  destruct (closeOnce s) eqn:Eo; [by intros [= <-]|]. simpl.
  destruct (done s) eqn:Ed; [done|]. intros [= <-].
  destruct Hwf as [Hin Hrq Hpk Hret Hhold Honce Hnd Hreg Hchan Hcap Hwatch].
  destruct (0 <? ch_recvq (input s)) eqn:E; split; simpl; try done; try lia.
  apply chanwake_ok.
Qed.

Lemma wf_CreateConsumer id parent_done now s :
  wf s → wf (snd (CreateConsumer id parent_done now s)).
Proof.
  intros [Hin Hrq Hpk Hret Hhold Honce Hnd Hreg Hchan Hcap Hwatch].
  split; simpl; try done.
  - apply NoDup_app. split; [done|]. split; [|apply NoDup_singleton].
    intros p Hp Hq%list_elem_of_singleton. subst p. apply Hreg in Hp. lia.
  - intros p Hp. rewrite length_app. simpl.
    apply elem_of_app in Hp as [Hp|Hp%list_elem_of_singleton]; [|lia].
    apply Hreg in Hp. lia.
  - intros p c Hp. apply lookup_app_Some in Hp as [Hp|[_ Hp]]; [by eapply Hchan|].
    apply list_lookup_singleton_Some in Hp as [_ <-]. simpl. apply make_chan_ok.
  - intros p c Hp. apply lookup_app_Some in Hp as [Hp|[_ Hp]]; [by eapply Hcap|].
    by apply list_lookup_singleton_Some in Hp as [_ <-].
  - intros p c Hp. rewrite elem_of_app, list_elem_of_singleton.
    apply lookup_app_Some in Hp as [Hp|[Hge Hp]].
    + rewrite (Hwatch p c Hp). split; [by left|]. intros [Hin'| ->]; [done|].
      apply lookup_lt_Some in Hp. lia.
    + apply list_lookup_singleton_Some in Hp as [Hz <-]. simpl.
      split; [|done]. intros _. right. lia.
Qed.

Lemma wf_heap_only s h : wf s → heap_le evolves (heap s) h → wf (upd_heap s h).
Proof. intros Hwf Hle. by apply (wf_evolve s). Qed.

Lemma wf_read_step p s : wf s → wf (read_step p s).
Proof.
  intros Hwf. unfold read_step. destruct (heap s !! p) as [c|] eqn:Hp; [|done].
  destruct (chanrecv (Messages c)) as [[x ch]|] eqn:Er.
  - apply wf_heap_only; [done|].
    eapply heap_le_insert; [apply evolves_refl|done|].
    repeat split; simpl; try done.
    + by eapply chanrecv_cap.
    + intros Hok. by eapply chanrecv_ok.
  - apply wf_heap_only; [done|].
    eapply heap_le_insert; [apply evolves_refl|done|].
    repeat split; simpl; try done.
    intros _. by apply chanpark_ok, chanrecv_None.
Qed.

Lemma wf_shutdown_step s : wf s → wf (shutdown_step s).
Proof.
  intros Hwf. unfold shutdown_step. destruct (done s && closer s); [|done].
  assert (wf (upd_heap s (fold_left Consumer_Close (consumers s) (heap s)))) as [].
  { apply wf_heap_only; [done|].
    apply heap_le_fold; [apply evolves_refl|apply evolves_trans|].
    apply Consumer_Close_evolves. }
  by split.
Qed.

Lemma wf_watcher_step p s : wf s → wf (watcher_step p s).
Proof.
  intros Hwf. unfold watcher_step. destruct (heap s !! p) as [c|] eqn:Hp; [|done].
  destruct (watching c && ctx_done c) eqn:E; [|done].
  destruct Hwf as [Hin Hrq Hpk Hret Hhold Honce Hnd Hreg Hchan Hcap Hwatch].
  split; simpl; try done.
  - by apply removeConsumer_NoDup.
  - intros q Hq. rewrite length_insert. apply Hreg.
    by apply removeConsumer_elem_of in Hq as [? _].
  - intros q d Hq. destruct (decide (q = p)) as [->|Hne].
    + rewrite list_lookup_insert_eq in Hq by (by eapply lookup_lt_Some).
      injection Hq as <-. simpl. by eapply Hchan.
    + rewrite list_lookup_insert_ne in Hq by done. by eapply Hchan.
  - intros q d Hq. destruct (decide (q = p)) as [->|Hne].
    + rewrite list_lookup_insert_eq in Hq by (by eapply lookup_lt_Some).
      injection Hq as <-. simpl. by eapply Hcap.
    + rewrite list_lookup_insert_ne in Hq by done. by eapply Hcap.
  - intros q d Hq. rewrite removeConsumer_elem_of by done.
    destruct (decide (q = p)) as [->|Hne].
    + rewrite list_lookup_insert_eq in Hq by (by eapply lookup_lt_Some).
      injection Hq as <-. simpl. split; [done|]. by intros [_ ?].
    + rewrite list_lookup_insert_ne in Hq by done.
      rewrite (Hwatch q d Hq). split; [done|]. by intros [? _].
Qed.

Lemma wf_step a s s' : wf s → step a s = Some s' → wf s'.
Proof.
  intros Hwf. destruct a; simpl.
  - intros [= <-]. by apply wf_Write.
  - intros [= <-]. by apply wf_CreateConsumer.
  - by apply wf_Close.
  - intros [= <-]. apply wf_heap_only; [done|]. apply Consumer_Close_evolves.
  - intros [= <-]. apply wf_heap_only; [done|]. apply ctx_cancel_evolves.
  - intros [= <-]. by apply wf_read_step.
  - intros [= <-]. by apply wf_loop_step.
  - intros [= <-]. by apply wf_shutdown_step.
  - intros [= <-]. by apply wf_watcher_step.
Qed.

Lemma wf_exec tr s s' : wf s → exec tr s = Some s' → wf s'.
Proof.
  revert s. induction tr as [|a tr IH]; simpl; intros s Hwf.
  - by intros [= <-].
  - destruct (step a s) as [s1|] eqn:E; [|done].
    apply IH. by eapply wf_step.
Qed.

Lemma wf_reachable kind icap ccap s : reachable kind icap ccap s → wf s.
Proof. intros [tr Htr]. eapply wf_exec; [apply wf_NewProducer|done]. Qed.

End Invariant.

(** ** What no step changes *)

Section Frame.
Context {T : Type} {sorter : Sorter} {contract : SorterContract sorter}.
Implicit Types (s : State (T:=T)) (c : Consumer (T:=T)) (p q : ptr).

Lemma send_input_fields (item : T) s :
  params (send_input item s) = params s
  ∧ done (send_input item s) = done s
  ∧ closeOnce (send_input item s) = closeOnce s
  ∧ consumers (send_input item s) = consumers s
  ∧ heap (send_input item s) = heap s.
Proof.
  unfold send_input, params.
  destruct (0 <? ch_recvq (input s)); simpl; by rewrite chansend_cap.
Qed.

Lemma loop_step_fields rnd now s :
  params (loop_step rnd now s) = params s
  ∧ done (loop_step rnd now s) = done s
  ∧ closeOnce (loop_step rnd now s) = closeOnce s.
Proof.
  unfold loop_step. destruct (dispatcher s) as [g|] eqn:Eg; [|done].
  destruct (pc s) as [|item|]; [| |done].
  - destruct (0 <? ch_recvq (input s)); [done|].
    destruct (go_select _ rnd) as [[]|]; [|done|done].
    destruct (chanrecv (input s)) as [[item ch]|] eqn:Er; [|done].
    unfold params. simpl. by rewrite (chanrecv_cap _ _ _ Er).
  - by destruct (deliver_shape g item rnd now (upd_pc s AtSelect)) as (l & h & -> & _).
Qed.

Lemma step_done a s s' : step a s = Some s' → done s = true → done s' = true.
Proof.
  destruct a; simpl; try (by intros [= <-]).
  - intros [= <-]. unfold Write. by destruct (go_select _ rnd) as [[]|]; simpl;
      rewrite ?(proj1 (proj2 (send_input_fields _ _))).
  - unfold Close, close_done. destruct (closeOnce s); [by intros [= <-]|]. simpl.
    destruct (done s); [done|]. intros [= <-].
    by destruct (0 <? ch_recvq (input s)).
  - intros [= <-]. unfold read_step. destruct (heap s !! p); [|done].
    by destruct (chanrecv _) as [[]|].
  - intros [= <-]. by rewrite (proj1 (proj2 (loop_step_fields _ _ _))).
  - intros [= <-]. unfold shutdown_step. by destruct (done s && closer s).
  - intros [= <-]. unfold watcher_step. destruct (heap s !! p); [|done].
    by destruct (watching _ && ctx_done _).
Qed.

Lemma exec_done tr s s' : exec tr s = Some s' → done s = true → done s' = true.
Proof.
  revert s. induction tr as [|a tr IH]; simpl; intros s; [by intros [= <-]|].
  destruct (step a s) as [s1|] eqn:E; [|done].
  intros Hex Hd. eapply IH; [done|]. by eapply step_done.
Qed.

Lemma step_params a s s' : step a s = Some s' → params s' = params s.
Proof.
  destruct a; simpl; try (by intros [= <-]).
  - intros [= <-]. unfold Write. by destruct (go_select _ rnd) as [[]|]; simpl;
      rewrite ?(proj1 (send_input_fields _ _)).
  - unfold Close, close_done. destruct (closeOnce s); [by intros [= <-]|]. simpl.
    destruct (done s); [done|]. intros [= <-].
    by destruct (0 <? ch_recvq (input s)).
  - intros [= <-]. unfold read_step. destruct (heap s !! p); [|done].
    by destruct (chanrecv _) as [[]|].
  - intros [= <-]. by rewrite (proj1 (loop_step_fields _ _ _)).
  - intros [= <-]. unfold shutdown_step. by destruct (done s && closer s).
  - intros [= <-]. unfold watcher_step. destruct (heap s !! p); [|done].
    by destruct (watching _ && ctx_done _).
Qed.

Lemma exec_params tr s s' : exec tr s = Some s' → params s' = params s.
Proof.
  revert s. induction tr as [|a tr IH]; simpl; intros s; [by intros [= <-]|].
  destruct (step a s) as [s1|] eqn:E; [|done].
  intros Hex. rewrite (IH _ Hex). by eapply step_params.
Qed.

(** [Close] after the [sync.Once] has fired changes nothing. *)
Lemma Close_again s : closeOnce s = true → Close s = Some s.
Proof. unfold Close. by intros ->. Qed.

(** The guard of [closeOnce] keeps [close(f.done)] from panicking. *)
Lemma Close_wf s : wf s → ∃ s', Close s = Some s' ∧ done s' = true ∧ closeOnce s' = true.
Proof.
  intros Hwf. pose proof (wf_once s Hwf) as Honce.
  unfold Close, close_done. destruct (closeOnce s) eqn:Eo.
  - exists s. by rewrite <-Honce.
  - simpl. rewrite <-Honce. eexists. split; [done|].
    by destruct (0 <? ch_recvq (input s)).
Qed.

Lemma step_wf_total a s : wf s → is_Some (step a s).
Proof.
  intros Hwf. destruct a; simpl; try done.
  destruct (Close_wf s Hwf) as (s' & -> & _). done.
Qed.

Lemma exec_wf_total tr s : wf s → is_Some (exec tr s).
Proof.
  revert s. induction tr as [|a tr IH]; simpl; intros s Hwf; [done|].
  destruct (step_wf_total a s Hwf) as [s1 E]. rewrite E.
  apply IH. by eapply wf_step.
Qed.

Lemma exec_app tr1 tr2 s :
  exec (tr1 ++ tr2) s = match exec tr1 s with Some s1 => exec tr2 s1 | None => None end.
Proof.
  revert s. induction tr1 as [|a tr1 IH]; simpl; intros s; [done|].
  destruct (step a s); [apply IH|done].
Qed.

Lemma reachable_exec kind icap ccap tr s s' :
  reachable kind icap ccap s → exec tr s = Some s' → reachable kind icap ccap s'.
Proof.
  intros [tr0 H0] Htr. exists (tr0 ++ tr). by rewrite exec_app, H0.
Qed.

End Frame.

(** * Write, Close and CreateConsumer *)

Section WriteClose.
Context {T : Type} {sorter : Sorter} {contract : SorterContract sorter}.
Implicit Types (s : State (T:=T)) (c : Consumer (T:=T)) (p q : ptr).

(** [Write] once [done] is closed: with no room on [input] only the [done]
    case is ready; with room both cases are ready and the runtime's choice
    decides between accepting the item and [ErrProducerClosed]. *)
Lemma Write_closed (item : T) rnd s :
  done s = true →
  Write item rnd s =
    if can_send (input s) && (rnd `mod` 2 =? 0)
    then (None, send_input item s)
    else (Some ErrProducerClosed, s).
Proof.
  intros Hd. unfold Write. rewrite Hd.
  destruct (can_send (input s)).
  - rewrite go_select_both. cbn [andb]. by destruct (rnd `mod` 2 =? 0).
  - by rewrite go_select_second.
Qed.

(** C4, as the code has it: while [done] is open, [Write] returns
    [ErrBufferFull] exactly when [input] has no free capacity and the
    dispatch goroutine is not parked on it; in every other case the item is
    accepted (appended to what [input] has been sent) and [nil] is returned.
    With a positive capacity a parked dispatcher implies an empty buffer, so
    there [ErrBufferFull] is returned exactly when there is no free
    capacity. *)
Theorem Write_open kind icap ccap s (item : T) rnd :
  reachable kind icap ccap s →
  done s = false →
  (fst (Write item rnd s) = Some ErrBufferFull
     ↔ ch_recvq (input s) = 0 ∧ ch_cap (input s) ≤ length (ch_buf (input s)))
  ∧ (fst (Write item rnd s) ≠ Some ErrBufferFull →
       Write item rnd s = (None, send_input item s)
       ∧ ch_sent (input (send_input item s)) = ch_sent (input s) ++ [item])
  ∧ ch_cap (input s) = icap
  ∧ (0 < icap →
       (fst (Write item rnd s) = Some ErrBufferFull
          ↔ icap ≤ length (ch_buf (input s)))).
Proof.
  intros Hreach Hd. pose proof (wf_reachable _ _ _ _ Hreach) as Hwf.
  assert (Hcap : ch_cap (input s) = icap).
  { destruct Hreach as [tr Htr]. apply exec_params in Htr. by injection Htr. }
  assert (Hw : Write item rnd s =
               if can_send (input s) then (None, send_input item s)
               else (Some ErrBufferFull, s)).
  { unfold Write. rewrite Hd. destruct (can_send (input s)).
    - by rewrite go_select_first.
    - by rewrite go_select_none. }
  assert (Hfull : fst (Write item rnd s) = Some ErrBufferFull
                  ↔ can_send (input s) = false).
  { rewrite Hw. by destruct (can_send (input s)). }
  split; [by rewrite Hfull, can_send_false|].
  split; [|split; [done|]].
  - intros Hne. rewrite Hw in *. destruct (can_send (input s)) eqn:E; [|done].
    split; [done|]. unfold send_input.
    destruct (0 <? ch_recvq (input s)); simpl; apply chansend_sent, Hwf.
  - intros Hpos. rewrite Hfull, can_send_buffered; [|apply Hwf|lia].
    rewrite Nat.ltb_ge. by rewrite Hcap.
Qed.

(** C5: [Close] is idempotent and cannot panic.  In any state of any
    execution it succeeds and leaves [done] closed; on a Producer already
    closed it changes nothing; and whatever runs afterwards, in any
    interleaving, never panics, never reopens [done], and ends in the same
    state with or without further calls of [Close]. *)
Theorem Close_idempotent kind icap ccap s :
  reachable kind icap ccap s →
  ∃ s1, Close s = Some s1
      ∧ Close s1 = Some s1
      ∧ done s1 = true
      ∧ (done s = true → s1 = s)
      ∧ (∀ tr, ∃ s2, exec tr s1 = Some s2 ∧ done s2 = true)
      ∧ (∀ tr1 tr2, exec (tr1 ++ AClose :: tr2) s1 = exec (tr1 ++ tr2) s1).
Proof.
  intros Hreach. pose proof (wf_reachable _ _ _ _ Hreach) as Hwf.
  destruct (Close_wf s Hwf) as (s1 & Hc & Hd1 & Ho1).
  assert (Hwf1 : wf s1) by by eapply wf_Close.
  exists s1. split; [done|]. split; [by apply Close_again|]. split; [done|].
  split; [|split].
  - intros Hd. rewrite <-(wf_once s Hwf) in Hd.
    rewrite (Close_again s Hd) in Hc. by injection Hc.
  - intros tr. destruct (exec_wf_total tr s1 Hwf1) as [s2 E].
    exists s2. split; [done|]. by eapply exec_done.
  - intros tr1 tr2. rewrite !exec_app.
    destruct (exec tr1 s1) as [s2|] eqn:E; [|done]. simpl.
    rewrite Close_again; [done|].
    rewrite (wf_once s2) by by eapply wf_exec. by eapply exec_done.
Qed.

(** C8, as the code has it: [CreateConsumer] does not look at [done].  In
    every state, closed or not, it allocates the Consumer at a new address,
    appends that address to the registry and leaves [done] as it was. *)
Theorem CreateConsumer_registers id parent_done now s :
  let result := fst (CreateConsumer id parent_done now s) in
  let s' := snd (CreateConsumer id parent_done now s) in
  consumers s' = consumers s ++ [result]
  ∧ length (consumers s') = S (length (consumers s))
  ∧ heap s' !! result
    = Some (start_watcher (newConsumer id parent_done now (consumer_buffer_size s)))
  ∧ done s' = done s.
Proof.
  simpl. split; [done|]. split; [|split; [|done]].
  - rewrite length_app. simpl. lia.
  - rewrite lookup_app_r by done. by rewrite Nat.sub_diag.
Qed.

End WriteClose.

(** C1 (the code departs from the claim): after [Close], with room on
    [input], the [select] of [Write] has two ready cases; when the runtime
    picks the send, the item is enqueued and [nil] is returned. *)
Example Write_after_Close_accepts :
  ∃ s s', Close (NewProducer (T:=nat) ProducerKind_All 1 1) = Some s
        ∧ done s = true
        ∧ Write 7 0 s = (None, s')
        ∧ ch_buf (input s') = [7].
Proof. by repeat eexists. Qed.

(** C4 fails on an unbuffered [input]: the queue never has free capacity,
    yet with the dispatch goroutine parked on it [Write] hands the item
    over and returns [nil]. *)
Example Write_unbuffered_accepts :
  ∃ s, exec [ALoop 0 (steady 0)] (NewProducer (T:=nat) ProducerKind_All 0 1) = Some s
     ∧ done s = false
     ∧ ch_cap (input s) ≤ length (ch_buf (input s))
     ∧ fst (Write 7 0 s) = None
     ∧ pc (snd (Write 7 0 s)) = Holding 7.
Proof. by repeat eexists. Qed.

(** C8 fails after [Close]: the call still registers a Consumer. *)
Example CreateConsumer_after_Close :
  ∃ s, Close (NewProducer (T:=nat) ProducerKind_All 1 1) = Some s
     ∧ done s = true
     ∧ consumers s = []
     ∧ consumers (snd (CreateConsumer "c" false 5 s)) = [0].
Proof. by repeat eexists. Qed.

(** * Delivery *)

Lemma StronglySorted_lookup_lt {A : Type} (R : A → A → Prop) (l : list A) i j a b :
  StronglySorted R l → l !! i = Some a → l !! j = Some b → i < j → R a b.
Proof.
  intros Hs. revert i j. induction Hs as [|x l Hs IH Hx]; intros i j Hi Hj Hlt.
  - by rewrite lookup_nil in Hi.
  - destruct j as [|j]; [lia|]. simpl in Hj. destruct i as [|i]; simpl in Hi.
    + injection Hi as ->. rewrite Forall_forall in Hx. apply Hx.
      by eapply list_elem_of_lookup_2.
    + apply (IH i j); [done|done|lia].
Qed.

Section Delivery.
Context {T : Type} {sorter : Sorter} {contract : SorterContract sorter}.
Implicit Types (s : State (T:=T)) (c : Consumer (T:=T)) (h : list (Consumer (T:=T))).
Implicit Types (p q : ptr) (item : T).

Lemma offer_lookup item now h p q :
  offer item now h p !! q
  = if decide (q = p) then try_push item now <$> h !! q else h !! q.
Proof.
  unfold offer, try_push. destruct (decide (q = p)) as [->|Hne].
  - destruct (h !! p) as [c|] eqn:Hp; simpl; [|by rewrite Hp].
    destruct (can_send (Messages c)); [|done].
    apply list_lookup_insert_eq. by eapply lookup_lt_Some.
  - destruct (h !! p) as [c|]; [|done].
    destruct (can_send (Messages c)); [|done]. by apply list_lookup_insert_ne.
Qed.

Lemma offer_length item now h p : length (offer item now h p) = length h.
Proof. apply (offer_evolves item now h p). Qed.

(** [goroutine_Producer_all] offers the item once to every entry of a
    registry without repetitions, with the clock reading of that entry's
    iteration. *)
Lemma range_offer_lookup_out item now i (l : list ptr) h q :
  q ∉ l → range_offer item now i l h !! q = h !! q.
Proof.
  revert i h. induction l as [|p l IH]; intros i h Hq; simpl; [done|].
  apply not_elem_of_cons in Hq as [Hne Hq].
  rewrite IH by done. rewrite offer_lookup. by rewrite decide_False.
Qed.

Lemma range_offer_lookup_in item now i (l : list ptr) h k p :
  NoDup l → l !! k = Some p →
  range_offer item now i l h !! p = try_push item (now (i + k)) <$> h !! p.
Proof.
  intros Hnd. revert i h k.
  induction Hnd as [|p' l Hp' Hnd IH]; intros i h k Hk; [by rewrite lookup_nil in Hk|].
  destruct k as [|k]; simpl in Hk |- *.
  - injection Hk as ->. rewrite range_offer_lookup_out by done.
    rewrite offer_lookup, decide_True by done. by rewrite Nat.add_0_r.
  - rewrite (IH _ _ k) by done. rewrite offer_lookup, decide_False.
    + by rewrite Nat.add_succ_r.
    + intros ->. apply Hp'. by eapply list_elem_of_lookup_2.
Qed.

Lemma range_offer_length item now i (l : list ptr) h :
  length (range_offer item now i l h) = length h.
Proof. apply (range_offer_evolves item now i l h). Qed.

(** What delivery does to each allocated Consumer.  The clock reading that
    stamps a Consumer pushed to is the one of its iteration in
    [goroutine_Producer_all], and the one reading of the other two loops. *)
Lemma deliver_cases s g item rnd now q c :
  wf s → heap s !! q = Some c →
  heap (deliver g item rnd now s) !! q = Some c
  ∨ (q ∈ consumers s
     ∧ can_send (Messages c) = true
     ∧ ∃ i, match g with
            | goroutine_Producer_all => consumers s !! i = Some q
            | _ => i = 0
            end
            ∧ heap (deliver g item rnd now s) !! q = Some (pushed c item (now i))).
Proof.
  intros Hwf.
  assert (Hone : ∀ p, p ∈ consumers s → heap s !! q = Some c →
            offer item (now 0) (heap s) p !! q = Some c
            ∨ (q ∈ consumers s ∧ can_send (Messages c) = true
               ∧ ∃ i, i = 0
                      ∧ offer item (now 0) (heap s) p !! q = Some (pushed c item (now i)))).
  { intros p Hp Hq. rewrite offer_lookup, Hq.
    destruct (decide (q = p)) as [->|Hne]; [|by left]. simpl. unfold try_push.
    destruct (can_send (Messages c)) eqn:E; [|by left].
    right. split; [done|]. split; [done|]. by exists 0. }
  intros Hq. destruct g; simpl.
  - unfold deliver_single. destruct (0 <? length (consumers s)); [|by left].
    destruct (consumers s !! _) as [selected|] eqn:E; [|by left]. simpl.
    apply Hone; [|done]. by eapply list_elem_of_lookup_2.
  - unfold deliver_lru. destruct (0 <? length (consumers s)); [|by left].
    destruct (sort_by (Less (heap s)) (consumers s) !! 0) as [lru|] eqn:E;
      [|by left]. simpl.
    apply Hone; [|done]. rewrite <-(sort_by_perm _ (Less (heap s))).
    by eapply list_elem_of_lookup_2.
  - unfold deliver_all. simpl.
    destruct (decide (q ∈ consumers s)) as [Hin|Hout];
      [|left; by rewrite range_offer_lookup_out].
    pose proof Hin as Hin'. apply list_elem_of_lookup_1 in Hin' as [i Hi].
    rewrite (range_offer_lookup_in _ _ _ _ _ i) by (done || apply Hwf).
    rewrite Hq. simpl. unfold try_push.
    destruct (can_send (Messages c)) eqn:E; [|by left].
    right. split; [done|]. split; [done|]. by exists i.
Qed.

(** C6: strategy selection and delivery keep the registry's entries (LRU
    reorders them, nothing is added or removed) and the other fields of the
    Producer.  Of a Consumer only the queue pushed to and [lastUsed] change:
    a registered Consumer whose queue accepted the item has the item sent
    and [lastUsed] set to the reading of [time.Now()] taken right after its
    push (under All each Consumer pushed to has a reading of its own, the
    one of its iteration of the loop over the registry); every other
    Consumer, and every Consumer whose queue was full, is exactly as
    before. *)
Theorem deliver_frame kind icap ccap s g item rnd now :
  reachable kind icap ccap s →
  let s' := deliver g item rnd now s in
  consumers s' ≡ₚ consumers s
  ∧ length (heap s') = length (heap s)
  ∧ (input s', done s', closeOnce s', pc s', closer s')
    = (input s, done s, closeOnce s, pc s, closer s)
  ∧ ∀ q c, heap s !! q = Some c →
      heap s' !! q = Some c
      ∨ (q ∈ consumers s
         ∧ can_send (Messages c) = true
         ∧ ∃ i, match g with
                | goroutine_Producer_all => consumers s !! i = Some q
                | _ => i = 0
                end
                ∧ heap s' !! q
                  = Some (mkConsumer (c_id c) (chansend (Messages c) item) (now i)
                                     (ctx_done c) (c_closeOnce c) (watching c))).
Proof.
  intros Hreach. pose proof (wf_reachable _ _ _ _ Hreach) as Hwf. simpl.
  destruct (deliver_shape g item rnd now s) as (l & h & Heq & Hl & Hlen & _).
  split; [by rewrite Heq|]. split; [by rewrite Heq|]. split; [by rewrite Heq|].
  intros q c Hq. by apply deliver_cases.
Qed.

(** On a non-empty registry [goroutine_Producer_lru] sorts the registry and
    offers the item to its head. *)
Lemma deliver_lru_head s item now :
  consumers s ≠ [] →
  ∃ lru,
    sort_by (Less (heap s)) (consumers s) !! 0 = Some lru
    ∧ deliver_lru item now s
      = upd_heap (upd_consumers s (sort_by (Less (heap s)) (consumers s)))
                 (offer item now (heap s) lru).
Proof.
  intros Hne. pose proof (sort_by_perm _ (Less (heap s)) (consumers s)) as Hperm.
  unfold deliver_lru.
  destruct (sort_by (Less (heap s)) (consumers s)) as [|lru rest] eqn:E.
  { apply Permutation_nil in Hperm. done. }
  exists lru. split; [done|]. by destruct (consumers s).
Qed.

(** C2, as far as it holds: on a non-empty registry
    [goroutine_Producer_lru] picks exactly one target, the head of the
    registry as [sort.Sort] leaves it.  It is a registered Consumer, no
    registered Consumer has an earlier [lastUsed], and it is the only
    Consumer the item is offered to.  Which of several Consumers sharing
    the earliest [lastUsed] is picked is up to [sort.Sort], whatever
    routine meeting its contract it runs: the same entries in the same
    order with the same timestamps always yield the same pick.  That the
    pick is the first of them in the registry is not part of it. *)
Theorem lru_selects_least s item now :
  consumers s ≠ [] →
  ∃ lru,
    sort_by (Less (heap s)) (consumers s) !! 0 = Some lru
    ∧ lru ∈ consumers s
    ∧ (∀ q, q ∈ consumers s → lastUsed_at (heap s) lru ≤ lastUsed_at (heap s) q)
    ∧ deliver_lru item now s
      = upd_heap (upd_consumers s (sort_by (Less (heap s)) (consumers s)))
                 (offer item now (heap s) lru)
    ∧ (∀ q, q ≠ lru → heap (deliver_lru item now s) !! q = heap s !! q)
    ∧ (∀ s2, consumers s2 = consumers s →
         (∀ q, q ∈ consumers s → lastUsed_at (heap s2) q = lastUsed_at (heap s) q) →
         sort_by (Less (heap s2)) (consumers s2) !! 0 = Some lru).
Proof.
  intros Hne.
  pose proof (sort_by_perm _ (Less (heap s)) (consumers s)) as Hperm.
  pose proof (sort_by_sorted _ (lastUsed_at (heap s)) (consumers s)) as Hsorted.
  change (λ a b, lastUsed_at (heap s) a <? lastUsed_at (heap s) b)
    with (Less (heap s)) in Hsorted.
  destruct (deliver_lru_head s item now Hne) as (lru & Hhd & Hdl).
  exists lru. split; [done|].
  destruct (sort_by (Less (heap s)) (consumers s)) as [|lru' rest] eqn:E; [done|].
  injection Hhd as ->.
  split; [by rewrite <-Hperm; left|]. split; [|split; [done|split]].
  - intros q Hq. rewrite <-Hperm in Hq. apply StronglySorted_cons in Hsorted as [Hl _].
    apply elem_of_cons in Hq as [->|Hq]; [done|].
    rewrite Forall_forall in Hl. by apply Hl.
  - intros q Hq. rewrite Hdl. simpl. rewrite offer_lookup. by rewrite decide_False.
  - intros s2 Hc Hts. rewrite Hc.
    rewrite (sort_by_ext _ (Less (heap s2)) (Less (heap s))); [by rewrite E|].
    intros a b Ha Hb. unfold Less. by rewrite !Hts.
Qed.

End Delivery.

(** * A fresh Consumer under LRU *)

Section Fresh.
Context {T : Type} {sorter : Sorter} {contract : SorterContract sorter}.
Implicit Types (s : State (T:=T)) (c : Consumer (T:=T)) (p q : ptr) (item : T).

(** C10: [newConsumer] stamps [lastUsed] with the creation time.  In the
    registry as [goroutine_Producer_lru] sorts it for the next item, the
    new Consumer stands after every Consumer whose [lastUsed] is older;
    when there is such a Consumer the new one is not the pick and is left
    untouched by that delivery. *)
Theorem fresh_consumer_sorts_after kind icap ccap s id parent_done now item now' :
  reachable kind icap ccap s →
  let p := fst (CreateConsumer id parent_done now s) in
  let s1 := snd (CreateConsumer id parent_done now s) in
  let sorted := sort_by (Less (heap s1)) (consumers s1) in
  lastUsed <$> heap s1 !! p = Some now
  ∧ consumers (deliver_lru item now' s1) = sorted
  ∧ ∀ q, q ∈ consumers s → lastUsed_at (heap s) q < now →
      (∃ i j, sorted !! i = Some q ∧ sorted !! j = Some p ∧ i < j)
      ∧ sorted !! 0 ≠ Some p
      ∧ heap (deliver_lru item now' s1) !! p = heap s1 !! p.
Proof.
  intros Hreach p s1 sorted. pose proof (wf_reachable _ _ _ _ Hreach) as Hwf.
  assert (Hp : heap s1 !! p
               = Some (start_watcher (newConsumer id parent_done now (consumer_buffer_size s)))).
  { subst p s1. simpl. rewrite lookup_app_r by done. by rewrite Nat.sub_diag. }
  assert (Hne : consumers s1 ≠ []).
  { subst s1. simpl. by destruct (consumers s). }
  destruct (deliver_lru_head s1 item now' Hne) as (lru & Hhd & Hdl).
  fold sorted in Hhd, Hdl.
  assert (Hother : ∀ q, q ≠ lru → heap (deliver_lru item now' s1) !! q = heap s1 !! q).
  { intros q Hq. rewrite Hdl. simpl. rewrite offer_lookup. by rewrite decide_False. }
  split; [by rewrite Hp|]. split; [by rewrite Hdl|].
  intros q Hq Hold.
  assert (Hqlt : q < length (heap s)) by by apply (wf_reg s Hwf).
  assert (Hqp : q ≠ p) by (subst p; simpl; lia).
  assert (Hkq : lastUsed_at (heap s1) q = lastUsed_at (heap s) q).
  { unfold lastUsed_at. subst s1. simpl. by rewrite lookup_app_l. }
  assert (Hkp : lastUsed_at (heap s1) p = now).
  { unfold lastUsed_at. by rewrite Hp. }
  pose proof (sort_by_sorted _ (lastUsed_at (heap s1)) (consumers s1)) as Hsorted.
  change (λ a b, lastUsed_at (heap s1) a <? lastUsed_at (heap s1) b)
    with (Less (heap s1)) in Hsorted. fold sorted in Hsorted.
  assert (Hqs : q ∈ sorted).
  { subst sorted. rewrite sort_by_perm. subst s1. simpl. apply elem_of_app. by left. }
  assert (Hps : p ∈ sorted).
  { subst sorted. rewrite sort_by_perm. subst s1 p. simpl.
    apply elem_of_app. right. by left. }
  apply list_elem_of_lookup_1 in Hqs as [i Hi].
  apply list_elem_of_lookup_1 in Hps as [j Hj].
  assert (Hbefore : ∀ j', sorted !! j' = Some p → i < j').
  { intros j' Hj'. destruct (decide (i < j')) as [|Hge]; [done|].
    destruct (decide (i = j')) as [->|Hij]; [congruence|].
    assert (Hlt : j' < i) by lia.
    pose proof (StronglySorted_lookup_lt _ _ _ _ _ _ Hsorted Hj' Hi Hlt) as Hle.
    cbv beta in Hle. rewrite Hkp, Hkq in Hle. unfold Timestamp in *. lia. }
  split; [|split].
  - exists i, j. split; [done|]. split; [done|]. by apply Hbefore.
  - intros H0. apply Hbefore in H0. lia.
  - apply Hother. intros <-. apply Hbefore in Hhd. lia.
Qed.

End Fresh.

(** * Deregistration *)

Section Deregistration.
Context {T : Type} {sorter : Sorter} {contract : SorterContract sorter}.
Implicit Types (s : State (T:=T)) (c : Consumer (T:=T)) (p q : ptr) (item : T).

Lemma heap_le_ages (h h' : list Consumer) q c :
  heap_le evolves h h' → h !! q = Some c → ∃ c', h' !! q = Some c' ∧ ages c c'.
Proof.
  intros [_ Hle] Hq. destruct (Hle q c Hq) as (c' & Hq' & _ & Hw & _ & _ & Hd & _).
  exists c'. split; [done|]. split; [by rewrite Hw|done].
Qed.

Lemma read_step_shape p s :
  ∃ h, read_step p s = upd_heap s h ∧ heap_le evolves (heap s) h.
Proof.
  unfold read_step. destruct (heap s !! p) as [c|] eqn:Hp.
  - destruct (chanrecv (Messages c)) as [[x ch]|] eqn:Er; eexists; (split; [done|]);
      (eapply heap_le_insert; [apply evolves_refl|done|]); repeat split; simpl; try done.
    + by eapply chanrecv_cap.
    + intros Hok. by eapply chanrecv_ok.
    + intros _. by apply chanpark_ok, chanrecv_None.
  - exists (heap s). split; [by destruct s|]. apply heap_le_refl, evolves_refl.
Qed.

Lemma step_ages a s s' q c :
  step a s = Some s' → heap s !! q = Some c →
  ∃ c', heap s' !! q = Some c' ∧ ages c c'.
Proof.
  assert (Hsame : heap s !! q = Some c → ∃ c', heap s !! q = Some c' ∧ ages c c').
  { intros Hq. by exists c. }
  destruct a; simpl.
  - intros [= <-]. unfold Write. destruct (go_select _ rnd) as [[]|]; simpl; try done.
    by rewrite (proj2 (proj2 (proj2 (proj2 (send_input_fields item s))))).
  - intros [= <-] Hq. exists c. simpl. split; [|done]. by apply lookup_app_l_Some.
  - unfold Close, close_done. destruct (closeOnce s); [by intros [= <-]|]. simpl.
    destruct (done s); [done|]. intros [= <-].
    by destruct (0 <? ch_recvq (input s)).
  - intros [= <-]. simpl. apply heap_le_ages, Consumer_Close_evolves.
  - intros [= <-]. simpl. apply heap_le_ages, ctx_cancel_evolves.
  - intros [= <-]. destruct (read_step_shape p s) as (h & -> & Hle).
    simpl. by apply heap_le_ages.
  - intros [= <-]. unfold loop_step. destruct (dispatcher s) as [g|]; [|done].
    destruct (pc s) as [|item|]; [| |done].
    + destruct (0 <? ch_recvq (input s)); [done|].
      destruct (go_select _ rnd) as [[]|]; try done.
      by destruct (chanrecv (input s)) as [[]|].
    + destruct (deliver_shape g item rnd now (upd_pc s AtSelect)) as (l & h & -> & _ & Hle).
      simpl. by apply heap_le_ages.
  - intros [= <-]. unfold shutdown_step. destruct (done s && closer s); [|done].
    simpl. apply heap_le_ages.
    apply heap_le_fold; [apply evolves_refl|apply evolves_trans|].
    apply Consumer_Close_evolves.
  - intros [= <-]. unfold watcher_step. destruct (heap s !! p) as [d|] eqn:Hp; [|done].
    destruct (watching d && ctx_done d); [|done]. simpl. intros Hq.
    destruct (decide (q = p)) as [->|Hne].
    + exists (stop_watcher d). rewrite list_lookup_insert_eq by (by eapply lookup_lt_Some).
      split; [done|]. assert (d = c) as -> by congruence. by split.
    + exists c. by rewrite list_lookup_insert_ne.
Qed.

Lemma exec_ages tr s s' q c :
  exec tr s = Some s' → heap s !! q = Some c →
  ∃ c', heap s' !! q = Some c' ∧ ages c c'.
Proof.
  revert s c. induction tr as [|a tr IH]; simpl; intros s c.
  - intros [= <-] Hq. by exists c.
  - destruct (step a s) as [s1|] eqn:E; [|done]. intros Hex Hq.
    destruct (step_ages _ _ _ _ _ E Hq) as (c1 & Hq1 & Hw1 & Hd1).
    destruct (IH _ _ Hex Hq1) as (c' & Hq' & Hw' & Hd').
    exists c'. split; [done|]. split; auto.
Qed.

(** C7: removing a Consumer that is not in the registry changes nothing.
    For a Consumer of any state of any execution: while its context is not
    cancelled, or once its watcher has run, the watcher's step changes
    nothing (and in the latter case the Consumer is not registered); when
    its context is cancelled and the watcher has not run, the step removes
    exactly that Consumer, so that the registry is one shorter, and from
    then on, whatever else runs (further cancellations by [Close] or by the
    caller included), the Consumer stays out and the watcher's step stays
    without effect. *)
Theorem removal_exactly_once kind icap ccap s p c :
  reachable kind icap ccap s →
  heap s !! p = Some c →
  (∀ l, p ∉ l → removeConsumer p l = l)
  ∧ (ctx_done c = false → watcher_step p s = s)
  ∧ (watching c = false → watcher_step p s = s ∧ p ∉ consumers s)
  ∧ (watching c = true → ctx_done c = true →
       let s' := watcher_step p s in
       S (length (consumers s')) = length (consumers s)
       ∧ (∀ q, q ∈ consumers s' ↔ q ∈ consumers s ∧ q ≠ p)
       ∧ ∀ tr s'', exec tr s' = Some s'' →
           (p ∉ consumers s'') ∧ watcher_step p s'' = s'').
Proof.
  intros Hreach Hp. pose proof (wf_reachable _ _ _ _ Hreach) as Hwf.
  assert (Hoff : ∀ s0 c0, wf s0 → heap s0 !! p = Some c0 → watching c0 = false →
                 watcher_step p s0 = s0 ∧ p ∉ consumers s0).
  { intros s0 c0 Hwf0 Hp0 Hw. split.
    - unfold watcher_step. by rewrite Hp0, Hw.
    - intros Hin. apply (wf_watch s0 Hwf0 p c0 Hp0) in Hin. congruence. }
  split; [apply removeConsumer_absent|]. split; [|split].
  - intros Hd. unfold watcher_step. rewrite Hp, Hd. by rewrite andb_false_r.
  - by apply Hoff.
  - intros Hw Hd s'.
    assert (Hs' : s' = upd_consumers (upd_heap s (<[p := stop_watcher c]> (heap s)))
                                     (removeConsumer p (consumers s))).
    { subst s'. unfold watcher_step. by rewrite Hp, Hw, Hd. }
    assert (Hin : p ∈ consumers s) by by apply (wf_watch s Hwf p c Hp).
    split; [|split].
    + rewrite Hs'. simpl. by apply removeConsumer_length.
    + intros q. rewrite Hs'. simpl. apply removeConsumer_elem_of, Hwf.
    + intros tr s'' Hex.
      assert (Hwf' : wf s') by (subst s'; by apply wf_watcher_step).
      assert (Hp' : heap s' !! p = Some (stop_watcher c)).
      { rewrite Hs'. simpl. apply list_lookup_insert_eq. by eapply lookup_lt_Some. }
      destruct (exec_ages _ _ _ _ _ Hex Hp') as (c'' & Hp'' & Hw'' & _).
      assert (watching c'' = false) by (by destruct (watching c''); [discriminate Hw''|]).
      assert (wf s'') by by eapply wf_exec.
      destruct (Hoff s'' c''); done.
Qed.

End Deregistration.

(** * A Producer of an unknown kind *)

Section NoLoop.
Context {T : Type} {sorter : Sorter} {contract : SorterContract sorter}.
Implicit Types (s : State (T:=T)) (c : Consumer (T:=T)) (h : list (Consumer (T:=T))).
Implicit Types (p q : ptr) (item : T).

Lemma heap_le_back (R : Consumer (T:=T) → Consumer (T:=T) → Prop) h h' q c' :
  heap_le R h h' → h' !! q = Some c' → ∃ c, h !! q = Some c ∧ R c c'.
Proof.
  intros [Hlen Hle] Hq. destruct (h !! q) as [c|] eqn:E.
  - exists c. split; [done|]. destruct (Hle q c E) as (c2 & Hq2 & HR). congruence.
  - apply lookup_ge_None in E. apply lookup_lt_Some in Hq. lia.
Qed.

Lemma Consumer_Close_queue h p : heap_le same_queue h (Consumer_Close h p).
Proof.
  unfold Consumer_Close. destruct (h !! p) as [c|] eqn:Hp; [|by apply heap_le_refl].
  destruct (c_closeOnce c); [by apply heap_le_refl|].
  by eapply heap_le_insert.
Qed.

Lemma ctx_cancel_queue h p : heap_le same_queue h (ctx_cancel h p).
Proof.
  unfold ctx_cancel. destruct (h !! p) as [c|] eqn:Hp; [|by apply heap_le_refl].
  by eapply heap_le_insert.
Qed.

Lemma shutdown_queue (l : list ptr) h : heap_le same_queue h (fold_left Consumer_Close l h).
Proof.
  apply heap_le_fold; [done| |apply Consumer_Close_queue].
  unfold same_queue. congruence.
Qed.

Lemma silent_queue s h :
  silent s → heap_le same_queue (heap s) h → silent (upd_heap s h).
Proof.
  intros (Hd & Hpc & Hq & Hr & Hh) Hle. repeat split; try done.
  simpl. intros p c' Hp. destruct (heap_le_back _ _ _ _ _ Hle Hp) as (c & Hc & Heq).
  unfold same_queue in Heq. rewrite Heq. by eapply Hh.
Qed.

Lemma silent_step a s s' : silent s → step a s = Some s' → silent s'.
Proof.
  intros Hs. pose proof Hs as (Hd & Hpc & Hq & Hr & Hh). destruct a; simpl.
  - intros [= <-]. unfold Write. destruct (go_select _ rnd) as [[]|]; simpl; try done.
    unfold send_input, chansend. rewrite Hq. simpl. by repeat split.
  - intros [= <-]. repeat split; try done. simpl. intros p c Hp.
    apply lookup_app_Some in Hp as [Hp|[_ Hp]]; [by eapply Hh|].
    by apply list_lookup_singleton_Some in Hp as [_ <-].
  - unfold Close, close_done. destruct (closeOnce s); [by intros [= <-]|]. simpl.
    destruct (done s); [done|]. intros [= <-]. rewrite Hq. simpl. by repeat split.
  - intros [= <-]. apply silent_queue; [done|apply Consumer_Close_queue].
  - intros [= <-]. apply silent_queue; [done|apply ctx_cancel_queue].
  - intros [= <-]. unfold read_step. destruct (heap s !! p) as [c|] eqn:Hp; [|done].
    pose proof (Hh p c Hp) as Hempty. unfold ch_sent in Hempty.
    apply app_eq_nil in Hempty as [Hrd Hbuf].
    unfold chanrecv. rewrite Hbuf. repeat split; try done. simpl. intros q d Hq'.
    destruct (decide (q = p)) as [->|Hne].
    + rewrite list_lookup_insert_eq in Hq' by (by eapply lookup_lt_Some).
      injection Hq' as <-. unfold ch_sent. simpl. by rewrite Hrd, Hbuf.
    + rewrite list_lookup_insert_ne in Hq' by done. by eapply Hh.
  - intros [= <-]. unfold loop_step. by rewrite Hd.
  - intros [= <-]. unfold shutdown_step. destruct (done s && closer s); [|done].
    assert (silent (upd_heap s (fold_left Consumer_Close (consumers s) (heap s))))
      as (?&?&?&?&?) by (apply silent_queue; [done|apply shutdown_queue]).
    by repeat split.
  - intros [= <-]. unfold watcher_step. destruct (heap s !! p) as [c|] eqn:Hp; [|done].
    destruct (watching c && ctx_done c); [|done].
    repeat split; try done. simpl. intros q d Hq'.
    destruct (decide (q = p)) as [->|Hne].
    + rewrite list_lookup_insert_eq in Hq' by (by eapply lookup_lt_Some).
      injection Hq' as <-. simpl. by eapply Hh.
    + rewrite list_lookup_insert_ne in Hq' by done. by eapply Hh.
Qed.

Lemma silent_exec tr s s' : silent s → exec tr s = Some s' → silent s'.
Proof.
  revert s. induction tr as [|a tr IH]; simpl; intros s Hs; [by intros [= <-]|].
  destruct (step a s) as [s1|] eqn:E; [|done]. apply IH. by eapply silent_step.
Qed.

(** C9: for a kind that is none of the three constants [NewProducer] starts
    no dispatch goroutine.  In every state of every execution from there,
    nothing has been taken from [input] and no Consumer has been sent
    anything; and a [Write] made while [done] is open and [input] has free
    capacity returns [nil] with the item appended to the buffer. *)
Theorem unknown_kind_never_delivers kind icap ccap :
  kind ≠ ProducerKind_Single → kind ≠ ProducerKind_LRU → kind ≠ ProducerKind_All →
  dispatcher (NewProducer (T:=T) kind icap ccap) = None
  ∧ ∀ tr s, exec tr (NewProducer kind icap ccap) = Some s →
      ch_recvd (input s) = []
      ∧ (∀ p c, heap s !! p = Some c → ch_sent (Messages c) = [])
      ∧ (∀ a s', step a s = Some s' → ch_recvd (input s') = [])
      ∧ ∀ item rnd,
          done s = false → length (ch_buf (input s)) < icap →
          fst (Write item rnd s) = None
          ∧ ch_buf (input (snd (Write item rnd s))) = ch_buf (input s) ++ [item].
Proof.
  intros H0 H1 H2.
  assert (Hnone : dispatcher (NewProducer (T:=T) kind icap ccap) = None).
  { unfold NewProducer. simpl.
    destruct (Z.eqb_spec kind ProducerKind_Single) as [|_]; [done|].
    destruct (Z.eqb_spec kind ProducerKind_LRU) as [|_]; [done|].
    by destruct (Z.eqb_spec kind ProducerKind_All) as [|_]. }
  split; [done|]. intros tr s Hex.
  assert (Hs : silent s).
  { eapply silent_exec; [|done]. by repeat split. }
  pose proof Hs as (Hd & Hpc & Hq & Hr & Hh).
  split; [done|]. split; [done|]. split.
  - intros a s' Hstep. by apply (silent_step a s s').
  - intros item rnd Hopen Hroom.
    assert (Hcap : ch_cap (input s) = icap).
    { apply exec_params in Hex. by injection Hex. }
    unfold Write. rewrite Hopen.
    assert (can_send (input s) = true) as ->.
    { unfold can_send. apply orb_true_iff. right. apply Nat.ltb_lt. lia. }
    rewrite go_select_first. simpl. unfold send_input, chansend. by rewrite Hq.
Qed.

End NoLoop.

(** * Where delivered items come from *)

Section Provenance.
Context {T : Type} {sorter : Sorter} {contract : SorterContract sorter}.
Implicit Types (s : State (T:=T)) (c : Consumer (T:=T)) (h : list (Consumer (T:=T))).
Implicit Types (p q : ptr) (item : T).

Lemma sourced_queue s h :
  sourced s → heap_le same_queue (heap s) h → sourced (upd_heap s h).
Proof.
  intros Hs Hle p c' x Hp Hx. simpl in *.
  destruct (heap_le_back _ _ _ _ _ Hle Hp) as (c & Hc & Heq).
  unfold same_queue in Heq. rewrite Heq in Hx. by eapply Hs.
Qed.

Lemma sourced_step a s s' : wf s → sourced s → step a s = Some s' → sourced s'.
Proof.
  intros Hwf Hs. destruct a; simpl.
  - intros [= <-]. unfold Write. destruct (go_select _ rnd) as [[]|]; simpl; try done.
    intros p c x Hp Hx. unfold send_input, chansend in *.
    destruct (0 <? ch_recvq (input s)); simpl in *; [|by eapply Hs].
    apply elem_of_app. left. by eapply Hs.
  - intros [= <-] p c x Hp Hx. simpl in *.
    apply lookup_app_Some in Hp as [Hp|[_ Hp]]; [by eapply Hs|].
    apply list_lookup_singleton_Some in Hp as [_ <-]. simpl in Hx.
    by apply elem_of_nil in Hx.
  - unfold Close, close_done. destruct (closeOnce s); [by intros [= <-]|]. simpl.
    destruct (done s); [done|]. intros [= <-].
    destruct (0 <? ch_recvq (input s)); intros p c x Hp Hx; simpl in *; by eapply Hs.
  - intros [= <-]. apply sourced_queue; [done|apply Consumer_Close_queue].
  - intros [= <-]. apply sourced_queue; [done|apply ctx_cancel_queue].
  - intros [= <-] q d x Hq Hx. unfold read_step in *.
    destruct (heap s !! p) as [c|] eqn:Hp; [|by eapply Hs].
    assert (Hin : input (match chanrecv (Messages c) with
                         | Some (_, ch) => upd_heap s (<[p := with_Messages c ch]> (heap s))
                         | None => upd_heap s (<[p := with_Messages c (chanpark (Messages c))]>
                                                 (heap s))
                         end) = input s) by by destruct (chanrecv _) as [[]|].
    rewrite Hin. clear Hin.
    destruct (decide (q = p)) as [->|Hne].
    + apply (Hs p c x Hp).
      destruct (chanrecv (Messages c)) as [[y ch]|] eqn:Er; simpl in Hq;
        rewrite list_lookup_insert_eq in Hq by (by eapply lookup_lt_Some);
        injection Hq as <-; simpl in Hx; [|done].
      by rewrite <-(chanrecv_sent _ _ _ Er).
    + apply (Hs q d x); [|done].
      destruct (chanrecv (Messages c)) as [[y ch]|]; simpl in Hq;
        by rewrite list_lookup_insert_ne in Hq.
  - intros [= <-]. unfold loop_step. destruct (dispatcher s) as [g|]; [|done].
    destruct (pc s) as [|item|] eqn:Epc; [| |done].
    + destruct (0 <? ch_recvq (input s)); [done|].
      destruct (go_select _ rnd) as [[]|]; try done.
      unfold chanrecv. destruct (ch_buf (input s)) as [|y b]; [done|].
      intros p c x Hp Hx. simpl in *. apply elem_of_app. left. by eapply Hs.
    + intros q c' x Hq Hx.
      destruct (deliver_shape g item rnd now (upd_pc s AtSelect)) as (l & h & Heq & _ & Hle).
      assert (Hin : input (deliver g item rnd now (upd_pc s AtSelect)) = input s)
        by by rewrite Heq.
      rewrite Hin. rewrite Heq in Hq. simpl in Hq.
      destruct (heap_le_back _ _ _ _ _ Hle Hq) as (c & Hc & _). simpl in Hc.
      assert (Hwf1 : wf (upd_pc s AtSelect)) by by eapply wf_upd_pc_AtSelect.
      destruct (deliver_cases (upd_pc s AtSelect) g item rnd now q c Hwf1 Hc)
        as [Hsame|(_ & _ & i & _ & Hpush)]; rewrite Heq in *; simpl in *.
      * assert (c' = c) as -> by congruence. by eapply Hs.
      * assert (c' = pushed c item (now i)) as -> by congruence. simpl in Hx.
        rewrite (chansend_sent _ _ (wf_chan s Hwf q c Hc)) in Hx.
        apply elem_of_app in Hx as [Hx|Hx%list_elem_of_singleton]; [by eapply Hs|].
        subst x. destruct (wf_holding s Hwf item Epc) as [l0 ->].
        apply elem_of_app. right. by left.
  - intros [= <-]. unfold shutdown_step. destruct (done s && closer s); [|done].
    intros p c x Hp Hx.
    by apply (sourced_queue s _ Hs (shutdown_queue (consumers s) (heap s)) p c x).
  - intros [= <-]. unfold watcher_step. destruct (heap s !! p) as [c|] eqn:Hp; [|done].
    destruct (watching c && ctx_done c); [|done].
    intros q d x Hq Hx. simpl in *. destruct (decide (q = p)) as [->|Hne].
    + rewrite list_lookup_insert_eq in Hq by (by eapply lookup_lt_Some).
      injection Hq as <-. by eapply Hs.
    + rewrite list_lookup_insert_ne in Hq by done. by eapply Hs.
Qed.

Lemma sourced_reachable kind icap ccap s : reachable kind icap ccap s → sourced s.
Proof.
  intros [tr Htr].
  assert (Hgen : ∀ s0, wf s0 → sourced s0 → exec tr s0 = Some s → sourced s).
  { clear Htr. induction tr as [|a tr IH]; simpl; intros s0 Hwf0 Hs0.
    - by intros [= <-].
    - destruct (step a s0) as [s1|] eqn:E; [|done].
      apply IH; [by eapply wf_step|by eapply sourced_step]. }
  apply (Hgen _ (wf_NewProducer kind icap ccap)); [|done].
  intros p c x Hp. simpl in Hp. by rewrite lookup_nil in Hp.
Qed.

End Provenance.

(** * The All strategy: conservation and order *)

Lemma Interleaving_length {A : Type} (ws : list (list A)) (l : list A) :
  Interleaving ws l → length l = sum_list_with length ws.
Proof.
  induction 1 as [ws Hws|ws1 x w ws2 l _ IH].
  - induction Hws as [|w ws -> _ IH]; simpl; [done|exact IH].
  - simpl. rewrite IH, !sum_list_with_app. simpl. lia.
Qed.

Lemma sum_list_with_const {A : Type} (f : A → nat) (l : list A) (m : nat) :
  Forall (λ a, f a = m) l → sum_list_with f l = length l * m.
Proof. induction 1 as [|a l Ha _ IH]; simpl; [done|]. by rewrite Ha, IH. Qed.

Section AllStrategy.
Context {T : Type} {sorter : Sorter} {contract : SorterContract sorter}.
Implicit Types (s : State (T:=T)) (c : Consumer (T:=T)) (h : list (Consumer (T:=T))).
Implicit Types (p q : ptr) (item : T) (tr : list (Action (T:=T))).

Lemma Consumer_Close_lookup_ne h p q : q ≠ p → Consumer_Close h q !! p = h !! p.
Proof.
  intros Hne. unfold Consumer_Close. destruct (h !! q) as [c|]; [|done].
  destruct (c_closeOnce c); [done|]. by apply list_lookup_insert_ne.
Qed.

Lemma ctx_cancel_lookup_ne h p q : q ≠ p → ctx_cancel h q !! p = h !! p.
Proof.
  intros Hne. unfold ctx_cancel. destruct (h !! q) as [c|]; [|done].
  by apply list_lookup_insert_ne.
Qed.

Lemma ch_buf_le_sent (ch : Chan T) : length (ch_buf ch) ≤ length (ch_sent ch).
Proof. unfold ch_sent. rewrite length_app. lia. Qed.

Lemma ch_recvd_le_sent (ch : Chan T) : length (ch_recvd ch) ≤ length (ch_sent ch).
Proof. unfold ch_sent. rewrite length_app. lia. Qed.

Lemma serving_Write B P s item rnd :
  serving B P s → S (length (ch_sent (input s))) ≤ B →
  Write item rnd s = (None, send_input item s)
  ∧ serving B P (send_input item s)
  ∧ ch_sent (input (send_input item s)) = ch_sent (input s) ++ [item].
Proof.
  intros (Hwf & Hd & Hg & Hic & Hcc & HP) Hroom.
  pose proof (ch_buf_le_sent (input s)) as Hbuf.
  assert (Hw : Write item rnd s = (None, send_input item s)).
  { unfold Write. rewrite Hd.
    assert (can_send (input s) = true) as ->; [|by rewrite go_select_first].
    unfold can_send. apply orb_true_iff. right. apply Nat.ltb_lt. lia. }
  split; [done|].
  assert (Hwf' : wf (send_input item s)).
  { pose proof (wf_Write item rnd s Hwf) as Hw'. by rewrite Hw in Hw'. }
  pose proof (chansend_sent (input s) item (wf_input s Hwf)) as Hs.
  unfold send_input, chansend in *.
  destruct (0 <? ch_recvq (input s)) eqn:E; simpl in *.
  - apply Nat.ltb_lt in E. pose proof (wf_parked s Hwf E) as Hpc.
    split; [|done]. unfold serving. split_and!; try done.
    intros p Hp. destruct (HP p Hp) as (Hreg & c & Hc & Hctx & Hsent).
    split; [done|]. exists c. split; [done|]. split; [done|].
    unfold held in *. rewrite Hpc in Hsent. simpl. rewrite app_nil_r in Hsent.
    by rewrite Hsent.
  - split; [|done]. unfold serving. by split_and!.
Qed.

Lemma serving_deliver_all B P s item now :
  serving B P s → pc s = Holding item → length (ch_sent (input s)) ≤ B →
  serving B P (deliver_all item now (upd_pc s AtSelect)).
Proof.
  intros (Hwf & Hd & Hg & Hic & Hcc & HP) Hpc Hroom.
  assert (Hwf' : wf (deliver_all item now (upd_pc s AtSelect))).
  { apply (wf_deliver goroutine_Producer_all item 0 now).
    by eapply wf_upd_pc_AtSelect. }
  unfold serving. split_and!; try done.
  intros p Hp. destruct (HP p Hp) as (Hreg & c & Hc & Hctx & Hsent).
  split; [done|].
  unfold held in Hsent. rewrite Hpc in Hsent.
  pose proof (ch_buf_le_sent (Messages c)) as Hbuf.
  pose proof (ch_recvd_le_sent (input s)) as Hrec.
  assert (Hlen : S (length (ch_sent (Messages c))) = length (ch_recvd (input s))).
  { rewrite <-Hsent, length_app. simpl. lia. }
  assert (Hcan : can_send (Messages c) = true).
  { unfold can_send. apply orb_true_iff. right. apply Nat.ltb_lt.
    rewrite (wf_cap s Hwf p c Hc). lia. }
  pose proof Hreg as Hi. apply list_elem_of_lookup_1 in Hi as [i Hi].
  exists (pushed c item (now i)). split; [|split; [done|]].
  - unfold deliver_all. simpl.
    rewrite (range_offer_lookup_in _ _ _ _ _ i) by (done || apply Hwf).
    rewrite Hc. simpl. unfold try_push. by rewrite Hcan.
  - unfold held. simpl. rewrite app_nil_r.
    by rewrite (chansend_sent _ _ (wf_chan s Hwf p c Hc)).
Qed.

Lemma serving_loop_step B P s rnd now :
  serving B P s → length (ch_sent (input s)) ≤ B →
  serving B P (loop_step rnd now s)
  ∧ ch_sent (input (loop_step rnd now s)) = ch_sent (input s).
Proof.
  intros Hs Hroom.
  pose proof Hs as (Hwf & Hd & Hg & Hic & Hcc & HP).
  pose proof (wf_loop_step rnd now s Hwf) as Hwf'.
  unfold loop_step in *. rewrite Hg in *.
  destruct (pc s) as [|item|] eqn:Epc.
  - destruct (0 <? ch_recvq (input s)) eqn:Erq; [done|].
    destruct (go_select _ rnd) as [[]|] eqn:E.
    + destruct (chanrecv (input s)) as [[item ch]|] eqn:Er; [|done].
      pose proof (chanrecv_sent _ _ _ Er) as Hsame.
      pose proof (chanrecv_cap _ _ _ Er) as Hcap.
      split; [|done]. unfold serving. split_and!; simpl; try done; try lia.
      intros p Hp. destruct (HP p Hp) as (Hreg & c & Hc & Hctx & Hsent).
      split; [done|]. exists c. split; [done|]. split; [done|].
      unfold chanrecv in Er. destruct (ch_buf (input s)) as [|x b]; [done|].
      injection Er as <- <-. unfold held in *. rewrite Epc in Hsent. simpl in *.
      rewrite app_nil_r in Hsent. by rewrite Hsent.
    + apply go_select_second_ready in E; [congruence|done].
    + split; [|done]. unfold serving. by split_and!.
  - split.
    + by apply serving_deliver_all.
    + by destruct (deliver_shape goroutine_Producer_all item rnd now (upd_pc s AtSelect))
        as (l & h & -> & _).
  - pose proof (wf_returned s Hwf Epc). congruence.
Qed.

Lemma serving_step B P a s s' :
  serving B P s → undisturbed P a →
  length (ch_sent (input s)) + length (writes [a]) ≤ B →
  step a s = Some s' →
  serving B P s' ∧ ch_sent (input s') = ch_sent (input s) ++ writes [a].
Proof.
  intros Hs Hund Hroom Hstep.
  pose proof Hs as (Hwf & Hd & Hg & Hic & Hcc & HP).
  pose proof (wf_step a s s' Hwf Hstep) as Hwf'.
  destruct a; simpl in *; try rewrite app_nil_r; try (injection Hstep as <-).
  - destruct (serving_Write B P s item rnd Hs) as (-> & Hs' & Hsnt); [lia|]. done.
  - split; [|done]. unfold serving. split_and!; simpl; try done.
    intros p Hp. destruct (HP p Hp) as (Hreg & c & Hc & Hctx & Hsent). split.
    + apply elem_of_app. by left.
    + exists c. split; [by apply lookup_app_l_Some|done].
  - done.
  - split; [|done]. unfold serving. split_and!; simpl; try done.
    intros q Hq. destruct (HP q Hq) as (Hreg & c & Hc & Hctx & Hsent).
    split; [done|]. exists c. rewrite Consumer_Close_lookup_ne; [done|].
    by intros ->.
  - split; [|done]. unfold serving. split_and!; simpl; try done.
    intros q Hq. destruct (HP q Hq) as (Hreg & c & Hc & Hctx & Hsent).
    split; [done|]. exists c. rewrite ctx_cancel_lookup_ne; [done|].
    by intros ->.
  - split.
    + unfold serving. split_and!; try done.
      * by destruct (read_step_shape p s) as (h & -> & _).
      * by destruct (read_step_shape p s) as (h & -> & _).
      * by destruct (read_step_shape p s) as (h & -> & _).
      * by destruct (read_step_shape p s) as (h & -> & _).
      * intros q Hq. destruct (HP q Hq) as (Hreg & c & Hc & Hctx & Hsent).
        unfold read_step in *. destruct (heap s !! p) as [d|] eqn:Hd0;
          [|split; [done|by exists c]].
        destruct (decide (p = q)) as [->|Hne].
        -- assert (d = c) as -> by congruence.
           destruct (chanrecv (Messages c)) as [[x ch]|] eqn:Er; simpl.
           ++ split; [done|]. exists (with_Messages c ch). split; [|split; [done|]].
              ** apply list_lookup_insert_eq. by eapply lookup_lt_Some.
              ** simpl. by rewrite (chanrecv_sent _ _ _ Er).
           ++ split; [done|].
              exists (with_Messages c (chanpark (Messages c))). split; [|done].
              apply list_lookup_insert_eq. by eapply lookup_lt_Some.
        -- destruct (chanrecv (Messages d)) as [[x ch]|]; simpl;
             (split; [done|]); exists c; by rewrite list_lookup_insert_ne.
    + by destruct (read_step_shape p s) as (h & -> & _).
  - apply serving_loop_step; [done|lia].
  - unfold shutdown_step in *. by rewrite Hd in *.
  - split.
    + unfold watcher_step in *. destruct (heap s !! p) as [d|] eqn:Hd0; [|done].
      destruct (watching d && ctx_done d) eqn:E; [|done].
      unfold serving. split_and!; simpl; try done.
      intros q Hq. destruct (HP q Hq) as (Hreg & c & Hc & Hctx & Hsent).
      assert (Hne : p ≠ q).
      { intros ->. assert (d = c) as -> by congruence.
        rewrite Hctx in E. by rewrite andb_false_r in E. }
      split.
      * apply removeConsumer_elem_of; [apply Hwf|done].
      * exists c. by rewrite list_lookup_insert_ne.
    + unfold watcher_step. destruct (heap s !! p); [|done].
      by destruct (watching _ && ctx_done _).
Qed.

Lemma writes_cons a tr : writes (a :: tr) = writes [a] ++ writes tr.
Proof. by destruct a. Qed.

Lemma serving_exec B P tr s s' :
  serving B P s → Forall (undisturbed P) tr →
  length (ch_sent (input s)) + length (writes tr) ≤ B →
  exec tr s = Some s' →
  serving B P s' ∧ ch_sent (input s') = ch_sent (input s) ++ writes tr.
Proof.
  revert s. induction tr as [|a tr IH]; intros s Hs Hund Hroom; cbn [exec].
  - intros [= <-]. by rewrite app_nil_r.
  - destruct (step a s) as [s1|] eqn:E; [|done]. intros Hex.
    apply Forall_cons in Hund as [Ha Hund].
    rewrite writes_cons, length_app in Hroom.
    destruct (serving_step B P a s s1 Hs Ha) as [Hs1 Hsent1]; [lia|done|].
    destruct (IH s1 Hs1 Hund) as [Hs' Hsent']; [|done|].
    + rewrite Hsent1, length_app. lia.
    + split; [done|]. by rewrite Hsent', Hsent1, (writes_cons a tr), app_assoc.
Qed.

(** Left to run, the dispatch goroutine of an open Producer empties
    [input]. *)
Lemma loop_drains g s :
  wf s → done s = false → dispatcher s = Some g →
  ∃ n s', exec (replicate n (ALoop 0 (steady 0))) s = Some s'
          ∧ ch_buf (input s') = [] ∧ held s' = [].
Proof.
  remember (2 * length (ch_buf (input s)) + length (held s)) as m eqn:Hm.
  revert s Hm. induction (lt_wf m) as [m _ IH]. intros s Hm Hwf Hd Hg.
  assert (Hnext : 2 * length (ch_buf (input (loop_step 0 (steady 0) s)))
                    + length (held (loop_step 0 (steady 0) s)) < m →
                  ∃ n s', exec (replicate n (ALoop 0 (steady 0))) s = Some s'
                          ∧ ch_buf (input s') = [] ∧ held s' = []).
  { intros Hlt. destruct (loop_step_fields 0 (steady 0) s) as (Hpar & Hd1 & _).
    destruct (IH _ Hlt (loop_step 0 (steady 0) s) eq_refl) as (n & s' & Hex & Hq).
    - by apply wf_loop_step.
    - congruence.
    - unfold params in Hpar. congruence.
    - exists (S n), s'. by split. }
  destruct (pc s) as [|item|] eqn:Epc.
  - destruct (ch_buf (input s)) as [|x b] eqn:Ebuf.
    + exists 0, s. split; [done|]. split; [done|]. unfold held. by rewrite Epc.
    + apply Hnext. subst m. unfold held, loop_step. rewrite Hg, Epc.
      assert (ch_recvq (input s) = 0) as ->.
      { destruct (ch_recvq (input s)) eqn:Erq; [done|].
        pose proof (wf_input s Hwf) as Hok. unfold chan_ok in Hok.
        rewrite Erq, Ebuf in Hok. discriminate Hok. lia. }
      unfold can_recv, chanrecv. rewrite Ebuf, Hd, go_select_first. simpl. lia.
  - apply Hnext. subst m. unfold held, loop_step. rewrite Hg, Epc.
    destruct (deliver_shape g item 0 (steady 0) (upd_pc s AtSelect)) as (l & h & -> & _).
    simpl. lia.
  - pose proof (wf_returned s Hwf Epc). congruence.
Qed.

Lemma writes_loops n rnd now : writes (T:=T) (replicate n (ALoop rnd now)) = [].
Proof. induction n as [|n IH]; simpl; done. Qed.

Lemma undisturbed_loops P n rnd now :
  Forall (undisturbed (T:=T) P) (replicate n (ALoop rnd now)).
Proof. induction n as [|n IH]; simpl; by constructor. Qed.

(** C3: an open Producer running [goroutine_Producer_all], nothing written
    yet, and a set [P] of registered Consumers that are not cancelled.  [N] producers write [M] items each, interleaved
    in any way with every other step of the system apart from [Close] and
    the cancellation of a Consumer of [P]; [input] and the Consumers'
    queues hold at least [N * M] items.  Then every write is accepted, at
    every moment each Consumer of [P] has been sent exactly the items the
    dispatch goroutine has delivered, in its order, and once the goroutine
    has drained [input] each of them has been sent the same [N * M] items:
    the written items in the order [input] accepted them. *)
Theorem all_conservation N M icap ccap (producers : list (list T)) (P : list ptr) s0 tr s :
  reachable ProducerKind_All icap ccap s0 →
  done s0 = false →
  ch_sent (input s0) = [] →
  (∀ p, p ∈ P → p ∈ consumers s0 ∧ ctx_done <$> heap s0 !! p = Some false) →
  length producers = N →
  Forall (λ w, length w = M) producers →
  Interleaving producers (writes tr) →
  N * M ≤ icap → N * M ≤ ccap →
  Forall (undisturbed P) tr →
  exec tr s0 = Some s →
  ch_sent (input s) = writes tr
  ∧ length (writes tr) = N * M
  ∧ (∀ p, p ∈ P →
       ∃ c, heap s !! p = Some c
            ∧ ch_sent (Messages c) ++ held s = ch_recvd (input s))
  ∧ ∃ n s', exec (replicate n (ALoop 0 (steady 0))) s = Some s'
            ∧ ch_recvd (input s') = writes tr
            ∧ ∀ p, p ∈ P →
                ∃ c', heap s' !! p = Some c'
                      ∧ ch_sent (Messages c') = writes tr
                      ∧ length (ch_sent (Messages c')) = N * M.
Proof.
  intros Hreach Hd0 Hin0 HP HN HM Hil Hicap Hccap Hund Hex.
  pose proof (wf_reachable _ _ _ _ Hreach) as Hwf0.
  assert (Hpar : params s0 = (icap, ccap, Some goroutine_Producer_all)).
  { destruct Hreach as [tr0 Htr0]. by apply exec_params in Htr0. }
  injection Hpar as Hic Hcc Hg.
  assert (Hlen : length (writes tr) = N * M).
  { rewrite (Interleaving_length _ _ Hil), (sum_list_with_const _ _ M HM). by rewrite HN. }
  assert (Hrec0 : ch_recvd (input s0) = []).
  { unfold ch_sent in Hin0. by apply app_eq_nil in Hin0 as [? _]. }
  assert (Hheld0 : held s0 = []).
  { unfold held. destruct (pc s0) as [|item|] eqn:Epc; try done.
    destruct (wf_holding s0 Hwf0 item Epc) as [l Hl]. rewrite Hrec0 in Hl.
    by destruct l. }
  assert (Hserve0 : serving (N * M) P s0).
  { unfold serving. split_and!; try done; try lia.
    intros p Hp. destruct (HP p Hp) as (Hreg & Hctx).
    destruct (heap s0 !! p) as [c0|] eqn:Hc0; [|done]. injection Hctx as Hctx.
    split; [done|]. exists c0. split; [done|]. split; [done|].
    rewrite Hheld0, Hrec0, app_nil_r.
    destruct (ch_sent (Messages c0)) as [|x l] eqn:Hsent0; [done|].
    pose proof (sourced_reachable _ _ _ _ Hreach p c0 x Hc0) as Hx.
    rewrite Hsent0, Hrec0 in Hx. by apply elem_of_nil in Hx; [|left]. }
  destruct (serving_exec (N * M) P tr s0 s Hserve0 Hund) as [Hserve Hsent]; [|done|].
  { rewrite Hin0. simpl. lia. }
  rewrite Hin0 in Hsent. simpl in Hsent.
  pose proof Hserve as (Hwf & Hd & Hg' & _ & _ & HP').
  split; [done|]. split; [done|]. split.
  { intros p Hp. destruct (HP' p Hp) as (_ & c & Hc & _ & Hs). by exists c. }
  destruct (loop_drains _ s Hwf Hd Hg') as (n & s' & Hex' & Hbuf' & Hheld').
  destruct (serving_exec (N * M) P _ s s' Hserve (undisturbed_loops P n 0 (steady 0)))
    as [Hserve' Hsent']; [|done|].
  { rewrite writes_loops, Hsent. simpl. lia. }
  rewrite writes_loops, app_nil_r, Hsent in Hsent'.
  assert (Hrec' : ch_recvd (input s') = writes tr).
  { rewrite <-Hsent'. unfold ch_sent. by rewrite Hbuf', app_nil_r. }
  exists n, s'. split; [done|]. split; [done|].
  intros p Hp. destruct Hserve' as (_ & _ & _ & _ & _ & HP'').
  destruct (HP'' p Hp) as (_ & c' & Hc' & _ & Hs').
  rewrite Hheld', app_nil_r, Hrec' in Hs'.
  exists c'. split; [done|]. split; [done|]. by rewrite Hs'.
Qed.

End AllStrategy.

(** * The theorems on concrete runs *)

Lemma lru_run_reachable : reachable ProducerKind_LRU 4 4 lru_run.
Proof. exists lru_trace. vm_compute. reflexivity. Defined.

Lemma all_ready_reachable : reachable ProducerKind_All 4 4 all_ready.
Proof. exists all_trace. vm_compute. reflexivity. Defined.

Lemma cancelled_run_reachable : reachable ProducerKind_Single 1 1 cancelled_run.
Proof. exists cancelled_trace. vm_compute. reflexivity. Defined.

Lemma Write_open_witness :
  reachable ProducerKind_All 4 4 all_ready
  ∧ done all_ready = false
  ∧ (fst (Write 7 0 all_ready) = Some ErrBufferFull
       ↔ ch_recvq (input all_ready) = 0
         ∧ ch_cap (input all_ready) ≤ length (ch_buf (input all_ready)))
  ∧ (fst (Write 7 0 all_ready) ≠ Some ErrBufferFull →
       Write 7 0 all_ready = (None, send_input 7 all_ready)
       ∧ ch_sent (input (send_input 7 all_ready)) = ch_sent (input all_ready) ++ [7])
  ∧ ch_cap (input all_ready) = 4
  ∧ (0 < 4 →
       (fst (Write 7 0 all_ready) = Some ErrBufferFull
          ↔ 4 ≤ length (ch_buf (input all_ready)))).
Proof.
  split; [exact all_ready_reachable|]. split; [reflexivity|].
  exact (Write_open ProducerKind_All 4 4 all_ready 7 0 all_ready_reachable eq_refl).
Defined.

Lemma Close_idempotent_witness :
  reachable ProducerKind_LRU 4 4 lru_run
  ∧ ∃ s1, Close lru_run = Some s1
      ∧ Close s1 = Some s1
      ∧ done s1 = true
      ∧ (done lru_run = true → s1 = lru_run)
      ∧ (∀ tr, ∃ s2, exec tr s1 = Some s2 ∧ done s2 = true)
      ∧ (∀ tr1 tr2, exec (tr1 ++ AClose :: tr2) s1 = exec (tr1 ++ tr2) s1).
Proof.
  split; [exact lru_run_reachable|].
  exact (Close_idempotent ProducerKind_LRU 4 4 lru_run lru_run_reachable).
Defined.

Lemma deliver_frame_witness :
  reachable ProducerKind_All 4 4 all_ready
  ∧ consumers (deliver goroutine_Producer_all 7 0 (ticking 30) all_ready)
    ≡ₚ consumers all_ready
  ∧ length (heap (deliver goroutine_Producer_all 7 0 (ticking 30) all_ready))
    = length (heap all_ready)
  ∧ ∀ q c, heap all_ready !! q = Some c →
      heap (deliver goroutine_Producer_all 7 0 (ticking 30) all_ready) !! q = Some c
      ∨ (q ∈ consumers all_ready
         ∧ can_send (Messages c) = true
         ∧ ∃ i, consumers all_ready !! i = Some q
                ∧ heap (deliver goroutine_Producer_all 7 0 (ticking 30) all_ready) !! q
                  = Some (mkConsumer (c_id c) (chansend (Messages c) 7) (ticking 30 i)
                                     (ctx_done c) (c_closeOnce c) (watching c))).
Proof.
  split; [exact all_ready_reachable|].
  destruct (deliver_frame ProducerKind_All 4 4 all_ready goroutine_Producer_all 7 0
              (ticking 30) all_ready_reachable) as (Hperm & Hlen & _ & Hcons).
  exact (conj Hperm (conj Hlen Hcons)).
Defined.

Lemma lru_selects_least_witness :
  consumers tied_run ≠ []
  ∧ ∃ lru,
      sort_by (Less (heap tied_run)) (consumers tied_run) !! 0 = Some lru
      ∧ lru ∈ consumers tied_run
      ∧ (∀ q, q ∈ consumers tied_run →
           lastUsed_at (heap tied_run) lru ≤ lastUsed_at (heap tied_run) q)
      ∧ deliver_lru 8 40 tied_run
        = upd_heap (upd_consumers tied_run
                      (sort_by (Less (heap tied_run)) (consumers tied_run)))
                   (offer 8 40 (heap tied_run) lru)
      ∧ (∀ q, q ≠ lru → heap (deliver_lru 8 40 tied_run) !! q = heap tied_run !! q)
      ∧ (∀ s2 : State (T:=nat), consumers s2 = consumers tied_run →
           (∀ q, q ∈ consumers tied_run →
              lastUsed_at (heap s2) q = lastUsed_at (heap tied_run) q) →
           sort_by (Less (heap s2)) (consumers s2) !! 0 = Some lru).
Proof.
  assert (Hne : consumers tied_run ≠ []) by (vm_compute; discriminate).
  split; [exact Hne|]. exact (lru_selects_least tied_run 8 40 Hne).
Defined.

(** C2 fails on a tie.  [sort.Sort] promises no stability, and a routine
    that meets its contract may put the later of two registry entries with
    the same [lastUsed] first.  In the registry of [tied_run] the entries at
    2 and at 12 share the earliest [lastUsed], and the one at 2 is the
    first of them.  Sorted by [backSort] the registry has the entry from 12
    at its head, and the item goes to that Consumer while the one from 2
    is left as it was. *)
Example lru_tie_against_registry_order :
  SorterContract back_sorter
  ∧ reachable (H:=back_sorter) ProducerKind_LRU 4 4 tied_run
  ∧ consumers tied_run = [0; 1; 2; 3; 4; 5; 6; 7; 8; 9; 10; 11; 12]
  ∧ lastUsed_at (heap tied_run) <$> consumers tied_run
    = [5; 100; 1; 50; 6; 7; 51; 8; 9; 52; 10; 11; 1]
  ∧ first_least (lastUsed_at (heap tied_run)) (consumers tied_run) 2
  ∧ sort_by (Sorter:=back_sorter) (Less (heap tied_run)) (consumers tied_run)
    = [12; 2; 0; 4; 5; 7; 8; 10; 11; 3; 6; 9; 1]
  ∧ heap (deliver_lru (H:=back_sorter) 7 200 tied_run) !! 12
    = Some (mkConsumer "m" (mkChan 4 [7] 0 []) 200 false false true)
  ∧ heap (deliver_lru (H:=back_sorter) 7 200 tied_run) !! 2 = heap tied_run !! 2.
Proof.
  split; [exact back_sorter_contract|].
  split; [exists tied_trace; vm_compute; reflexivity|].
  split; [vm_compute; reflexivity|]. split; [vm_compute; reflexivity|].
  split; [|split; [|split]; vm_compute; reflexivity].
  exists [0; 1], [3; 4; 5; 6; 7; 8; 9; 10; 11; 12]. split; [vm_compute; reflexivity|].
  split; repeat (apply Forall_cons_2 || apply Forall_nil_2); vm_compute; lia.
Qed.

(** In [lru_run] the first Consumer was used at 30 and the second at 20:
    the next item goes to the second. *)
Example lru_run_next :
  heap (deliver_lru 8 40 lru_run) !! 1
  = Some (mkConsumer "b" (mkChan 4 [8] 0 []) 40 false false true)
  ∧ heap (deliver_lru 8 40 lru_run) !! 0
    = Some (mkConsumer "a" (mkChan 4 [7] 0 []) 30 false false true).
Proof. split; vm_compute; reflexivity. Qed.

Lemma fresh_consumer_sorts_after_witness :
  reachable ProducerKind_LRU 4 4 lru_run
  ∧ (1 ∈ consumers lru_run ∧ lastUsed_at (heap lru_run) 1 < 25)
  ∧ sort_by (Less (heap (snd (CreateConsumer "c" false 25 lru_run))))
            (consumers (snd (CreateConsumer "c" false 25 lru_run))) !! 0
    ≠ Some (fst (CreateConsumer "c" false 25 lru_run))
  ∧ heap (deliver_lru 8 40 (snd (CreateConsumer "c" false 25 lru_run)))
      !! fst (CreateConsumer "c" false 25 lru_run)
    = heap (snd (CreateConsumer "c" false 25 lru_run))
        !! fst (CreateConsumer "c" false 25 lru_run).
Proof.
  assert (Hin : 1 ∈ consumers lru_run) by (vm_compute; apply list_elem_of_In; simpl; auto).
  assert (Hold : lastUsed_at (heap lru_run) 1 < 25) by (vm_compute; lia).
  split; [exact lru_run_reachable|]. split; [exact (conj Hin Hold)|].
  destruct (fresh_consumer_sorts_after ProducerKind_LRU 4 4 lru_run "c" false 25 8 40
              lru_run_reachable) as (_ & _ & Hq).
  destruct (Hq 1 Hin Hold) as (_ & Hnot & Hsame).
  exact (conj Hnot Hsame).
Defined.

Lemma removal_exactly_once_witness :
  reachable ProducerKind_Single 1 1 cancelled_run
  ∧ heap cancelled_run !! 0
    = Some (mkConsumer "a" (mkChan 1 [] 0 []) 10 true false true)
  ∧ S (length (consumers (watcher_step 0 cancelled_run))) = length (consumers cancelled_run)
  ∧ (∀ q, q ∈ consumers (watcher_step 0 cancelled_run)
          ↔ q ∈ consumers cancelled_run ∧ q ≠ 0)
  ∧ ∀ tr s'', exec tr (watcher_step 0 cancelled_run) = Some s'' →
      (0 ∉ consumers s'') ∧ watcher_step 0 s'' = s''.
Proof.
  assert (Hc : heap cancelled_run !! 0
               = Some (mkConsumer "a" (mkChan 1 [] 0 []) 10 true false true))
    by (vm_compute; reflexivity).
  split; [exact cancelled_run_reachable|]. split; [exact Hc|].
  destruct (removal_exactly_once ProducerKind_Single 1 1 cancelled_run 0 _
              cancelled_run_reachable Hc) as (_ & _ & _ & Hfire).
  exact (Hfire eq_refl eq_refl).
Defined.

(** The shutdown goroutine cancelling the Consumer a second time changes
    nothing for the watcher: one removal, in either order. *)
Example cancelled_run_race :
  consumers (watcher_step 0 (shutdown_step cancelled_run)) = []
  ∧ consumers (shutdown_step (watcher_step 0 cancelled_run)) = []
  ∧ consumers (watcher_step 0 (watcher_step 0 (shutdown_step cancelled_run))) = [].
Proof. repeat split; vm_compute; reflexivity. Qed.

Lemma unknown_kind_never_delivers_witness :
  (7 ≠ ProducerKind_Single ∧ 7 ≠ ProducerKind_LRU ∧ 7 ≠ ProducerKind_All)%Z
  ∧ dispatcher (NewProducer (T:=nat) 7%Z 2 2) = None
  ∧ ∀ tr s, exec tr (NewProducer (T:=nat) 7%Z 2 2) = Some s →
      ch_recvd (input s) = []
      ∧ (∀ p c, heap s !! p = Some c → ch_sent (Messages c) = [])
      ∧ (∀ a s', step a s = Some s' → ch_recvd (input s') = [])
      ∧ ∀ item rnd,
          done s = false → length (ch_buf (input s)) < 2 →
          fst (Write item rnd s) = None
          ∧ ch_buf (input (snd (Write item rnd s))) = ch_buf (input s) ++ [item].
Proof.
  assert (H0 : (7 ≠ ProducerKind_Single)%Z) by discriminate.
  assert (H1 : (7 ≠ ProducerKind_LRU)%Z) by discriminate.
  assert (H2 : (7 ≠ ProducerKind_All)%Z) by discriminate.
  split; [exact (conj H0 (conj H1 H2))|].
  exact (unknown_kind_never_delivers (T:=nat) 7%Z 2 2 H0 H1 H2).
Defined.

Lemma all_conservation_witness :
  reachable ProducerKind_All 4 4 all_ready
  ∧ Interleaving [[1; 2]; [3; 4]] (writes two_writers)
  ∧ Forall (undisturbed [0; 1]) two_writers
  ∧ ∃ s, exec two_writers all_ready = Some s
     ∧ ch_sent (input s) = writes two_writers
     ∧ length (writes two_writers) = 2 * 2
     ∧ (∀ p, p ∈ [0; 1] →
          ∃ c, heap s !! p = Some c
               ∧ ch_sent (Messages c) ++ held s = ch_recvd (input s))
     ∧ ∃ n s', exec (replicate n (ALoop 0 (steady 0))) s = Some s'
               ∧ ch_recvd (input s') = writes two_writers
               ∧ ∀ p, p ∈ [0; 1] →
                   ∃ c', heap s' !! p = Some c'
                         ∧ ch_sent (Messages c') = writes two_writers
                         ∧ length (ch_sent (Messages c')) = 2 * 2.
Proof.
  assert (Hil : Interleaving [[1; 2]; [3; 4]] (writes two_writers)).
  { apply (interleaving_cons [] 1 [2] [[3; 4]]).
    apply (interleaving_cons [[2]] 3 [4] []).
    apply (interleaving_cons [] 2 [] [[4]]).
    apply (interleaving_cons [[]] 4 [] []).
    apply interleaving_nil. repeat constructor. }
  assert (Hund : Forall (undisturbed [0; 1]) two_writers).
  { repeat constructor. }
  assert (HP : ∀ p, p ∈ [0; 1] →
            p ∈ consumers all_ready ∧ ctx_done <$> heap all_ready !! p = Some false).
  { intros p Hp. apply list_elem_of_In in Hp. simpl in Hp.
    destruct Hp as [<-|[<-|[]]].
    - split; [apply list_elem_of_In; simpl; auto|reflexivity].
    - split; [apply list_elem_of_In; simpl; auto|reflexivity]. }
  assert (HM : Forall (λ w : list nat, length w = 2) [[1; 2]; [3; 4]]).
  { repeat constructor. }
  split; [exact all_ready_reachable|]. split; [exact Hil|]. split; [exact Hund|].
  eexists. split; [vm_compute; reflexivity|].
  refine (all_conservation 2 2 4 4 [[1; 2]; [3; 4]] [0; 1] all_ready two_writers _
            all_ready_reachable eq_refl eq_refl HP eq_refl HM Hil _ _ Hund eq_refl); lia.
Defined.

(** * Invariants of every execution *)

Section Invariants2.
Context {T : Type} {sorter : Sorter} {contract : SorterContract sorter}.
Implicit Types (s : State (T:=T)) (c : Consumer (T:=T)) (h : list (Consumer (T:=T))).
Implicit Types (p q : ptr) (item : T) (tr : list (Action (T:=T))).

Lemma go_select_first_chosen {A : Type} (r1 r2 : bool) (a b : A) rnd :
  a ≠ b → go_select [(r1, a); (r2, b)] rnd = Some a → r1 = true.
Proof.
  intros Hne. destruct r1, r2; try done.
  rewrite go_select_second. congruence.
Qed.

(** Delivery is a sequence of offers. *)
Lemma deliver_heap_le (R : Consumer (T:=T) → Consumer (T:=T) → Prop) s g item rnd now :
  (∀ c, R c c) → (∀ a b c, R a b → R b c → R a c) →
  (∀ t h p, heap_le R h (offer item t h p)) →
  heap_le R (heap s) (heap (deliver g item rnd now s)).
Proof.
  intros Hrefl Htrans Hoffer. destruct g; simpl.
  - unfold deliver_single. destruct (0 <? length (consumers s)); [|by apply heap_le_refl].
    destruct (consumers s !! _); [apply Hoffer|by apply heap_le_refl].
  - unfold deliver_lru. destruct (0 <? length (consumers s)); [|by apply heap_le_refl].
    destruct (sort_by (Less (heap s)) (consumers s) !! 0);
      [apply Hoffer|by apply heap_le_refl].
  - unfold deliver_all. simpl. by apply heap_le_range_offer.
Qed.

Lemma cells_heap_le (Q : Consumer (T:=T) → Prop) s s' :
  cells Q s → heap_le (λ c c', Q c → Q c') (heap s) (heap s') → cells Q s'.
Proof.
  intros Hs Hle p c' Hp. destruct (heap_le_back _ _ _ _ _ Hle Hp) as (c & Hc & HR).
  apply HR. by eapply Hs.
Qed.

Lemma stable_step (Q : Consumer (T:=T) → Prop) a s s' :
  stable Q → cells Q s → step a s = Some s' → cells Q s'.
Proof.
  intros HQ Hs.
  assert (Hrefl : ∀ c, Q c → Q c) by done.
  assert (Htrans : ∀ a b c : Consumer (T:=T), (Q a → Q b) → (Q b → Q c) → Q a → Q c) by auto.
  assert (Hclose : ∀ h p, heap_le (λ c c', Q c → Q c') h (Consumer_Close h p)).
  { intros h p. unfold Consumer_Close. destruct (h !! p) as [c|] eqn:Hp;
      [|by apply heap_le_refl].
    destruct (c_closeOnce c) eqn:E; [by apply heap_le_refl|].
    eapply heap_le_insert; [done|done|]. intros Hc. by apply stable_close. }
  destruct a; simpl.
  - intros [= <-]. unfold Write. destruct (go_select _ rnd) as [[]|]; simpl; try done.
    unfold cells. by rewrite (proj2 (proj2 (proj2 (proj2 (send_input_fields item s))))).
  - intros [= <-] p c Hp. simpl in Hp.
    apply lookup_app_Some in Hp as [Hp|[_ Hp]]; [by eapply Hs|].
    apply list_lookup_singleton_Some in Hp as [_ <-]. apply stable_new, HQ.
  - unfold Close, close_done. destruct (closeOnce s); [by intros [= <-]|]. simpl.
    destruct (done s); [done|]. intros [= <-].
    by destruct (0 <? ch_recvq (input s)).
  - intros [= <-]. apply (cells_heap_le Q s); [done|apply Hclose].
  - intros [= <-]. apply (cells_heap_le Q s); [done|]. unfold ctx_cancel.
    destruct (heap s !! p) as [c|] eqn:Hp; [|by apply heap_le_refl].
    eapply heap_le_insert; [done|done|]. intros Hc. by apply stable_cancel.
  - intros [= <-]. unfold read_step. destruct (heap s !! p) as [c|] eqn:Hp; [|done].
    destruct (chanrecv (Messages c)) as [[x ch]|] eqn:Er.
    + apply (cells_heap_le Q s); [done|]. simpl.
      eapply heap_le_insert; [done|done|]. intros Hc. by eapply stable_recv.
    + apply (cells_heap_le Q s); [done|]. simpl.
      eapply heap_le_insert; [done|done|]. intros Hc. by eapply stable_park.
  - intros [= <-]. unfold loop_step. destruct (dispatcher s) as [g|]; [|done].
    destruct (pc s) as [|item|]; [| |done].
    + destruct (0 <? ch_recvq (input s)); [done|].
      destruct (go_select _ rnd) as [[]|]; try done.
      by destruct (chanrecv (input s)) as [[]|].
    + apply (cells_heap_le Q (upd_pc s AtSelect)); [done|].
      apply (deliver_heap_le _ (upd_pc s AtSelect)); [done|done|]. intros t h p. unfold offer.
      destruct (h !! p) as [c|] eqn:Hp; [|by apply heap_le_refl].
      destruct (can_send (Messages c)) eqn:E; [|by apply heap_le_refl].
      eapply heap_le_insert; [done|done|]. intros Hc. by apply stable_push.
  - intros [= <-]. unfold shutdown_step. destruct (done s && closer s); [|done].
    apply (cells_heap_le Q s); [done|]. simpl. by apply heap_le_fold.
  - intros [= <-]. unfold watcher_step. destruct (heap s !! p) as [c|] eqn:Hp; [|done].
    destruct (watching c && ctx_done c) eqn:E; [|done].
    apply andb_true_iff in E as [_ E].
    apply (cells_heap_le Q s); [done|]. simpl.
    eapply heap_le_insert; [done|done|]. intros Hc. by apply stable_stop.
Qed.

Lemma stable_reachable (Q : Consumer (T:=T) → Prop) kind icap ccap s :
  stable Q → reachable kind icap ccap s → cells Q s.
Proof.
  intros HQ [tr Htr].
  assert (Hgen : ∀ s0, cells Q s0 → exec tr s0 = Some s → cells Q s).
  { clear Htr. induction tr as [|a tr IH]; simpl; intros s0 Hs0.
    - by intros [= <-].
    - destruct (step a s0) as [s1|] eqn:E; [|done].
      apply IH. by eapply stable_step. }
  apply (Hgen (NewProducer kind icap ccap)); [|done].
  intros p c Hp. simpl in Hp. by rewrite lookup_nil in Hp.
Qed.

End Invariants2.

(** * Bounded queues *)

Section Bounded.
Context {T : Type} {sorter : Sorter} {contract : SorterContract sorter}.
Implicit Types (s : State (T:=T)) (c : Consumer (T:=T)) (h : list (Consumer (T:=T))).
Implicit Types (p q : ptr) (item : T) (tr : list (Action (T:=T))).

Lemma chansend_bounded (ch : Chan T) x :
  can_send ch = true → chan_bounded ch → chan_bounded (chansend ch x).
Proof.
  unfold can_send, chan_bounded, chansend. intros Hcan Hb.
  destruct (0 <? ch_recvq ch) eqn:E; simpl; [done|].
  simpl in Hcan. apply Nat.ltb_lt in Hcan. rewrite length_app. simpl. lia.
Qed.

Lemma chanrecv_bounded (ch ch' : Chan T) x :
  chanrecv ch = Some (x, ch') → chan_bounded ch → chan_bounded ch'.
Proof.
  unfold chanrecv, chan_bounded. destruct (ch_buf ch) as [|y b]; [done|].
  intros [= <- <-]. simpl. lia.
Qed.

Lemma bounded_stable : stable (λ c, chan_bounded (Messages c)).
Proof.
  split; try done.
  - intros id parent_done now size. unfold chan_bounded. simpl. lia.
  - intros c item now Hb Hcan. simpl. by apply chansend_bounded.
  - intros c x ch Hb Hr. simpl. by eapply chanrecv_bounded.
Qed.

Lemma input_bounded_step a s s' :
  chan_bounded (input s) → step a s = Some s' → chan_bounded (input s').
Proof.
  intros Hb. destruct a; simpl; try (by intros [= <-]).
  - intros [= <-]. unfold Write. destruct (go_select _ rnd) as [[]|] eqn:E; simpl; try done.
    apply go_select_first_chosen in E; [|done].
    pose proof (chansend_bounded (input s) item E Hb) as Hb'.
    unfold send_input. by destruct (0 <? ch_recvq (input s)).
  - unfold Close, close_done. destruct (closeOnce s); [by intros [= <-]|]. simpl.
    destruct (done s); [done|]. intros [= <-].
    by destruct (0 <? ch_recvq (input s)).
  - intros [= <-]. by destruct (read_step_shape p s) as (h & -> & _).
  - intros [= <-]. unfold loop_step. destruct (dispatcher s) as [g|]; [|done].
    destruct (pc s) as [|item|]; [| |done].
    + destruct (0 <? ch_recvq (input s)); [done|].
      destruct (go_select _ rnd) as [[]|]; try done.
      destruct (chanrecv (input s)) as [[item ch]|] eqn:Er; [|done].
      simpl. by eapply chanrecv_bounded.
    + by destruct (deliver_shape g item rnd now (upd_pc s AtSelect)) as (l & h & -> & _).
  - intros [= <-]. unfold shutdown_step. by destruct (done s && closer s).
  - intros [= <-]. unfold watcher_step. destruct (heap s !! p); [|done].
    by destruct (watching _ && ctx_done _).
Qed.

(** X1: no queue ever holds more than its capacity.  In every state of
    every execution the buffer of [input] has at most [input_buffer_size]
    items, and the queue of every Consumer ever created has capacity
    [consumer_buffer_size] and at most that many items buffered. *)
Theorem queues_bounded kind icap ccap s :
  reachable kind icap ccap s →
  length (ch_buf (input s)) ≤ icap
  ∧ ∀ p c, heap s !! p = Some c →
      ch_cap (Messages c) = ccap ∧ length (ch_buf (Messages c)) ≤ ccap.
Proof.
  intros Hreach. pose proof (wf_reachable _ _ _ _ Hreach) as Hwf.
  pose proof (stable_reachable _ _ _ _ _ bounded_stable Hreach) as Hcells.
  destruct Hreach as [tr Htr]. pose proof (exec_params _ _ _ Htr) as Hpar.
  injection Hpar as Hic Hcc _.
  split.
  - rewrite <-Hic.
    assert (Hgen : ∀ s0, chan_bounded (input s0) → exec tr s0 = Some s →
                   chan_bounded (input s)).
    2:{ apply (Hgen (NewProducer kind icap ccap)); [|done].
        unfold chan_bounded. simpl. lia. }
    clear Htr. induction tr as [|a tr IH]; simpl; intros s0 Hb.
    + by intros [= <-].
    + destruct (step a s0) as [s1|] eqn:E; [|done]. apply IH.
      by eapply input_bounded_step.
  - intros p c Hp. pose proof (wf_cap s Hwf p c Hp) as Hcap.
    pose proof (Hcells p c Hp) as Hb. unfold chan_bounded in Hb.
    rewrite Hcap, Hcc in *. done.
Qed.

End Bounded.

(** * Order of delivery *)

Section Order.
Context {T : Type} {sorter : Sorter} {contract : SorterContract sorter}.
Implicit Types (s : State (T:=T)) (c : Consumer (T:=T)) (h : list (Consumer (T:=T))).
Implicit Types (p q : ptr) (item : T) (tr : list (Action (T:=T))).

Lemma in_order_queue s h :
  in_order s → heap_le same_sent (heap s) h → in_order (upd_heap s h).
Proof.
  intros (d & Hd & Hs) Hle. exists d. split; [done|]. simpl. intros p c' Hp.
  destruct (heap_le_back _ _ _ _ _ Hle Hp) as (c & Hc & Heq).
  unfold same_sent in Heq. rewrite Heq. by eapply Hs.
Qed.

Lemma same_queue_sent h h' : heap_le same_queue h h' → heap_le (same_sent (T:=T)) h h'.
Proof.
  intros [Hlen Hle]. split; [done|]. intros q c Hq.
  destruct (Hle q c Hq) as (c' & Hq' & Heq). exists c'. split; [done|].
  unfold same_sent, same_queue in *. by rewrite Heq.
Qed.

Lemma read_step_sent p s :
  ∃ h, read_step p s = upd_heap s h ∧ heap_le same_sent (heap s) h.
Proof.
  unfold read_step. destruct (heap s !! p) as [c|] eqn:Hp.
  - destruct (chanrecv (Messages c)) as [[x ch]|] eqn:Er; eexists; (split; [done|]);
      (eapply heap_le_insert; [done|done|]); unfold same_sent; simpl; [|done].
    by eapply chanrecv_sent.
  - exists (heap s). split; [by destruct s|]. by apply heap_le_refl.
Qed.

Lemma stop_watcher_sent h p c :
  h !! p = Some c → heap_le same_sent h (<[p := stop_watcher c]> h).
Proof. intros Hp. by eapply heap_le_insert. Qed.

Lemma in_order_step a s s' : wf s → in_order s → step a s = Some s' → in_order s'.
Proof.
  intros Hwf Hs. pose proof Hs as (d & Hd & Hsub). destruct a; simpl.
  - intros [= <-]. unfold Write. destruct (go_select _ rnd) as [[]|]; simpl; try done.
    unfold send_input, chansend.
    destruct (0 <? ch_recvq (input s)) eqn:E; [|by exists d].
    apply Nat.ltb_lt in E. pose proof (wf_parked s Hwf E) as Hpc.
    exists d. split; [|done]. unfold held in *. simpl. rewrite Hpc in Hd.
    rewrite app_nil_r in Hd. by rewrite Hd.
  - intros [= <-]. exists d. split; [done|]. simpl. intros p c Hp.
    apply lookup_app_Some in Hp as [Hp|[_ Hp]]; [by eapply Hsub|].
    apply list_lookup_singleton_Some in Hp as [_ <-]. apply sublist_nil_l.
  - unfold Close, close_done. destruct (closeOnce s); [by intros [= <-]|]. simpl.
    destruct (done s); [done|]. intros [= <-].
    destruct (0 <? ch_recvq (input s)) eqn:E; [|by exists d].
    apply Nat.ltb_lt in E. pose proof (wf_parked s Hwf E) as Hpc.
    exists d. split; [|done]. unfold held in *. simpl. rewrite Hpc in Hd.
    by rewrite app_nil_r in *.
  - intros [= <-]. apply in_order_queue; [done|].
    apply same_queue_sent, Consumer_Close_queue.
  - intros [= <-]. apply in_order_queue; [done|].
    apply same_queue_sent, ctx_cancel_queue.
  - intros [= <-]. destruct (read_step_sent p s) as (h & -> & Hle).
    by apply in_order_queue.
  - intros [= <-]. unfold loop_step. destruct (dispatcher s) as [g|]; [|done].
    destruct (pc s) as [|item|] eqn:Epc; [| |done].
    + destruct (0 <? ch_recvq (input s)); [done|].
      destruct (go_select _ rnd) as [[]|]; try done.
      * unfold chanrecv. destruct (ch_buf (input s)) as [|y b]; [done|].
        exists d. split; [|done]. unfold held in *. simpl. rewrite Epc in Hd.
        rewrite app_nil_r in Hd. by rewrite Hd.
      * exists d. split; [|done]. unfold held in *. simpl. by rewrite Epc in Hd.
    + unfold held in Hd. rewrite Epc in Hd.
      destruct (deliver_shape g item rnd now (upd_pc s AtSelect)) as (l & h & Heq & _ & Hle).
      exists (d ++ [item]). split.
      { rewrite Heq. unfold held. simpl. by rewrite app_nil_r. }
      intros q c' Hq. rewrite Heq in Hq. simpl in Hq.
      destruct (heap_le_back _ _ _ _ _ Hle Hq) as (c & Hc & _). simpl in Hc.
      assert (Hwf1 : wf (upd_pc s AtSelect)) by by eapply wf_upd_pc_AtSelect.
      destruct (deliver_cases (upd_pc s AtSelect) g item rnd now q c Hwf1 Hc)
        as [Hsame|(_ & _ & i & _ & Hpush)]; rewrite Heq in *; simpl in *.
      * assert (c' = c) as -> by congruence. apply sublist_inserts_r. by eapply Hsub.
      * assert (c' = pushed c item (now i)) as -> by congruence. simpl.
        rewrite (chansend_sent _ _ (wf_chan s Hwf q c Hc)).
        apply sublist_app; [by eapply Hsub|done].
  - intros [= <-]. unfold shutdown_step. destruct (done s && closer s); [|done].
    destruct (in_order_queue s (fold_left Consumer_Close (consumers s) (heap s)) Hs)
      as (d' & Hd' & Hsub'); [apply same_queue_sent, shutdown_queue|].
    by exists d'.
  - intros [= <-]. unfold watcher_step. destruct (heap s !! p) as [c|] eqn:Hp; [|done].
    destruct (watching c && ctx_done c); [|done].
    destruct (in_order_queue s (<[p := stop_watcher c]> (heap s)) Hs)
      as (d' & Hd' & Hsub'); [by apply stop_watcher_sent|].
    by exists d'.
Qed.

(** What [input] has been sent is what the accepted writes wrote, in
    order. *)
Lemma input_sent_step a s s' :
  wf s → step a s = Some s' →
  ∃ w, ch_sent (input s') = ch_sent (input s) ++ w ∧ w `sublist_of` writes [a].
Proof.
  intros Hwf.
  assert (Hsame : input s' = input s →
            ∃ w, ch_sent (input s') = ch_sent (input s) ++ w ∧ w `sublist_of` writes [a]).
  { intros ->. exists []. rewrite app_nil_r. split; [done|apply sublist_nil_l]. }
  destruct a; simpl; try (by intros [= <-]; apply Hsame).
  - intros [= <-]. unfold Write. destruct (go_select _ rnd) as [[]|]; simpl;
      [|by exists []; rewrite app_nil_r; split; [|apply sublist_nil_l]..].
    exists [item]. split; [|done].
    pose proof (chansend_sent (input s) item (wf_input s Hwf)) as Hsent.
    unfold send_input. by destruct (0 <? ch_recvq (input s)).
  - unfold Close, close_done. destruct (closeOnce s); [by intros [= <-]; apply Hsame|].
    simpl. destruct (done s); [done|]. intros [= <-]. exists []. rewrite app_nil_r.
    split; [|apply sublist_nil_l]. by destruct (0 <? ch_recvq (input s)).
  - intros [= <-]. apply Hsame. by destruct (read_step_shape p s) as (h & -> & _).
  - intros [= <-]. exists []. rewrite app_nil_r. split; [|apply sublist_nil_l].
    unfold loop_step. destruct (dispatcher s) as [g|]; [|done].
    destruct (pc s) as [|item|]; [| |done].
    + destruct (0 <? ch_recvq (input s)); [done|].
      destruct (go_select _ rnd) as [[]|]; try done.
      destruct (chanrecv (input s)) as [[item ch]|] eqn:Er; [|done].
      simpl. by eapply chanrecv_sent.
    + by destruct (deliver_shape g item rnd now (upd_pc s AtSelect)) as (l & h & -> & _).
  - intros [= <-]. apply Hsame. unfold shutdown_step. by destruct (done s && closer s).
  - intros [= <-]. apply Hsame. unfold watcher_step. destruct (heap s !! p); [|done].
    by destruct (watching _ && ctx_done _).
Qed.

Lemma input_sent_exec tr s s' :
  wf s → exec tr s = Some s' →
  ∃ w, ch_sent (input s') = ch_sent (input s) ++ w ∧ w `sublist_of` writes tr.
Proof.
  revert s. induction tr as [|a tr IH]; intros s Hwf; cbn [exec].
  - intros [= <-]. exists []. by rewrite app_nil_r.
  - destruct (step a s) as [s1|] eqn:E; [|done]. intros Hex.
    destruct (input_sent_step a s s1 Hwf E) as (w1 & Hw1 & Hsub1).
    destruct (IH s1 (wf_step _ _ _ Hwf E) Hex) as (w2 & Hw2 & Hsub2).
    exists (w1 ++ w2). split; [by rewrite Hw2, Hw1, app_assoc|].
    rewrite (writes_cons a tr). by apply sublist_app.
Qed.

(** X2: items reach a Consumer in the order they were written.  In every
    execution, whatever the strategy, what a Consumer has been sent is a
    subsequence of what the dispatch goroutine has received from [input],
    which is the first part of what [input] accepted, itself a subsequence
    of the items of the [Write] calls in the order they were made: nothing
    is reordered, invented, or sent twice to the same Consumer. *)
Theorem delivered_in_order kind icap ccap tr s p c :
  exec tr (NewProducer kind icap ccap) = Some s →
  heap s !! p = Some c →
  ch_sent (Messages c) `sublist_of` ch_recvd (input s)
  ∧ ch_recvd (input s) `prefix_of` ch_sent (input s)
  ∧ ch_sent (input s) `sublist_of` writes tr.
Proof.
  intros Hex Hp.
  assert (Hord : in_order s).
  { assert (Hgen : ∀ s0, wf s0 → in_order s0 → exec tr s0 = Some s → in_order s).
    { clear Hex. induction tr as [|a tr IH]; simpl; intros s0 Hwf0 Hs0.
      - by intros [= <-].
      - destruct (step a s0) as [s1|] eqn:E; [|done].
        apply IH; [by eapply wf_step|by eapply in_order_step]. }
    apply (Hgen _ (wf_NewProducer kind icap ccap)); [|done].
    exists []. split; [done|]. intros q d Hq. simpl in Hq. by rewrite lookup_nil in Hq. }
  destruct Hord as (d & Hd & Hsub). split; [|split].
  - rewrite Hd. apply sublist_inserts_r. by eapply Hsub.
  - by exists (ch_buf (input s)).
  - destruct (input_sent_exec tr _ s (wf_NewProducer kind icap ccap) Hex)
      as (w & Hw & Hsubw). by rewrite Hw.
Qed.

End Order.

(** * After the dispatch goroutine has returned *)

Section Returned.
Context {T : Type} {sorter : Sorter} {contract : SorterContract sorter}.
Implicit Types (s : State (T:=T)) (c : Consumer (T:=T)) (h : list (Consumer (T:=T))).
Implicit Types (p q : ptr) (item : T) (tr : list (Action (T:=T))).

Ltac lookup_is v :=
  match goal with
  | |- context [match ?x with Some _ => _ | None => _ end] => replace x with v
  end.

(** From [s] to [s']: the Consumers of [s] have been sent nothing more,
    and those allocated since have been sent nothing. *)
Lemma frozen_heap_le h h' :
  heap_le same_sent h h' →
  ∀ p c', h' !! p = Some c' →
    ch_sent (Messages c')
    = match h !! p with Some c => ch_sent (Messages c) | None => [] end.
Proof.
  intros Hle p c' Hp. destruct (heap_le_back _ _ _ _ _ Hle Hp) as (c & -> & Heq).
  exact Heq.
Qed.

Lemma returned_step a s s' :
  wf s → pc s = Returned → step a s = Some s' →
  pc s' = Returned
  ∧ ch_recvd (input s') = ch_recvd (input s)
  ∧ length (heap s) ≤ length (heap s')
  ∧ ∀ p c', heap s' !! p = Some c' →
      ch_sent (Messages c')
      = match heap s !! p with Some c => ch_sent (Messages c) | None => [] end.
Proof.
  intros Hwf Hpc.
  assert (Hq0 : ch_recvq (input s) = 0).
  { destruct (ch_recvq (input s)) eqn:E; [done|].
    assert (pc s = AtSelect) by (apply (wf_parked s Hwf); lia). congruence. }
  assert (Hsame : pc s = Returned
            ∧ ch_recvd (input s) = ch_recvd (input s)
            ∧ length (heap s) ≤ length (heap s)
            ∧ ∀ p c', heap s !! p = Some c' →
                ch_sent (Messages c')
                = match heap s !! p with Some c => ch_sent (Messages c) | None => [] end).
  { split_and!; try done. by intros p c' ->. }
  assert (Hheap : ∀ h, heap_le same_sent (heap s) h →
            pc (upd_heap s h) = Returned
            ∧ ch_recvd (input (upd_heap s h)) = ch_recvd (input s)
            ∧ length (heap s) ≤ length (heap (upd_heap s h))
            ∧ ∀ p c', heap (upd_heap s h) !! p = Some c' →
                ch_sent (Messages c')
                = match heap s !! p with Some c => ch_sent (Messages c) | None => [] end).
  { intros h Hle. split_and!; try done.
    - simpl. destruct Hle as [-> _]. done.
    - by apply frozen_heap_le. }
  destruct a; simpl.
  - intros [= <-]. unfold Write. destruct (go_select _ rnd) as [[]|]; simpl; try done.
    unfold send_input, chansend. rewrite Hq0. simpl. split_and!; try done.
    by intros p c' ->.
  - intros [= <-]. simpl. split_and!; try done.
    + rewrite length_app. lia.
    + intros p c' Hp. apply lookup_app_Some in Hp as [Hp|[Hge Hp]]; [by lookup_is (Some c')|].
      apply list_lookup_singleton_Some in Hp as [_ <-].
      lookup_is (@None (Consumer (T:=T))); [done|]. symmetry. by apply lookup_ge_None.
  - unfold Close, close_done. destruct (closeOnce s); [by intros [= <-]|]. simpl.
    destruct (done s); [done|]. intros [= <-]. rewrite Hq0. simpl.
    split_and!; try done. by intros p c' ->.
  - intros [= <-]. apply Hheap, same_queue_sent, Consumer_Close_queue.
  - intros [= <-]. apply Hheap, same_queue_sent, ctx_cancel_queue.
  - intros [= <-]. destruct (read_step_sent p s) as (h & -> & Hle). by apply Hheap.
  - intros [= <-]. unfold loop_step. destruct (dispatcher s); [|done]. by rewrite Hpc.
  - intros [= <-]. unfold shutdown_step. destruct (done s && closer s); [|done].
    by destruct (Hheap _ (same_queue_sent _ _ (shutdown_queue (consumers s) (heap s))))
      as (?&?&?&?).
  - intros [= <-]. unfold watcher_step. destruct (heap s !! p) as [c|] eqn:Hp; [|done].
    destruct (watching c && ctx_done c); [|done].
    by destruct (Hheap _ (stop_watcher_sent _ _ _ Hp)) as (?&?&?&?).
Qed.

(** X3: once the dispatch goroutine has returned nothing is delivered any
    more.  From a state in which it has returned, whatever runs afterwards
    (further writes included), it stays returned, takes nothing more from
    [input], the Consumers that exist keep exactly what they had been sent,
    and Consumers created later are sent nothing. *)
Theorem returned_is_final kind icap ccap s tr s' :
  reachable kind icap ccap s →
  pc s = Returned →
  exec tr s = Some s' →
  pc s' = Returned
  ∧ ch_recvd (input s') = ch_recvd (input s)
  ∧ ∀ p c', heap s' !! p = Some c' →
      ch_sent (Messages c')
      = match heap s !! p with Some c => ch_sent (Messages c) | None => [] end.
Proof.
  intros Hreach. pose proof (wf_reachable _ _ _ _ Hreach) as Hwf. clear Hreach.
  revert s Hwf. induction tr as [|a tr IH]; simpl; intros s Hwf Hpc.
  - intros [= <-]. split_and!; try done. by intros p c' ->.
  - destruct (step a s) as [s1|] eqn:E; [|done]. intros Hex.
    destruct (returned_step a s s1 Hwf Hpc E) as (Hpc1 & Hrec1 & Hlen1 & Hsent1).
    destruct (IH s1 (wf_step _ _ _ Hwf E) Hpc1 Hex) as (Hpc' & Hrec' & Hsent').
    split_and!; [done|congruence|].
    intros p c' Hp. rewrite (Hsent' p c' Hp).
    destruct (heap s1 !! p) as [c1|] eqn:Hp1; [by apply Hsent1|].
    apply lookup_ge_None in Hp1.
    lookup_is (@None (Consumer (T:=T))); [done|]. symmetry. apply lookup_ge_None. lia.
Qed.

End Returned.

(** * Shutdown *)

Section Shutdown.
Context {T : Type} {sorter : Sorter} {contract : SorterContract sorter}.
Implicit Types (s : State (T:=T)) (c : Consumer (T:=T)) (h : list (Consumer (T:=T))).
Implicit Types (p q : ptr) (item : T) (tr : list (Action (T:=T))).

(** [Close] of a Consumer fires [cancel] the first time and is without
    effect afterwards; this is what it makes of a Consumer. *)
Lemma Consumer_Close_lookup h p q :
  Consumer_Close h p !! q
  = if decide (q = p)
    then (λ c, if c_closeOnce c then c
               else mkConsumer (c_id c) (Messages c) (lastUsed c) true true (watching c))
           <$> h !! q
    else h !! q.
Proof.
  unfold Consumer_Close. destruct (decide (q = p)) as [->|Hne].
  - destruct (h !! p) as [c|] eqn:Hp; simpl; [|by rewrite Hp].
    destruct (c_closeOnce c); [by rewrite Hp|].
    apply list_lookup_insert_eq. by eapply lookup_lt_Some.
  - destruct (h !! p) as [c|]; [|done].
    destruct (c_closeOnce c); [done|]. by apply list_lookup_insert_ne.
Qed.

(** A Consumer whose [Close] has fired is cancelled. *)
Lemma closed_stable : stable (λ c, c_closeOnce c = true → ctx_done c = true).
Proof. split; try done. Qed.

Lemma fold_Consumer_Close_cancels (l : list ptr) h p c :
  (∀ q d, h !! q = Some d → c_closeOnce d = true → ctx_done d = true) →
  p ∈ l → h !! p = Some c →
  ∃ c', fold_left Consumer_Close l h !! p = Some c'
        ∧ ctx_done c' = true ∧ c_closeOnce c' = true
        ∧ (c_id c', Messages c', lastUsed c', watching c')
          = (c_id c, Messages c, lastUsed c, watching c).
Proof.
  revert h c. induction l as [|q l IH]; intros h c Hh Hp Hc; [by apply elem_of_nil in Hp|].
  simpl.
  assert (Hh' : ∀ q0 d, Consumer_Close h q !! q0 = Some d →
                c_closeOnce d = true → ctx_done d = true).
  { intros q0 d. rewrite Consumer_Close_lookup.
    destruct (decide (q0 = q)) as [->|_]; [|apply Hh].
    destruct (h !! q) as [e|] eqn:He; [|done]. simpl.
    destruct (c_closeOnce e) eqn:Ee; intros [= <-]; [|done]. intros _. by eapply Hh. }
  destruct (decide (p = q)) as [->|Hne].
  - assert (Hq : Consumer_Close h q !! q
                 = Some (if c_closeOnce c then c
                         else mkConsumer (c_id c) (Messages c) (lastUsed c) true true
                                         (watching c))).
    { rewrite Consumer_Close_lookup, decide_True by done. by rewrite Hc. }
    destruct (decide (q ∈ l)) as [Hin|Hnin].
    + destruct (IH _ _ Hh' Hin Hq) as (c' & Hc' & Hd & Ho & Heq).
      exists c'. split_and!; try done. rewrite Heq. by destruct (c_closeOnce c).
    + assert (Hkeep : ∀ l0 h0, q ∉ l0 → fold_left Consumer_Close l0 h0 !! q = h0 !! q).
      { clear. induction l0 as [|r l0 IH]; intros h0 Hni; [done|]. simpl.
        apply not_elem_of_cons in Hni as [Hne Hni].
        rewrite IH by done. rewrite Consumer_Close_lookup. by rewrite decide_False. }
      rewrite Hkeep, Hq by done. eexists. split; [done|].
      destruct (c_closeOnce c) eqn:E; simpl; split_and!; try done. by eapply Hh.
  - apply elem_of_cons in Hp as [?|Hp]; [done|]. apply IH; [done|done|].
    rewrite Consumer_Close_lookup. by rewrite decide_False.
Qed.

(** The watchers of cancelled, registered Consumers, run one after the
    other, remove exactly those Consumers. *)
Lemma watchers_remove (l : list ptr) s :
  wf s → NoDup l →
  (∀ p, p ∈ l → ∃ c, heap s !! p = Some c ∧ watching c = true ∧ ctx_done c = true) →
  ∃ s', exec (AWatcher <$> l) s = Some s'
        ∧ (∀ q, q ∈ consumers s' ↔ q ∈ consumers s ∧ q ∉ l)
        ∧ done s' = done s ∧ closer s' = closer s.
Proof.
  revert s. induction l as [|p l IH]; intros s Hwf Hnd Hl; simpl.
  - exists s. split; [done|]. split; [|done]. intros q. split; [|by intros [? _]].
    intros Hq. split; [done|]. by intros ?%elem_of_nil.
  - apply NoDup_cons in Hnd as [Hp Hnd].
    destruct (Hl p) as (c & Hc & Hw & Hd); [by left|].
    assert (Hstep : watcher_step p s
              = upd_consumers (upd_heap s (<[p := stop_watcher c]> (heap s)))
                              (removeConsumer p (consumers s))).
    { unfold watcher_step. by rewrite Hc, Hw, Hd. }
    destruct (IH (watcher_step p s)) as (s' & Hex & Hreg & Hdone & Hcl).
    + by apply wf_watcher_step.
    + done.
    + intros q Hq. destruct (Hl q) as (d & Hd' & ? & ?); [by right|].
      exists d. rewrite Hstep. simpl. rewrite list_lookup_insert_ne; [done|].
      by intros ->.
    + exists s'. split; [done|]. rewrite Hstep in Hreg, Hdone, Hcl. simpl in *.
      split; [|done]. intros q. rewrite Hreg.
      rewrite removeConsumer_elem_of by apply Hwf. rewrite not_elem_of_cons. tauto.
Qed.

(** X4: shutdown empties the registry.  Once [done] is closed, the shutdown
    goroutine's pass leaves every registered Consumer cancelled, with its
    [Close] fired and its queue and [lastUsed] untouched, and the registry
    as it was; the watchers of those Consumers, run in any order, then
    leave the registry empty. *)
Theorem shutdown_empties_registry kind icap ccap s (order : list ptr) :
  reachable kind icap ccap s →
  done s = true → closer s = true →
  order ≡ₚ consumers s →
  let s1 := shutdown_step s in
  closer s1 = false
  ∧ consumers s1 = consumers s
  ∧ (∀ p c, p ∈ consumers s → heap s !! p = Some c →
       ∃ c', heap s1 !! p = Some c'
             ∧ ctx_done c' = true ∧ c_closeOnce c' = true
             ∧ (c_id c', Messages c', lastUsed c', watching c')
               = (c_id c, Messages c, lastUsed c, watching c))
  ∧ ∃ s2, exec (AWatcher <$> order) s1 = Some s2 ∧ consumers s2 = [].
Proof.
  intros Hreach Hd Hcl Hperm s1.
  pose proof (wf_reachable _ _ _ _ Hreach) as Hwf.
  pose proof (stable_reachable _ _ _ _ _ closed_stable Hreach) as Hclosed.
  assert (Hs1 : s1 = upd_closer (upd_heap s (fold_left Consumer_Close (consumers s) (heap s)))
                                false).
  { subst s1. unfold shutdown_step. by rewrite Hd, Hcl. }
  assert (Hcanc : ∀ p c, p ∈ consumers s → heap s !! p = Some c →
            ∃ c', heap s1 !! p = Some c'
                  ∧ ctx_done c' = true ∧ c_closeOnce c' = true
                  ∧ (c_id c', Messages c', lastUsed c', watching c')
                    = (c_id c, Messages c, lastUsed c, watching c)).
  { intros p c Hp Hc. rewrite Hs1. simpl.
    apply fold_Consumer_Close_cancels; try done. }
  split; [by rewrite Hs1|]. split; [by rewrite Hs1|]. split; [done|].
  assert (Hwf1 : wf s1) by (subst s1; by apply wf_shutdown_step).
  destruct (watchers_remove order s1 Hwf1) as (s2 & Hex & Hreg & _).
  - rewrite Hperm. apply Hwf.
  - intros p Hp. rewrite Hperm in Hp.
    destruct (heap s !! p) as [c|] eqn:Hc.
    + destruct (Hcanc p c Hp Hc) as (c' & Hc' & Hd' & _ & Heq).
      exists c'. split; [done|]. split; [|done].
      injection Heq as _ _ _ ->. by apply (wf_watch s Hwf p c Hc).
    + apply lookup_ge_None in Hc. pose proof (wf_reg s Hwf p Hp). lia.
  - exists s2. split; [done|].
    destruct (consumers s2) as [|q l]; [done|].
    destruct (proj1 (Hreg q)) as [Hq Hnot]; [by left|].
    rewrite Hs1 in Hq. simpl in Hq. by rewrite Hperm in Hnot.
Qed.

Ltac unchanged Hc Hctx := change ptr with nat in *; rewrite Hc; simpl; by rewrite Hctx.

(** The shutdown goroutine makes one pass only. *)
Lemma closer_step a s s' : closer s = false → step a s = Some s' → closer s' = false.
Proof.
  intros Hcl. destruct a; simpl; try (by intros [= <-]).
  - intros [= <-]. unfold Write. destruct (go_select _ rnd) as [[]|]; simpl; try done.
    unfold send_input. by destruct (0 <? ch_recvq (input s)).
  - unfold Close, close_done. destruct (closeOnce s); [by intros [= <-]|]. simpl.
    destruct (done s); [done|]. intros [= <-]. by destruct (0 <? ch_recvq (input s)).
  - intros [= <-]. by destruct (read_step_shape p s) as (h & -> & _).
  - intros [= <-]. unfold loop_step. destruct (dispatcher s) as [g|]; [|done].
    destruct (pc s) as [|item|]; [| |done].
    + destruct (0 <? ch_recvq (input s)); [done|].
      destruct (go_select _ rnd) as [[]|]; try done.
      by destruct (chanrecv (input s)) as [[]|].
    + by destruct (deliver_shape g item rnd now (upd_pc s AtSelect)) as (l & h & -> & _).
  - intros [= <-]. unfold shutdown_step. by destruct (done s && closer s).
  - intros [= <-]. unfold watcher_step. destruct (heap s !! p); [|done].
    by destruct (watching _ && ctx_done _).
Qed.

(** While the shutdown goroutine cannot make its pass ([done] is open, or
    the pass is over), only its caller cancels a Consumer, and a Consumer
    that is not cancelled stays registered. *)
Lemma uncancelled_step p a s s' :
  wf s → done s && closer s = false → not_cancelling p a →
  p ∈ consumers s → ctx_done <$> heap s !! p = Some false →
  step a s = Some s' →
  p ∈ consumers s' ∧ ctx_done <$> heap s' !! p = Some false.
Proof.
  intros Hwf Hcl Hnc Hreg Hctx.
  destruct (heap s !! p) as [c|] eqn:Hc; [|done]. injection Hctx as Hctx.
  destruct a; simpl in *.
  - intros [= <-]. unfold Write. destruct (go_select _ rnd) as [[]|]; simpl;
      try (unchanged Hc Hctx).
    unfold send_input. destruct (0 <? ch_recvq (input s)); simpl;
      unchanged Hc Hctx.
  - intros [= <-]. simpl. split; [apply elem_of_app; by left|].
    rewrite (lookup_app_l_Some _ _ _ _ Hc). simpl. by rewrite Hctx.
  - unfold Close, close_done.
    destruct (closeOnce s); [intros [= <-]; unchanged Hc Hctx|].
    simpl. destruct (done s); [done|]. intros [= <-].
    destruct (0 <? ch_recvq (input s)); simpl; unchanged Hc Hctx.
  - intros [= <-]. simpl. rewrite Consumer_Close_lookup_ne by done. unchanged Hc Hctx.
  - intros [= <-]. simpl. rewrite ctx_cancel_lookup_ne by done. unchanged Hc Hctx.
  - intros [= <-]. unfold read_step. destruct (heap s !! p0) as [d|] eqn:Hd0;
      [|unchanged Hc Hctx].
    destruct (decide (p0 = p)) as [->|Hne].
    + assert (d = c) as -> by congruence.
      destruct (chanrecv (Messages c)) as [[x ch]|]; simpl;
        rewrite list_lookup_insert_eq by (by eapply lookup_lt_Some); simpl;
        by rewrite Hctx.
    + destruct (chanrecv (Messages d)) as [[x ch]|]; simpl;
        rewrite list_lookup_insert_ne by done; unchanged Hc Hctx.
  - intros [= <-]. unfold loop_step. destruct (dispatcher s) as [g|]; [|unchanged Hc Hctx].
    destruct (pc s) as [|item|] eqn:Epc; [| |unchanged Hc Hctx].
    + destruct (0 <? ch_recvq (input s)); [unchanged Hc Hctx|].
      destruct (go_select _ rnd) as [[]|]; simpl; try (unchanged Hc Hctx).
      destruct (chanrecv (input s)) as [[]|]; simpl; unchanged Hc Hctx.
    + assert (Hwf1 : wf (upd_pc s AtSelect)) by by eapply wf_upd_pc_AtSelect.
      destruct (deliver_shape g item rnd now (upd_pc s AtSelect)) as (l & h & Heq & Hl & _).
      pose proof (deliver_cases (upd_pc s AtSelect) g item rnd now p c Hwf1 Hc) as Hcases.
      rewrite Heq in *. simpl in *. split; [by rewrite Hl|].
      destruct Hcases as [->|(_ & _ & i & _ & ->)]; simpl; by rewrite Hctx.
  - intros [= <-]. unfold shutdown_step. rewrite Hcl. unchanged Hc Hctx.
  - intros [= <-]. unfold watcher_step. destruct (heap s !! p0) as [d|] eqn:Hd0;
      [|unchanged Hc Hctx].
    destruct (watching d && ctx_done d) eqn:E; [|unchanged Hc Hctx].
    assert (Hne : p0 ≠ p).
    { intros ->. assert (d = c) as -> by congruence.
      rewrite Hctx in E. by rewrite andb_false_r in E. }
    simpl. split.
    + apply removeConsumer_elem_of; [apply Hwf|done].
    + rewrite list_lookup_insert_ne by done. unchanged Hc Hctx.
Qed.

(** X5: a Consumer created after the shutdown goroutine has made its pass
    is never cancelled by the Producer.  Unless its caller cancels it, it
    stays registered and not cancelled whatever runs afterwards, further
    calls of [Close] included. *)
Theorem late_consumer_never_cancelled kind icap ccap s id now tr s' :
  reachable kind icap ccap s →
  closer s = false →
  let p := fst (CreateConsumer id false now s) in
  Forall (not_cancelling p) tr →
  exec tr (snd (CreateConsumer id false now s)) = Some s' →
  done s' = true
  ∧ p ∈ consumers s'
  ∧ ctx_done <$> heap s' !! p = Some false.
Proof.
  intros Hreach Hcl p Hnc Hex.
  pose proof (wf_reachable _ _ _ _ Hreach) as Hwf.
  assert (Hdone : done s = true).
  { destruct Hreach as [tr0 Htr0].
    assert (Hgen : ∀ s0, (closer s0 = false → done s0 = true) →
                   exec tr0 s0 = Some s → closer s = false → done s = true);
      [|by apply (Hgen (NewProducer kind icap ccap))].
    clear -contract. induction tr0 as [|a tr0 IH]; simpl; intros s0 Hs0; [by intros [= <-]|].
    destruct (step a s0) as [s1|] eqn:E; [|done]. apply IH.
    destruct a; simpl in E; try (injection E as <-); try done.
    - unfold Write. destruct (go_select _ rnd) as [[]|]; simpl; try done.
      unfold send_input. by destruct (0 <? ch_recvq (input s0)).
    - unfold Close, close_done in E. destruct (closeOnce s0); [by injection E as <-|].
      simpl in E. destruct (done s0); [done|]. injection E as <-.
      by destruct (0 <? ch_recvq (input s0)).
    - unfold read_step. destruct (heap s0 !! p); [|done].
      by destruct (chanrecv _) as [[]|].
    - unfold loop_step. destruct (dispatcher s0) as [g|]; [|done].
      destruct (pc s0) as [|item|]; [| |done].
      + destruct (0 <? ch_recvq (input s0)); [done|].
        destruct (go_select _ rnd) as [[]|]; try done.
        by destruct (chanrecv (input s0)) as [[]|].
      + by destruct (deliver_shape g item rnd now (upd_pc s0 AtSelect)) as (l & h & -> & _).
    - unfold shutdown_step. destruct (done s0 && closer s0) eqn:E; [|done].
      simpl. intros _. by apply andb_true_iff in E as [? _].
    - unfold watcher_step. destruct (heap s0 !! p); [|done].
      by destruct (watching _ && ctx_done _). }
  set (s1 := snd (CreateConsumer id false now s)) in *.
  assert (Hwf1 : wf s1) by by apply wf_CreateConsumer.
  assert (Hreg1 : p ∈ consumers s1).
  { subst s1 p. simpl. apply elem_of_app. right. by left. }
  assert (Hctx1 : ctx_done <$> heap s1 !! p = Some false).
  { subst s1 p. simpl. rewrite lookup_app_r by done. by rewrite Nat.sub_diag. }
  assert (Hcl1 : closer s1 = false) by done.
  assert (Hd1 : done s1 = true) by done.
  split; [by eapply exec_done|].
  clear Hd1 Hdone Hreach Hwf Hcl. revert Hwf1 Hreg1 Hctx1 Hcl1 Hex.
  generalize s1. clear s1. intros s1. revert s1.
  induction tr as [|a tr IH]; simpl; intros s1 Hwf1 Hreg1 Hctx1 Hcl1.
  - by intros [= <-].
  - destruct (step a s1) as [s2|] eqn:E; [|done].
    apply Forall_cons in Hnc as [Ha Hnc].
    destruct (uncancelled_step p a s1 s2 Hwf1) as (Hreg2 & Hctx2); try done.
    { by rewrite Hcl1, andb_false_r. }
    apply IH; try done; [by eapply wf_step|by eapply closer_step].
Qed.

End Shutdown.

(** * Single and LRU: each item to one Consumer *)

Section OneConsumer.
Context {T : Type} {sorter : Sorter} {contract : SorterContract sorter}.
Implicit Types (s : State (T:=T)) (c : Consumer (T:=T)) (h : list (Consumer (T:=T))).
Implicit Types (p q : ptr) (item : T) (tr : list (Action (T:=T))).

Lemma all_sent_heap_le h h' : heap_le same_sent h h' → all_sent h' = all_sent h.
Proof.
  intros [Hlen Hle]. revert h' Hlen Hle.
  induction h as [|c h IH]; intros [|c' h'] Hlen Hle; try done.
  unfold all_sent. rewrite !bind_cons. f_equal.
  - destruct (Hle 0 c eq_refl) as (c2 & [= <-] & Heq). exact Heq.
  - apply IH; [by injection Hlen|]. intros q d Hq. exact (Hle (S q) d Hq).
Qed.

Lemma all_sent_snoc_new h id parent_done now size :
  all_sent (h ++ [start_watcher (newConsumer (T:=T) id parent_done now size)]) = all_sent h.
Proof. unfold all_sent. rewrite bind_app. simpl. by rewrite app_nil_r. Qed.

Lemma all_sent_insert h p c c' w :
  h !! p = Some c → ch_sent (Messages c') = ch_sent (Messages c) ++ w →
  all_sent (<[p := c']> h) ≡ₚ all_sent h ++ w.
Proof.
  intros Hp Hw. rewrite insert_take_drop by by eapply lookup_lt_Some.
  rewrite <-(take_drop_middle h p c Hp) at 3.
  unfold all_sent. rewrite !bind_app, !bind_cons, Hw, <-!app_assoc.
  do 2 f_equiv. apply Permutation_app_comm.
Qed.

(** The push adds the item to what the Consumers have been sent when the
    Consumer offered to has room, and nothing otherwise. *)
Lemma all_sent_offer item now h p :
  (∀ q c, h !! q = Some c → chan_ok (Messages c)) →
  all_sent (offer item now h p)
  ≡ₚ all_sent h ++ match h !! p with
                   | Some c => if can_send (Messages c) then [item] else []
                   | None => []
                   end.
Proof.
  intros Hok. unfold offer. destruct (h !! p) as [c|] eqn:Hp; [|by rewrite app_nil_r].
  destruct (can_send (Messages c)); [|by rewrite app_nil_r].
  eapply all_sent_insert; [done|]. simpl. by eapply chansend_sent, Hok.
Qed.

(** [goroutine_Producer_single] and [goroutine_Producer_lru] offer the item
    to one registered Consumer when there is one; [w] is what the Consumers
    receive. *)
Lemma deliver_one g item rnd now s :
  wf s → g ≠ goroutine_Producer_all →
  ∃ w, all_sent (heap (deliver g item rnd now s)) ≡ₚ all_sent (heap s) ++ w
       ∧ (w = [] ∨ w = [item])
       ∧ (consumers s ≠ [] →
          (∀ q c, q ∈ consumers s → heap s !! q = Some c → can_send (Messages c) = true) →
          w = [item]).
Proof.
  intros Hwf Hg.
  assert (Hat : ∀ q, q ∈ consumers s →
            ∃ w, all_sent (offer item (now 0) (heap s) q) ≡ₚ all_sent (heap s) ++ w
                 ∧ (w = [] ∨ w = [item])
                 ∧ (consumers s ≠ [] →
                    (∀ q c, q ∈ consumers s → heap s !! q = Some c →
                       can_send (Messages c) = true) →
                    w = [item])).
  { intros q Hq. eexists. split; [apply all_sent_offer, Hwf|].
    destruct (heap s !! q) as [c|] eqn:Hc.
    - destruct (can_send (Messages c)) eqn:Ec; (split; [auto|]); [done|].
      intros _ Hroom. rewrite (Hroom q c Hq Hc) in Ec. done.
    - apply lookup_ge_None in Hc. pose proof (wf_reg s Hwf q Hq). lia. }
  assert (Hnone : consumers s = [] →
            ∃ w, all_sent (heap s) ≡ₚ all_sent (heap s) ++ w
                 ∧ (w = [] ∨ w = [item])
                 ∧ (consumers s ≠ [] →
                    (∀ q c, q ∈ consumers s → heap s !! q = Some c →
                       can_send (Messages c) = true) →
                    w = [item])).
  { intros Hnil. exists []. rewrite app_nil_r. split; [done|]. split; [auto|done]. }
  destruct g; [| |done]; simpl.
  - unfold deliver_single. destruct (0 <? length (consumers s)) eqn:E.
    + apply Nat.ltb_lt in E.
      destruct (consumers s !! (rnd `mod` length (consumers s))) as [q|] eqn:Eq.
      * simpl. apply Hat. by eapply list_elem_of_lookup_2.
      * apply lookup_ge_None in Eq.
        pose proof (Nat.mod_upper_bound rnd (length (consumers s))) as Hlt. lia.
    + apply Hnone. apply Nat.ltb_ge in E. destruct (consumers s); [done|simpl in E; lia].
  - destruct (decide (consumers s = [])) as [Hnil|Hne].
    + assert (deliver_lru item (now 0) s = s) as ->; [|by apply Hnone].
      unfold deliver_lru. by rewrite Hnil.
    + destruct (deliver_lru_head s item (now 0) Hne) as (lru & Hlru & ->). simpl.
      apply Hat. rewrite <-(sort_by_perm _ (Less (heap s)) (consumers s)).
      by eapply list_elem_of_lookup_2.
Qed.

(** One step under Single or LRU: [r] is what the dispatch goroutine
    receives from [input], [dropped] the item it drops, which happens only
    when the registry is empty or the Consumer offered to is full. *)
Lemma delivery_step a s s' :
  wf s → dispatcher s ≠ Some goroutine_Producer_all →
  step a s = Some s' →
  ∃ r dropped,
    ch_recvd (input s') = ch_recvd (input s) ++ r
    ∧ all_sent (heap s') ++ held s' ++ dropped ≡ₚ all_sent (heap s) ++ held s ++ r
    ∧ (dropped = []
       ∨ dropped = held s
         ∧ ¬ (consumers s ≠ []
              ∧ ∀ q c, q ∈ consumers s → heap s !! q = Some c →
                  can_send (Messages c) = true)).
Proof.
  intros Hwf Hg. revert s'.
  assert (Hsame : ∀ s', all_sent (heap s') = all_sent (heap s) → held s' = held s →
            ch_recvd (input s') = ch_recvd (input s) →
            ∃ r dropped,
              ch_recvd (input s') = ch_recvd (input s) ++ r
              ∧ all_sent (heap s') ++ held s' ++ dropped
                ≡ₚ all_sent (heap s) ++ held s ++ r
              ∧ (dropped = []
                 ∨ dropped = held s
                   ∧ ¬ (consumers s ≠ []
                        ∧ ∀ q c, q ∈ consumers s → heap s !! q = Some c →
                            can_send (Messages c) = true))).
  { intros s' -> -> ->. exists [], []. rewrite app_nil_r.
    split; [done|]. split; [done|auto]. }
  assert (Hheap : ∀ h, heap_le same_sent (heap s) h →
            ∃ r dropped,
              ch_recvd (input (upd_heap s h)) = ch_recvd (input s) ++ r
              ∧ all_sent (heap (upd_heap s h)) ++ held (upd_heap s h) ++ dropped
                ≡ₚ all_sent (heap s) ++ held s ++ r
              ∧ (dropped = []
                 ∨ dropped = held s
                   ∧ ¬ (consumers s ≠ []
                        ∧ ∀ q c, q ∈ consumers s → heap s !! q = Some c →
                            can_send (Messages c) = true))).
  { intros h Hle. apply Hsame; try done. simpl. by apply all_sent_heap_le. }
  assert (Hparked : 0 < ch_recvq (input s) → held s = []).
  { intros Hq. unfold held. by rewrite (wf_parked s Hwf Hq). }
  intros s'. destruct a; simpl.
  - intros [= <-]. unfold Write. destruct (go_select _ rnd) as [[]|]; simpl;
      try (by apply Hsame).
    unfold send_input, chansend.
    destruct (0 <? ch_recvq (input s)) eqn:E; [|by apply Hsame].
    apply Nat.ltb_lt in E. rewrite (Hparked E).
    exists [item], []. unfold held. simpl. split; [done|]. split; [done|auto].
  - intros [= <-]. apply Hsame; try done. simpl. apply all_sent_snoc_new.
  - unfold Close, close_done. destruct (closeOnce s); [intros [= <-]; by apply Hsame|].
    simpl. destruct (done s); [done|]. intros [= <-].
    destruct (0 <? ch_recvq (input s)) eqn:E; [|by apply Hsame].
    apply Nat.ltb_lt in E. exists [], []. rewrite (Hparked E). unfold held. simpl.
    rewrite !app_nil_r. split; [done|]. split; [done|auto].
  - intros [= <-]. apply Hheap, same_queue_sent, Consumer_Close_queue.
  - intros [= <-]. apply Hheap, same_queue_sent, ctx_cancel_queue.
  - intros [= <-]. destruct (read_step_sent p s) as (h & -> & Hle). by apply Hheap.
  - intros [= <-]. unfold loop_step. destruct (dispatcher s) as [g|]; [|by apply Hsame].
    destruct (pc s) as [|item|] eqn:Epc; [| |by apply Hsame].
    + destruct (0 <? ch_recvq (input s)); [by apply Hsame|].
      destruct (go_select _ rnd) as [[]|].
      * unfold chanrecv. destruct (ch_buf (input s)) as [|y b]; [by apply Hsame|].
        exists [y], []. unfold held. rewrite Epc. simpl. split; [done|]. split; [done|auto].
      * exists [], []. unfold held. rewrite Epc. simpl. rewrite !app_nil_r.
        split; [done|]. split; [done|auto].
      * by apply Hsame.
    + assert (Hwf1 : wf (upd_pc s AtSelect)) by by eapply wf_upd_pc_AtSelect.
      destruct (deliver_one g item rnd now (upd_pc s AtSelect) Hwf1)
        as (w & Hw & Hor & Hfull).
      { congruence. }
      assert (Hin : input (deliver g item rnd now (upd_pc s AtSelect)) = input s
                    ∧ held (deliver g item rnd now (upd_pc s AtSelect)) = []).
      { by destruct (deliver_shape g item rnd now (upd_pc s AtSelect)) as (l & h & -> & _). }
      destruct Hin as [-> ->]. unfold held. rewrite Epc. simpl in *.
      destruct Hor as [->| ->].
      * exists [], [item]. rewrite Hw, !app_nil_r. split; [done|]. split; [done|].
        right. split; [done|]. intros [Hne Hroom]. by specialize (Hfull Hne Hroom).
      * exists [], []. rewrite Hw, !app_nil_r. split; [done|]. split; [done|auto].
  - intros [= <-]. unfold shutdown_step. destruct (done s && closer s); [|by apply Hsame].
    apply (Hheap _ (same_queue_sent _ _ (shutdown_queue (consumers s) (heap s)))).
  - intros [= <-]. unfold watcher_step. destruct (heap s !! p) as [c|] eqn:Hp;
      [|by apply Hsame].
    destruct (watching c && ctx_done c); [|by apply Hsame].
    apply Hsame; try done. simpl. apply all_sent_heap_le. by apply stop_watcher_sent.
Qed.

Lemma at_most_once_step a s s' :
  wf s → dispatcher s ≠ Some goroutine_Producer_all →
  all_sent (heap s) ++ held s ⊆+ ch_recvd (input s) →
  step a s = Some s' →
  all_sent (heap s') ++ held s' ⊆+ ch_recvd (input s').
Proof.
  intros Hwf Hg Hs Hstep.
  destruct (delivery_step a s s' Hwf Hg Hstep) as (r & dropped & -> & Hperm & _).
  trans ((all_sent (heap s') ++ held s') ++ dropped); [by apply submseteq_inserts_r|].
  rewrite <-app_assoc, Hperm, app_assoc. by apply submseteq_app.
Qed.

Lemma dispatcher_reachable kind icap ccap s :
  reachable kind icap ccap s →
  dispatcher s = dispatcher (NewProducer (T:=T) kind icap ccap).
Proof.
  intros [tr Htr]. apply exec_params in Htr. by injection Htr.
Qed.

Lemma at_most_once_reachable kind icap ccap s :
  kind ≠ ProducerKind_All → reachable kind icap ccap s →
  all_sent (heap s) ++ held s ⊆+ ch_recvd (input s).
Proof.
  intros Hkind Hreach.
  assert (Hg : dispatcher (NewProducer (T:=T) kind icap ccap)
               ≠ Some goroutine_Producer_all).
  { simpl. destruct (kind =? ProducerKind_Single)%Z; [done|].
    destruct (kind =? ProducerKind_LRU)%Z; [done|].
    destruct (kind =? ProducerKind_All)%Z eqn:E; [|done].
    apply Z.eqb_eq in E. done. }
  destruct Hreach as [tr Htr].
  assert (Hgen : ∀ s0, wf s0 → dispatcher s0 ≠ Some goroutine_Producer_all →
            all_sent (heap s0) ++ held s0 ⊆+ ch_recvd (input s0) →
            exec tr s0 = Some s →
            all_sent (heap s) ++ held s ⊆+ ch_recvd (input s)).
  { clear Htr. induction tr as [|a tr IH]; simpl; intros s0 Hwf0 Hg0 Hs0.
    - by intros [= <-].
    - destruct (step a s0) as [s1|] eqn:E; [|done].
      apply IH; [by eapply wf_step| |by eapply at_most_once_step].
      apply step_params in E. injection E as _ _ ->. done. }
  apply (Hgen _ (wf_NewProducer kind icap ccap) Hg); [|done]. done.
Qed.

(** X6: under Single and LRU no item is delivered twice.  In every state of
    every execution, the items sent to all the Consumers together, with the
    one the dispatch goroutine is holding, are items it received from
    [input], each as often at most as it was received: an item goes to one
    Consumer or to none. *)
Theorem single_lru_at_most_once kind icap ccap s :
  kind ≠ ProducerKind_All →
  reachable kind icap ccap s →
  all_sent (heap s) ++ held s ⊆+ ch_recvd (input s)
  ∧ length (all_sent (heap s)) + length (held s) ≤ length (ch_recvd (input s)).
Proof.
  intros Hkind Hreach.
  pose proof (at_most_once_reachable kind icap ccap s Hkind Hreach) as Hsub.
  split; [done|]. apply submseteq_length in Hsub. by rewrite length_app in Hsub.
Qed.

(** While the dispatch goroutine holds an item, every Consumer has room
    when the queues can take everything received so far. *)
Lemma holding_room s item q c :
  wf s → in_order s → pc s = Holding item →
  length (ch_recvd (input s)) ≤ consumer_buffer_size s →
  heap s !! q = Some c → can_send (Messages c) = true.
Proof.
  intros Hwf (d & Hd & Hsub) Hpc Hlen Hc.
  unfold held in Hd. rewrite Hpc in Hd. rewrite Hd, length_app in Hlen. simpl in Hlen.
  pose proof (sublist_length _ _ (Hsub q c Hc)) as Hle.
  pose proof (ch_buf_le_sent (Messages c)) as Hbuf.
  pose proof (wf_cap s Hwf q c Hc) as Hcap.
  unfold can_send. apply orb_true_iff. right. apply Nat.ltb_lt. lia.
Qed.

(** An open Producer accepts a write while [input] has room for everything
    written. *)
Lemma open_step a s s' :
  wf s → done s = false → a ≠ AClose →
  length (ch_sent (input s)) + length (writes [a]) ≤ ch_cap (input s) →
  step a s = Some s' →
  done s' = false ∧ ch_sent (input s') = ch_sent (input s) ++ writes [a].
Proof.
  intros Hwf Hd Ha Hroom Hstep.
  destruct (input_sent_step a s s' Hwf Hstep) as (w & Hw & Hsub).
  destruct a; simpl in *; try done; try (injection Hstep as <-);
    try (apply sublist_nil_r in Hsub as ->).
  - pose proof (ch_buf_le_sent (input s)) as Hbuf.
    assert (Hcan : can_send (input s) = true).
    { unfold can_send. apply orb_true_iff. right. apply Nat.ltb_lt. lia. }
    unfold Write. rewrite Hcan, Hd, go_select_first. simpl.
    split; [by rewrite (proj1 (proj2 (send_input_fields item s)))|].
    pose proof (chansend_sent (input s) item (wf_input s Hwf)) as Hsent.
    unfold send_input. by destruct (0 <? ch_recvq (input s)).
  - done.
  - done.
  - done.
  - split; [|done]. by destruct (read_step_shape p s) as (h & -> & _).
  - split; [|done]. by rewrite (proj1 (proj2 (loop_step_fields rnd now s))).
  - split; [|done]. unfold shutdown_step. by rewrite Hd.
  - split; [|done]. unfold watcher_step. destruct (heap s !! p); [|done].
    by destruct (watching _ && ctx_done _).
Qed.

Lemma serving_one_step p a s s' :
  serving_one p s → undisturbed [p] a →
  length (ch_sent (input s)) + length (writes [a]) ≤ ch_cap (input s) →
  length (ch_sent (input s)) ≤ consumer_buffer_size s →
  step a s = Some s' →
  serving_one p s' ∧ ch_sent (input s') = ch_sent (input s) ++ writes [a].
Proof.
  intros (Hwf & Hd & Hg & Hord & Hreg & Hctx & Hall) Hund Hicap Hccap Hstep.
  assert (Ha : a ≠ AClose) by (by intros ->).
  assert (Hnc : not_cancelling p a).
  { destruct a; simpl in *; try done; intros ->; apply Hund; by left. }
  assert (Hg' : dispatcher s ≠ Some goroutine_Producer_all).
  { by destruct Hg as [-> | ->]. }
  destruct (open_step a s s' Hwf Hd Ha Hicap Hstep) as [Hd' Hsent'].
  split; [|done]. unfold serving_one.
  destruct (uncancelled_step p a s s' Hwf) as [Hreg' Hctx']; try done.
  { by rewrite Hd. }
  split_and!; try done.
  - by eapply wf_step.
  - apply step_params in Hstep. injection Hstep as _ _ ->. done.
  - by eapply in_order_step.
  - destruct (delivery_step a s s' Hwf Hg' Hstep) as (r & dropped & Hr & Hperm & Hdrop).
    assert (dropped = []) as ->.
    { destruct Hdrop as [?|[-> Hnot]]; [done|].
      unfold held. destruct (pc s) as [|item|] eqn:Epc; try done.
      exfalso. apply Hnot. split; [by intros Hnil; rewrite Hnil in Hreg; apply elem_of_nil in Hreg|].
      intros q c _ Hc. eapply (holding_room s item q c); try done.
      pose proof (ch_recvd_le_sent (input s)). lia. }
    rewrite app_nil_r in Hperm. rewrite Hperm, Hr, app_assoc. by f_equiv.
Qed.

Lemma serving_one_exec p tr s s' :
  serving_one p s → Forall (undisturbed [p]) tr →
  length (ch_sent (input s)) + length (writes tr) ≤ ch_cap (input s) →
  length (ch_sent (input s)) + length (writes tr) ≤ consumer_buffer_size s →
  exec tr s = Some s' →
  serving_one p s' ∧ ch_sent (input s') = ch_sent (input s) ++ writes tr.
Proof.
  revert s. induction tr as [|a tr IH]; intros s Hs Hund Hicap Hccap; cbn [exec].
  - intros [= <-]. by rewrite app_nil_r.
  - destruct (step a s) as [s1|] eqn:E; [|done]. intros Hex.
    apply Forall_cons in Hund as [Ha Hund].
    rewrite (writes_cons a tr), length_app in Hicap, Hccap.
    destruct (serving_one_step p a s s1 Hs Ha) as [Hs1 Hsent1]; [lia|lia|done|].
    pose proof (step_params a s s1 E) as Hpar. injection Hpar as Hic Hcc _.
    destruct (IH s1 Hs1 Hund) as [Hs' Hsent']; [| |done|].
    + rewrite Hsent1, length_app, Hic. lia.
    + rewrite Hsent1, length_app, Hcc. lia.
    + split; [done|]. rewrite Hsent', Hsent1, (writes_cons a tr). by rewrite app_assoc.
Qed.

(** X7: under Single and LRU every written item reaches exactly one
    Consumer when the queues are large enough.  An open Producer of one of
    these kinds, nothing written yet, and a registered Consumer [p] that is
    not cancelled.  Writes are interleaved in any way with every other step
    of the system apart from [Close] and the cancellation of [p]; [input]
    and the Consumers' queues can hold everything written.  Then every
    write is accepted, at every moment the Consumers together (with the
    item in the dispatch goroutine's hands) have been sent exactly the items
    it has received, and once the goroutine has drained [input] the
    Consumers together have been sent exactly the written items, each
    once. *)
Theorem single_lru_exactly_once kind icap ccap s0 tr s p :
  kind = ProducerKind_Single ∨ kind = ProducerKind_LRU →
  reachable kind icap ccap s0 →
  done s0 = false →
  ch_sent (input s0) = [] →
  p ∈ consumers s0 → ctx_done <$> heap s0 !! p = Some false →
  Forall (undisturbed [p]) tr →
  length (writes tr) ≤ icap → length (writes tr) ≤ ccap →
  exec tr s0 = Some s →
  ch_sent (input s) = writes tr
  ∧ all_sent (heap s) ++ held s ≡ₚ ch_recvd (input s)
  ∧ ∃ n s', exec (replicate n (ALoop 0 (steady 0))) s = Some s'
            ∧ all_sent (heap s') ≡ₚ writes tr
            ∧ length (all_sent (heap s')) = length (writes tr).
Proof.
  intros Hkind Hreach Hd0 Hin0 Hreg0 Hctx0 Hund Hicap Hccap Hex.
  pose proof (wf_reachable _ _ _ _ Hreach) as Hwf0.
  assert (Hpar : params s0 = params (NewProducer (T:=T) kind icap ccap)).
  { destruct Hreach as [tr0 Htr0]. by apply exec_params in Htr0. }
  injection Hpar as Hic Hcc Hg.
  assert (Hg0 : dispatcher s0 = Some goroutine_Producer_single
                ∨ dispatcher s0 = Some goroutine_Producer_lru).
  { rewrite Hg. destruct Hkind as [-> | ->]; [by left|by right]. }
  assert (Hrec0 : ch_recvd (input s0) = []).
  { unfold ch_sent in Hin0. by apply app_eq_nil in Hin0 as [? _]. }
  assert (Hall0 : all_sent (heap s0) ++ held s0 ≡ₚ ch_recvd (input s0)).
  { assert (Hk : kind ≠ ProducerKind_All) by (by destruct Hkind as [-> | ->]).
    pose proof (at_most_once_reachable kind icap ccap s0 Hk Hreach) as Hsub.
    rewrite Hrec0 in *. by apply submseteq_nil_r in Hsub as ->. }
  assert (Hord0 : in_order s0).
  { destruct Hreach as [tr0 Htr0].
    assert (Hgen : ∀ s1, wf s1 → in_order s1 → exec tr0 s1 = Some s0 → in_order s0).
    { clear -contract. induction tr0 as [|a tr0 IH]; simpl; intros s1 Hwf1 Hs1.
      - by intros [= <-].
      - destruct (step a s1) as [s2|] eqn:E; [|done].
        apply IH; [by eapply wf_step|by eapply in_order_step]. }
    apply (Hgen _ (wf_NewProducer kind icap ccap)); [|done].
    exists []. split; [done|]. intros q d Hq. simpl in Hq. by rewrite lookup_nil in Hq. }
  assert (Hs0 : serving_one p s0) by (unfold serving_one; split_and!; done).
  destruct (serving_one_exec p tr s0 s Hs0 Hund) as [Hs Hsent]; try done.
  { rewrite Hin0, Hic. simpl. done. }
  { rewrite Hin0, Hcc. simpl. done. }
  rewrite Hin0 in Hsent. simpl in Hsent.
  pose proof Hs as (Hwf & Hd & Hg1 & _ & _ & _ & Hall).
  split; [done|]. split; [done|].
  assert (∃ g, dispatcher s = Some g) as [g Hgs] by (destruct Hg1; eauto).
  destruct (loop_drains g s Hwf Hd Hgs) as (n & s' & Hex' & Hbuf' & Hheld').
  exists n, s'. split; [done|].
  assert (Hpar : params s = params s0) by by eapply exec_params.
  injection Hpar as Hics Hccs _.
  destruct (serving_one_exec p (replicate n (ALoop 0 (steady 0))) s s' Hs) as [Hs' Hsent'];
    try done.
  { apply undisturbed_loops. }
  { rewrite writes_loops, Hsent, Hics, Hic. simpl. lia. }
  { rewrite writes_loops, Hsent, Hccs, Hcc. simpl. lia. }
  rewrite writes_loops, app_nil_r in Hsent'.
  destruct Hs' as (_ & _ & _ & _ & _ & _ & Hall').
  rewrite Hheld', app_nil_r in Hall'.
  assert (Hw : all_sent (heap s') ≡ₚ writes tr).
  { rewrite Hall'. rewrite <-Hsent, <-Hsent'. unfold ch_sent.
    by rewrite Hbuf', app_nil_r. }
  split; [done|]. by rewrite Hw.
Qed.

End OneConsumer.

(** * The strategies, Consumer by Consumer *)

Section Strategies.
Context {T : Type} {sorter : Sorter} {contract : SorterContract sorter}.
Implicit Types (s : State (T:=T)) (c : Consumer (T:=T)) (h : list (Consumer (T:=T))).
Implicit Types (p q : ptr) (item : T) (tr : list (Action (T:=T))).

(** X8: [goroutine_Producer_all] treats every Consumer on its own.  One
    delivery leaves the registry as it is and gives each registered
    Consumer one copy of the item when its own queue has room, whatever the
    state of the others, stamping it with the reading of [time.Now()] taken
    in its own iteration of the loop over the registry; a Consumer that is
    full or not registered is left exactly as it was. *)
Theorem all_offers_each kind icap ccap s item rnd now :
  reachable kind icap ccap s →
  let s' := deliver goroutine_Producer_all item rnd now s in
  consumers s' = consumers s
  ∧ length (heap s') = length (heap s)
  ∧ (∀ i p c, consumers s !! i = Some p → heap s !! p = Some c →
       heap s' !! p = Some (try_push item (now i) c))
  ∧ (∀ p c, p ∉ consumers s → heap s !! p = Some c → heap s' !! p = Some c).
Proof.
  intros Hreach. pose proof (wf_reachable _ _ _ _ Hreach) as Hwf. simpl.
  split; [done|]. split; [apply range_offer_length|]. split.
  - intros i p c Hi Hp.
    rewrite (range_offer_lookup_in _ _ _ _ _ i) by (done || apply Hwf).
    by rewrite Hp.
  - intros p c Hout Hp. by rewrite range_offer_lookup_out.
Qed.

(** The head of the sorted registry is a registered Consumer none was used
    before. *)
Lemma lru_head_least h (l : list ptr) lru :
  sort_by (Less h) l !! 0 = Some lru →
  lru ∈ l ∧ ∀ q, q ∈ l → lastUsed_at h lru ≤ lastUsed_at h q.
Proof.
  intros Hhd.
  pose proof (sort_by_perm _ (Less h) l) as Hperm.
  pose proof (sort_by_sorted _ (lastUsed_at h) l) as Hsorted.
  change (λ a b, lastUsed_at h a <? lastUsed_at h b) with (Less h) in Hsorted.
  destruct (sort_by (Less h) l) as [|lru' rest]; [done|]. injection Hhd as ->.
  split; [by rewrite <-Hperm; left|].
  intros q Hq. rewrite <-Hperm in Hq. apply StronglySorted_cons in Hsorted as [Hl _].
  apply elem_of_cons in Hq as [->|Hq]; [done|].
  rewrite Forall_forall in Hl. by apply Hl.
Qed.

(** One delivery under LRU to a registry that is not empty: the Consumer
    picked, and the state after. *)
Lemma deliver_lru_pick s item now :
  wf s → consumers s ≠ [] →
  ∃ lru c,
    lru ∈ consumers s
    ∧ (∀ q, q ∈ consumers s → lastUsed_at (heap s) lru ≤ lastUsed_at (heap s) q)
    ∧ heap s !! lru = Some c
    ∧ consumers (deliver_lru item now s) ≡ₚ consumers s
    ∧ heap (deliver_lru item now s)
      = if can_send (Messages c) then <[lru := pushed c item now]> (heap s) else heap s.
Proof.
  intros Hwf Hne. destruct (deliver_lru_head s item now Hne) as (lru & Hhd & ->).
  destruct (lru_head_least _ _ _ Hhd) as [Hin Hleast].
  destruct (heap s !! lru) as [c|] eqn:Hc.
  - exists lru, c. split_and!; try done; simpl; [apply sort_by_perm|].
    unfold offer. by rewrite Hc.
  - apply lookup_ge_None in Hc. pose proof (wf_reg s Hwf lru Hin). lia.
Qed.

Lemma StronglySorted_ext_in {A : Type} (R R' : A → A → Prop) (l : list A) :
  (∀ a b, a ∈ l → b ∈ l → R a b → R' a b) →
  StronglySorted R l → StronglySorted R' l.
Proof.
  intros Himp Hs. induction Hs as [|x l Hs IH Hx]; constructor.
  - apply IH. intros a b Ha Hb. apply Himp; by right.
  - rewrite Forall_forall in *. intros y Hy. apply Himp; [by left|by right|by apply Hx].
Qed.

(** [served] are the Consumers already served in this round: they were
    used later than all the others. *)
Lemma lru_rounds_serves (items : list (T * Timestamp)) s (served : list ptr) :
  wf s → NoDup served → (∀ p, p ∈ served → p ∈ consumers s) →
  length served + length items = length (consumers s) →
  (∀ x q, x ∈ items → q ∈ consumers s → q ∉ served →
     lastUsed_at (heap s) q < x.2) →
  (∀ p q, p ∈ served → q ∈ consumers s → q ∉ served →
     lastUsed_at (heap s) q < lastUsed_at (heap s) p) →
  (∀ q c, q ∈ consumers s → q ∉ served → heap s !! q = Some c →
     can_send (Messages c) = true) →
  ∃ order,
    served ++ order ≡ₚ consumers s
    ∧ StronglySorted (λ a b, lastUsed_at (heap s) a ≤ lastUsed_at (heap s) b) order
    ∧ (∀ i p x, order !! i = Some p → items !! i = Some x →
         ∃ c, heap s !! p = Some c
              ∧ heap (lru_rounds items s) !! p = Some (pushed c x.1 x.2))
    ∧ (∀ p, p ∉ order → heap (lru_rounds items s) !! p = heap s !! p).
Proof.
  revert s served. induction items as [|x items IH];
    intros s served Hwf Hnd Hsub Hlen Htime Hlate Hroom.
  - exists []. rewrite app_nil_r. split_and!; try done; [|constructor].
    apply submseteq_length_Permutation; [by apply NoDup_submseteq|].
    simpl in Hlen. lia.
  - assert (Hne : consumers s ≠ []).
    { intros Hnil. rewrite Hnil in Hlen. simpl in Hlen. lia. }
    destruct (deliver_lru_pick s x.1 x.2 Hwf Hne)
      as (lru & c & Hin & Hleast & Hc & Hperm & Hheap).
    assert (Hfree : ∃ q, q ∈ consumers s ∧ q ∉ served).
    { destruct (decide (Forall (λ q, q ∈ served) (consumers s))) as [Hall|Hex].
      - rewrite Forall_forall in Hall.
        pose proof (NoDup_submseteq _ _ (wf_nodup s Hwf) Hall) as Hle.
        apply submseteq_length in Hle. simpl in Hlen. lia.
      - apply not_Forall_Exists in Hex; [|solve_decision].
        apply Exists_exists in Hex as (q & Hq & Hnq). by exists q. }
    assert (Hlru : lru ∉ served).
    { destruct Hfree as (q & Hq & Hnq). intros Hs.
      pose proof (Hlate lru q Hs Hq Hnq). pose proof (Hleast q Hq). lia. }
    rewrite (Hroom lru c Hin Hlru Hc) in Hheap.
    set (s1 := deliver_lru x.1 x.2 s) in *.
    assert (Hother : ∀ q, q ≠ lru → heap s1 !! q = heap s !! q).
    { intros q Hq. rewrite Hheap. by apply list_lookup_insert_ne. }
    assert (Hat : heap s1 !! lru = Some (pushed c x.1 x.2)).
    { rewrite Hheap. apply list_lookup_insert_eq. by eapply lookup_lt_Some. }
    assert (Hkey : ∀ q, q ≠ lru → lastUsed_at (heap s1) q = lastUsed_at (heap s) q).
    { intros q Hq. unfold lastUsed_at. by rewrite Hother. }
    assert (Hkey1 : lastUsed_at (heap s1) lru = x.2).
    { unfold lastUsed_at. by rewrite Hat. }
    destruct (IH s1 (lru :: served)) as (order & Hord & Hsorted & Hserved & Hrest).
    + by apply (wf_deliver goroutine_Producer_lru _ 0 (steady _)).
    + by constructor.
    + intros p Hp. rewrite Hperm. apply elem_of_cons in Hp as [->|Hp]; auto.
    + rewrite Hperm. simpl in *. lia.
    + intros y q Hy Hq Hnq. rewrite Hperm in Hq.
      apply not_elem_of_cons in Hnq as [Hne1 Hnq]. rewrite Hkey by done.
      apply Htime; [by right|done|done].
    + intros p q Hp Hq Hnq. rewrite Hperm in Hq.
      apply not_elem_of_cons in Hnq as [Hne1 Hnq]. rewrite (Hkey q) by done.
      apply elem_of_cons in Hp as [->|Hp].
      * rewrite Hkey1. apply Htime; [by left|done|done].
      * rewrite Hkey; [by apply Hlate|]. by intros ->.
    + intros q d Hq Hnq Hd. rewrite Hperm in Hq.
      apply not_elem_of_cons in Hnq as [Hne1 Hnq]. rewrite Hother in Hd by done.
      by eapply Hroom.
    + rewrite Hperm in Hord.
      assert (Hnd1 : NoDup ((lru :: served) ++ order)).
      { rewrite Hord. apply Hwf. }
      apply NoDup_app in Hnd1 as (_ & Hdisj & _).
      assert (Hlo : lru ∉ order) by (apply Hdisj; by left).
      assert (Hino : ∀ q, q ∈ order → q ∈ consumers s ∧ q ≠ lru).
      { intros q Hq. split; [|by intros ->].
        rewrite <-Hord. apply elem_of_app. by right. }
      exists (lru :: order). split_and!.
      * rewrite <-Hord. by rewrite <-Permutation_middle.
      * constructor.
        -- eapply StronglySorted_ext_in; [|exact Hsorted]. intros a b Ha Hb. simpl.
           rewrite !Hkey; [done|by apply Hino..].
        -- rewrite Forall_forall. intros q Hq. by apply Hleast, Hino.
      * intros i p y Hi Hy. destruct i as [|i]; simpl in *.
        -- injection Hi as <-. injection Hy as <-. exists c. split; [done|].
           unfold lru_rounds in *. simpl. fold s1. rewrite Hrest; done.
        -- destruct (Hserved i p y Hi Hy) as (d & Hd & Hfin).
           exists d. split; [|done]. rewrite <-Hother; [done|].
           apply Hino. by eapply list_elem_of_lookup_2.
      * intros p Hp. apply not_elem_of_cons in Hp as [Hne1 Hp].
        unfold lru_rounds in *. simpl. fold s1. rewrite Hrest by done. by apply Hother.
Qed.

(** X9: LRU goes round the Consumers.  With as many items as there are
    registered Consumers, each delivered at a time later than every
    [lastUsed] there was before the round, and room in every queue, each
    registered Consumer is sent exactly one of the items: the first item
    goes to the Consumer used longest ago, the next to the next, and so
    on. *)
Theorem lru_round_robin kind icap ccap s (items : list (T * Timestamp)) :
  reachable kind icap ccap s →
  length items = length (consumers s) →
  (∀ x q, x ∈ items → q ∈ consumers s → lastUsed_at (heap s) q < x.2) →
  (∀ q c, q ∈ consumers s → heap s !! q = Some c → can_send (Messages c) = true) →
  ∃ order,
    order ≡ₚ consumers s
    ∧ StronglySorted (λ a b, lastUsed_at (heap s) a ≤ lastUsed_at (heap s) b) order
    ∧ ∀ i p x, order !! i = Some p → items !! i = Some x →
        ∃ c, heap s !! p = Some c
             ∧ heap (lru_rounds items s) !! p = Some (pushed c x.1 x.2).
Proof.
  intros Hreach Hlen Htime Hroom. pose proof (wf_reachable _ _ _ _ Hreach) as Hwf.
  destruct (lru_rounds_serves items s [] Hwf) as (order & Hord & Hsorted & Hserved & _).
  - constructor.
  - by intros p ?%elem_of_nil.
  - done.
  - intros x q Hx Hq _. by apply Htime.
  - by intros p q ?%elem_of_nil.
  - intros q c Hq _. by apply Hroom.
  - by exists order.
Qed.

(** X10: LRU does not look further than the head of the registry.  While
    every Consumer among those used longest ago is full, each item is
    dropped, however many are delivered and whatever room the other
    Consumers have: no Consumer is sent anything. *)
Theorem lru_full_head_blocks kind icap ccap s (items : list (T * Timestamp)) :
  reachable kind icap ccap s →
  (∀ p, p ∈ consumers s →
     (∀ q, q ∈ consumers s → lastUsed_at (heap s) p ≤ lastUsed_at (heap s) q) →
     ∃ c, heap s !! p = Some c ∧ can_send (Messages c) = false) →
  heap (lru_rounds items s) = heap s
  ∧ consumers (lru_rounds items s) ≡ₚ consumers s.
Proof.
  intros Hreach. pose proof (wf_reachable _ _ _ _ Hreach) as Hwf. clear Hreach.
  revert s Hwf. induction items as [|x items IH]; intros s Hwf Hfull; [done|].
  unfold lru_rounds in *. simpl.
  destruct (decide (consumers s = [])) as [Hnil|Hne].
  - assert (deliver_lru x.1 x.2 s = s) as ->; [|by apply IH].
    unfold deliver_lru. by rewrite Hnil.
  - destruct (deliver_lru_pick s x.1 x.2 Hwf Hne)
      as (lru & c & Hin & Hleast & Hc & Hperm & Hheap).
    destruct (Hfull lru Hin Hleast) as (c' & Hc' & Hcan).
    assert (c' = c) as -> by congruence. rewrite Hcan in Hheap.
    destruct (IH (deliver_lru x.1 x.2 s)) as [Hh Hp].
    + by apply (wf_deliver goroutine_Producer_lru _ 0 (steady _)).
    + intros p Hp Hmin. rewrite Hheap. rewrite Hperm in Hp. apply Hfull; [done|].
      intros q Hq. rewrite <-Hheap. apply Hmin. by rewrite Hperm.
    + split; [by rewrite Hh|]. by rewrite Hp.
Qed.

End Strategies.

(** * The interface, call by call *)

Section Calls.
Context {T : Type} {sorter : Sorter} {contract : SorterContract sorter}.
Implicit Types (s : State (T:=T)) (c : Consumer (T:=T)) (h : list (Consumer (T:=T))).
Implicit Types (p q : ptr) (item : T) (tr : list (Action (T:=T))).

(** The watcher cuts its Consumer out and keeps the others in their
    order. *)
Lemma removeConsumer_filter p (l : list ptr) :
  NoDup l → removeConsumer p l = filter (λ q, q ≠ p) l.
Proof.
  induction l as [|r l IH]; simpl; intros Hnd; [done|].
  apply NoDup_cons in Hnd as [Hr Hnd].
  destruct (r =? p) eqn:E.
  - apply Nat.eqb_eq in E as ->. rewrite filter_cons_False by (by intros ?).
    rewrite <-IH by done. by rewrite removeConsumer_absent.
  - apply Nat.eqb_neq in E. rewrite filter_cons_True by done. by rewrite IH.
Qed.

(** A watcher that has run leaves a cancelled Consumer behind. *)
Lemma watched_stable : stable (λ c, watching c = false → ctx_done c = true).
Proof. split; try done. Qed.

(** X11: [Consumer.Close] cancels once and the watcher then takes the
    Consumer out.  On a registered Consumer, [Close] leaves it cancelled
    with its identifier, queue and [lastUsed] as they were, touches no
    other Consumer, and a second [Close] changes nothing; after the
    watcher's step the registry is the old one without this Consumer, the
    others in the order they had. *)
Theorem Consumer_Close_deregisters kind icap ccap s p :
  reachable kind icap ccap s →
  p ∈ consumers s →
  ∃ c c1,
    heap s !! p = Some c
    ∧ Consumer_Close (heap s) p !! p = Some c1
    ∧ ctx_done c1 = true ∧ c_closeOnce c1 = true
    ∧ (c_id c1, Messages c1, lastUsed c1) = (c_id c, Messages c, lastUsed c)
    ∧ (∀ q, q ≠ p → Consumer_Close (heap s) p !! q = heap s !! q)
    ∧ Consumer_Close (Consumer_Close (heap s) p) p = Consumer_Close (heap s) p
    ∧ ∃ s', exec [AConsumerClose p; AWatcher p] s = Some s'
            ∧ consumers s' = filter (λ q, q ≠ p) (consumers s).
Proof.
  intros Hreach Hreg. pose proof (wf_reachable _ _ _ _ Hreach) as Hwf.
  pose proof (stable_reachable _ _ _ _ _ closed_stable Hreach) as Hclosed.
  destruct (heap s !! p) as [c|] eqn:Hc; last first.
  { apply lookup_ge_None in Hc. pose proof (wf_reg s Hwf p Hreg). lia. }
  pose proof (proj2 (wf_watch s Hwf p c Hc) Hreg) as Hw.
  set (c1 := if c_closeOnce c then c
             else mkConsumer (c_id c) (Messages c) (lastUsed c) true true (watching c)).
  assert (Hc1 : Consumer_Close (heap s) p !! p = Some c1).
  { rewrite Consumer_Close_lookup, decide_True by done.
    change ptr with nat in *. by rewrite Hc. }
  assert (Hd1 : ctx_done c1 = true ∧ c_closeOnce c1 = true ∧ watching c1 = true).
  { subst c1. destruct (c_closeOnce c) eqn:E; [|done]. split_and!; try done.
    by apply (Hclosed p c Hc). }
  destruct Hd1 as (Hd1 & Ho1 & Hw1).
  exists c, c1. split_and!; try done.
  - subst c1. by destruct (c_closeOnce c).
  - intros q Hq. by apply Consumer_Close_lookup_ne.
  - unfold Consumer_Close at 1. change ptr with nat in *. by rewrite Hc1, Ho1.
  - eexists. split.
    + cbn [exec step]. unfold watcher_step. cbn [heap upd_heap].
      change ptr with nat in *. rewrite Hc1, Hw1, Hd1. cbn [andb]. reflexivity.
    + simpl. apply removeConsumer_filter, Hwf.
Qed.

(** X12: what [Write] returns tells what it did.  In every state of every
    execution: [nil] means there was room and the item is now the last of
    what [input] was sent; [ErrProducerClosed] is returned only by a closed
    Producer and [ErrBufferFull] only by an open one without room, and with
    either the Producer is exactly as before.  The registry, the Consumers
    and [done] are never touched. *)
Theorem Write_outcomes kind icap ccap s item rnd :
  reachable kind icap ccap s →
  let err := fst (Write item rnd s) in
  let s' := snd (Write item rnd s) in
  (consumers s', heap s', done s', closeOnce s')
  = (consumers s, heap s, done s, closeOnce s)
  ∧ match err with
    | None =>
        can_send (input s) = true
        ∧ ch_sent (input s') = ch_sent (input s) ++ [item]
        ∧ ch_cap (input s') = ch_cap (input s)
    | Some ErrProducerClosed => done s = true ∧ s' = s
    | Some ErrBufferFull => done s = false ∧ can_send (input s) = false ∧ s' = s
    end.
Proof.
  intros Hreach. pose proof (wf_reachable _ _ _ _ Hreach) as Hwf. simpl.
  unfold Write.
  destruct (go_select _ rnd) as [[]|] eqn:E; simpl.
  - destruct (send_input_fields item s) as (_ & -> & -> & -> & ->).
    split; [done|]. split_and!.
    + apply go_select_first_chosen in E; done.
    + pose proof (chansend_sent (input s) item (wf_input s Hwf)) as Hsent.
      unfold send_input. by destruct (0 <? ch_recvq (input s)).
    + unfold send_input, chansend. by destruct (0 <? ch_recvq (input s)).
  - split; [done|]. split; [|done]. apply go_select_second_ready in E; done.
  - split; [done|]. apply go_select_two in E as [-> ->]. done.
Qed.

(** X13: the registry and the goroutines agree.  In every state of every
    execution no Consumer is registered twice; a Consumer is registered
    exactly while its watcher goroutine is waiting; a Consumer whose
    watcher has run, or whose [Close] has fired, is cancelled; and from
    then on, whatever runs, a cancelled Consumer stays cancelled and one
    that is out of the registry stays out. *)
Theorem registry_invariant kind icap ccap s p c :
  reachable kind icap ccap s →
  heap s !! p = Some c →
  NoDup (consumers s)
  ∧ (∀ q, q ∈ consumers s → q < length (heap s))
  ∧ (watching c = true ↔ p ∈ consumers s)
  ∧ (watching c = false → ctx_done c = true)
  ∧ (c_closeOnce c = true → ctx_done c = true)
  ∧ ∀ tr s', exec tr s = Some s' →
      ∃ c', heap s' !! p = Some c'
            ∧ (ctx_done c = true → ctx_done c' = true)
            ∧ (p ∉ consumers s → p ∉ consumers s').
Proof.
  intros Hreach Hc. pose proof (wf_reachable _ _ _ _ Hreach) as Hwf.
  split_and!.
  - apply Hwf.
  - apply Hwf.
  - by apply (wf_watch s Hwf).
  - by apply (stable_reachable _ _ _ _ _ watched_stable Hreach p c).
  - by apply (stable_reachable _ _ _ _ _ closed_stable Hreach p c).
  - intros tr s' Hex. destruct (exec_ages _ _ _ _ _ Hex Hc) as (c' & Hc' & Hw & Hd).
    exists c'. split; [done|]. split; [done|]. intros Hout Hin.
    pose proof (wf_exec _ _ _ Hwf Hex) as Hwf'.
    apply (wf_watch s' Hwf' p c' Hc') in Hin. apply Hw in Hin.
    by apply (wf_watch s Hwf p c Hc) in Hin.
Qed.

(** X14: the dispatch goroutine never waits for a Consumer.  On an open
    Producer it takes two steps for each item queued on [input] (one more
    when it is holding an item), whatever the strategy, the random numbers
    and the clock, and whatever the state of the Consumers: after that
    [input] is empty and everything sent on it has been received, in
    order. *)
Theorem dispatcher_drains kind icap ccap s (sched : list (nat * Clock)) :
  reachable kind icap ccap s →
  done s = false →
  is_Some (dispatcher s) →
  length sched = 2 * length (ch_buf (input s)) + length (held s) →
  ∃ s', exec ((λ x, ALoop x.1 x.2) <$> sched) s = Some s'
        ∧ ch_buf (input s') = [] ∧ held s' = []
        ∧ ch_recvd (input s') = ch_sent (input s)
        ∧ done s' = false.
Proof.
  intros Hreach. pose proof (wf_reachable _ _ _ _ Hreach) as Hwf. clear Hreach.
  revert s Hwf. induction sched as [|x sched IH]; intros s Hwf Hd [g Hg] Hlen.
  - simpl in Hlen. exists s. split; [done|].
    destruct (ch_buf (input s)) as [|y b] eqn:Eb; [|simpl in Hlen; lia].
    destruct (held s) eqn:Eh; [|simpl in Hlen; lia].
    split_and!; try done. unfold ch_sent. by rewrite Eb, app_nil_r.
  - cbn [fmap list_fmap exec step].
    destruct (loop_step_fields x.1 x.2 s) as (Hpar & Hd1 & _).
    assert (Hg1 : is_Some (dispatcher (loop_step x.1 x.2 s))).
    { injection Hpar as _ _ ->. by exists g. }
    assert (Hnext : ch_sent (input (loop_step x.1 x.2 s)) = ch_sent (input s)
              ∧ length sched = 2 * length (ch_buf (input (loop_step x.1 x.2 s)))
                               + length (held (loop_step x.1 x.2 s))).
    { unfold loop_step. rewrite Hg. unfold held in *.
      destruct (pc s) as [|item|] eqn:Epc.
      - destruct (ch_buf (input s)) as [|y b] eqn:Eb; [simpl in Hlen; lia|].
        assert (Hq : ch_recvq (input s) = 0).
        { destruct (ch_recvq (input s)) eqn:Eq; [done|].
          assert (Hok : ch_buf (input s) = []) by (apply (wf_input s Hwf); lia).
          congruence. }
        rewrite Hq. cbn [Nat.ltb Nat.leb]. unfold can_recv, chanrecv. rewrite Eb, Hd.
        rewrite go_select_first. simpl. split; [|simpl in Hlen; lia].
        unfold ch_sent. simpl. rewrite Eb. by rewrite <-app_assoc.
      - destruct (deliver_shape g item x.1 x.2 (upd_pc s AtSelect))
          as (l & h & -> & _). simpl in *. split; [done|lia].
      - rewrite (wf_returned s Hwf Epc) in Hd. done. }
    destruct Hnext as [Hsent Hlen1].
    destruct (IH (loop_step x.1 x.2 s)) as (s' & Hex & Hb & Hh & Hr & Hd');
      try done; [by apply wf_loop_step|congruence|].
    exists s'. split_and!; try done. congruence.
Qed.

End Calls.

(** * The helpers of the package *)

(** ** equalSlices *)

Lemma equalSlices_loop_spec (a b : list Z) i n :
  length a = length b → i + n = length a →
  equalSlices_loop a b i n = Some (bool_decide (drop i a = drop i b)).
Proof.
  revert i. induction n as [|n IH]; intros i Hlen Hi; simpl.
  - rewrite !drop_ge by lia. by rewrite bool_decide_eq_true_2.
  - destruct (a !! i) as [x|] eqn:Ha; last first.
    { apply lookup_ge_None in Ha. lia. }
    destruct (b !! i) as [y|] eqn:Hb; last first.
    { apply lookup_ge_None in Hb. lia. }
    rewrite (drop_S a x i Ha), (drop_S b y i Hb).
    destruct (Z.eqb_spec x y) as [->|Hne].
    + rewrite IH by lia. f_equal. apply bool_decide_ext. split; [congruence|].
      by intros [= ->].
    + rewrite bool_decide_eq_false_2; [done|]. congruence.
Qed.

(** X15: [equalSlices] decides equality.  It never indexes out of range,
    and returns [true] exactly when the two slices have the same elements
    in the same order. *)
Theorem equalSlices_decides (a b : list Z) :
  equalSlices a b = Some (bool_decide (a = b)).
Proof.
  unfold equalSlices. destruct (Nat.eqb_spec (length a) (length b)) as [Hlen|Hne].
  - by rewrite equalSlices_loop_spec.
  - rewrite bool_decide_eq_false_2; [done|]. by intros ->.
Qed.

(** ** ConsumerList *)

Lemma insert_cons_perm {A : Type} (l : list A) j y a :
  l !! j = Some y → y :: <[j := a]> l ≡ₚ a :: l.
Proof.
  revert j. induction l as [|b l IH]; intros [|j] Hj; simpl in *; try done.
  - injection Hj as ->. apply perm_swap.
  - rewrite perm_swap. rewrite (IH j Hj). apply perm_swap.
Qed.

Lemma swap_perm {A : Type} (l : list A) i j x y :
  l !! i = Some x → l !! j = Some y → <[j := x]> (<[i := y]> l) ≡ₚ l.
Proof.
  revert i j. induction l as [|a l IH]; intros [|i] [|j] Hi Hj; simpl in *; try done.
  - injection Hi as ->. by injection Hj as ->.
  - injection Hi as ->. by apply insert_cons_perm.
  - injection Hj as ->. by apply insert_cons_perm.
  - f_equiv. by apply IH.
Qed.

Section ConsumerListFacts.
Context {T : Type} {sorter : Sorter} {contract : SorterContract sorter}.
Implicit Types (s : State (T:=T)).

(** X16: [ConsumerList] is a [sort.Interface] as [sort.Sort] needs it.  On
    the registry of any state of any execution, for indices below [Len]:
    [Less] does not panic and compares the [lastUsed] of the two entries,
    a strict weak ordering (irreflexive, transitive, and so is being
    unordered); [Swap] does not panic, exchanges the two entries and
    leaves the others, so that the registry keeps its entries and its
    length, a second [Swap] undoes the first, and [Less] sees the two
    entries exchanged. *)
Theorem ConsumerList_sort_interface kind icap ccap s i j k :
  reachable kind icap ccap s →
  i < ConsumerList_Len (consumers s) →
  j < ConsumerList_Len (consumers s) →
  k < ConsumerList_Len (consumers s) →
  (∃ p q, consumers s !! i = Some p ∧ consumers s !! j = Some q
          ∧ ConsumerList_Less (heap s) (consumers s) i j = Some (Less (heap s) p q))
  ∧ ConsumerList_Less (heap s) (consumers s) i i = Some false
  ∧ (ConsumerList_Less (heap s) (consumers s) i j = Some true →
     ConsumerList_Less (heap s) (consumers s) j k = Some true →
     ConsumerList_Less (heap s) (consumers s) i k = Some true)
  ∧ (ConsumerList_Less (heap s) (consumers s) i j = Some false →
     ConsumerList_Less (heap s) (consumers s) j k = Some false →
     ConsumerList_Less (heap s) (consumers s) i k = Some false)
  ∧ ∃ cl', ConsumerList_Swap (consumers s) i j = Some cl'
           ∧ cl' ≡ₚ consumers s
           ∧ ConsumerList_Len cl' = ConsumerList_Len (consumers s)
           ∧ cl' !! i = consumers s !! j
           ∧ cl' !! j = consumers s !! i
           ∧ (∀ n, n ≠ i → n ≠ j → cl' !! n = consumers s !! n)
           ∧ ConsumerList_Swap cl' i j = Some (consumers s)
           ∧ ConsumerList_Less (heap s) cl' i j
             = ConsumerList_Less (heap s) (consumers s) j i.
Proof.
  intros Hreach Hi Hj Hk. pose proof (wf_reachable _ _ _ _ Hreach) as Hwf.
  unfold ConsumerList_Len in *.
  assert (Hentry : ∀ n, n < length (consumers s) →
            ∃ p c, consumers s !! n = Some p ∧ heap s !! p = Some c).
  { intros n Hn. destruct (lookup_lt_is_Some_2 _ _ Hn) as [p Hp].
    assert (Hreg : p ∈ consumers s) by by eapply list_elem_of_lookup_2.
    destruct (lookup_lt_is_Some_2 _ _ (wf_reg s Hwf p Hreg)) as [c Hc]. by exists p, c. }
  destruct (Hentry i Hi) as (p & c & Hp & Hc).
  destruct (Hentry j Hj) as (q & d & Hq & Hd).
  destruct (Hentry k Hk) as (r & e & Hr & He).
  unfold ConsumerList_Less, ConsumerList_Swap, Less, lastUsed_at.
  change ptr with nat in *. rewrite Hp, Hq, Hr, Hc, Hd, He.
  split_and!.
  - exists p, q. by rewrite Hc, Hd.
  - by rewrite Nat.ltb_irrefl.
  - intros [= H1%Nat.ltb_lt] [= H2%Nat.ltb_lt]. f_equal. apply Nat.ltb_lt. lia.
  - intros [= H1%Nat.ltb_ge] [= H2%Nat.ltb_ge]. f_equal. apply Nat.ltb_ge. lia.
  - eexists. split; [done|].
    assert (Hlen : length (<[j := p]> (<[i := q]> (consumers s))) = length (consumers s)).
    { by rewrite !length_insert. }
    assert (Hat_j : <[j := p]> (<[i := q]> (consumers s)) !! j = Some p).
    { apply list_lookup_insert_eq. rewrite length_insert. done. }
    assert (Hat_i : <[j := p]> (<[i := q]> (consumers s)) !! i = Some q).
    { destruct (decide (i = j)) as [->|Hne].
      - rewrite Hat_j. congruence.
      - rewrite list_lookup_insert_ne by done. by apply list_lookup_insert_eq. }
    split_and!; try done.
    + by apply swap_perm.
    + intros n Hni Hnj. by rewrite !list_lookup_insert_ne.
    + change ptr with nat in *. rewrite Hat_i, Hat_j. f_equal.
      apply list_eq. intros n.
      destruct (decide (n = j)) as [->|Hnj].
      * rewrite list_lookup_insert_eq; [done|]. by rewrite !length_insert.
      * rewrite list_lookup_insert_ne by done.
        destruct (decide (n = i)) as [->|Hni].
        -- rewrite list_lookup_insert_eq; [done|]. by rewrite !length_insert.
        -- by rewrite !list_lookup_insert_ne.
    + change ptr with nat in *. rewrite Hat_i, Hat_j. by rewrite Hc, Hd.
Qed.

End ConsumerListFacts.

(** ** CreateID *)

Lemma hex_digit_ldigits n : hex_digit n ∈ ldigits.
Proof.
  unfold hex_digit. destruct (ldigits !! n) as [a|] eqn:E; simpl.
  - by eapply list_elem_of_lookup_2.
  - by left.
Qed.

Lemma unhex_hex_digit n : n < 16 → unhex_digit (hex_digit n) = Some n.
Proof.
  intros Hn. do 16 (destruct n as [|n]; [reflexivity|]). lia.
Qed.

Lemma fmt_x_cons x b :
  fmt_x (x :: b)
  = hex_digit (Byte.to_nat x / 16) :: hex_digit (Byte.to_nat x `mod` 16) :: fmt_x b.
Proof. done. Qed.

Lemma fmt_x_length b : length (fmt_x b) = 2 * length b.
Proof. induction b as [|x b IH]; [done|]. rewrite fmt_x_cons. simpl. lia. Qed.

Lemma fmt_x_ldigits b a : a ∈ fmt_x b → a ∈ ldigits.
Proof.
  induction b as [|x b IH]; [by intros ?%elem_of_nil|]. rewrite fmt_x_cons.
  intros [->|[->|Hin]%elem_of_cons]%elem_of_cons; auto using hex_digit_ldigits.
Qed.

Lemma unhex_fmt_x b : unhex (fmt_x b) = Some b.
Proof.
  induction b as [|x b IH]; [done|]. rewrite fmt_x_cons. cbn [unhex].
  pose proof (Byte.to_nat_bounded x) as Hx.
  rewrite !unhex_hex_digit
    by first [by apply Nat.mod_upper_bound | apply Nat.Div0.div_lt_upper_bound; lia].
  cbn [mbind option_bind]. rewrite <-(Nat.div_mod_eq (Byte.to_nat x) 16).
  rewrite Byte.of_to_nat. cbn [mbind option_bind]. by rewrite IH.
Qed.

(** The identifier laid out from its 32 digits. *)
Lemma CreateID_layout rand_Read b :
  rand_Read (replicate 16 Byte.x00) = Some b → length b = 16 →
  ∃ d, fmt_x b = d ∧ length d = 32
       ∧ CreateID rand_Read
         = Some (slice d 0 8 ++ ["-"%char] ++ slice d 8 12 ++ ["-"%char]
                 ++ slice d 12 16 ++ ["-"%char] ++ slice d 16 20 ++ ["-"%char]
                 ++ slice d 20 32).
Proof.
  intros Hr Hlen. exists (fmt_x b). split; [done|].
  split; [rewrite fmt_x_length; lia|].
  unfold CreateID. rewrite Hr.
  do 16 (destruct b as [|? b]; [done|]). destruct b; [|done]. reflexivity.
Qed.

(** X17: the identifiers of [CreateID].  When [rand.Read] fills the 16
    bytes, the identifier has 36 characters: dashes at the places 8, 13, 18
    and 23 and lower-case hexadecimal digits everywhere else, from which
    the 16 bytes are read back; so two identifiers are equal only when the
    random bytes were. *)
Theorem CreateID_format rand_Read b :
  rand_Read (replicate 16 Byte.x00) = Some b →
  length b = 16 →
  ∃ id, CreateID rand_Read = Some id
        ∧ length id = 36
        ∧ (∀ i, i ∈ [8; 13; 18; 23] → id !! i = Some "-"%char)
        ∧ (∀ i a, i ∉ [8; 13; 18; 23] → id !! i = Some a → a ∈ ldigits)
        ∧ parseID id = Some b
        ∧ ∀ rand_Read' b',
            rand_Read' (replicate 16 Byte.x00) = Some b' → length b' = 16 →
            CreateID rand_Read' = Some id → b' = b.
Proof.
  intros Hr Hlen.
  assert (Hshape : ∀ d : list ascii, length d = 32 →
            let id := slice d 0 8 ++ ["-"%char] ++ slice d 8 12 ++ ["-"%char]
                      ++ slice d 12 16 ++ ["-"%char] ++ slice d 16 20 ++ ["-"%char]
                      ++ slice d 20 32 in
            length id = 36
            ∧ (∀ i, i ∈ [8; 13; 18; 23] → id !! i = Some "-"%char)
            ∧ (∀ i a, i ∉ [8; 13; 18; 23] → id !! i = Some a → a ∈ d)
            ∧ parseID id = unhex d).
  { intros d Hd. do 32 (destruct d as [|? d]; [done|]). destruct d; [|done].
    split; [reflexivity|]. split; [|split; [|reflexivity]].
    - intros i Hi. apply list_elem_of_In in Hi. simpl in Hi.
      destruct Hi as [<-|[<-|[<-|[<-|[]]]]]; reflexivity.
    - intros i ch Hi. rewrite !not_elem_of_cons in Hi.
      do 36 (destruct i as [|i];
             [first [lia | intros [= <-]; by repeat first [left | right]]|]).
      by intros ?. }
  destruct (CreateID_layout rand_Read b Hr Hlen) as (d & Hd & Hdlen & Hid).
  destruct (Hshape d Hdlen) as (Hl & Hdash & Hhex & Hparse).
  eexists. split; [exact Hid|]. split; [done|]. split; [done|]. split; [|split].
  - intros i a Hi Ha. apply (fmt_x_ldigits b). rewrite Hd. by eapply Hhex.
  - rewrite Hparse, <-Hd. apply unhex_fmt_x.
  - intros r' b' Hr' Hlen' Hid'.
    destruct (CreateID_layout r' b' Hr' Hlen') as (d' & Hd' & Hdlen' & Hid2).
    destruct (Hshape d' Hdlen') as (_ & _ & _ & Hparse').
    assert (Hu : unhex d' = unhex d) by congruence.
    rewrite <-Hd, <-Hd', !unhex_fmt_x in Hu. congruence.
Qed.

(** ** TypeName *)

Lemma TrimPrefix_star typ : TrimPrefix ("*"%char :: typ) ["*"%char] = typ.
Proof.
  unfold TrimPrefix. rewrite bool_decide_eq_true_2; [done|].
  apply prefix_cons, prefix_nil.
Qed.

Lemma LastIndex_dot (s : list ascii) :
  match LastIndex s ["."%char] with
  | Some i => ∃ pre post, s = pre ++ "."%char :: post ∧ length pre = i
                          ∧ "."%char ∉ post
  | None => "."%char ∉ s
  end.
Proof.
  induction s as [|a s IH]; cbn [LastIndex].
  - rewrite bool_decide_eq_false_2 by done. apply not_elem_of_nil.
  - destruct (LastIndex s ["."%char]) as [i|].
    + destruct IH as (pre & post & -> & <- & Hpost). by exists (a :: pre), post.
    + destruct (decide (a = "."%char)) as [->|Hne].
      * rewrite bool_decide_eq_true_2 by apply prefix_cons, prefix_nil.
        by exists [], s.
      * rewrite bool_decide_eq_false_2.
        -- by apply not_elem_of_cons.
        -- intros Hp. by apply prefix_cons_inv_1 in Hp.
Qed.

Lemma last_occurrence {A : Type} (x : A) (l1 l2 k1 k2 : list A) :
  l1 ++ x :: l2 = k1 ++ x :: k2 → x ∉ l2 → x ∉ k2 → l2 = k2.
Proof.
  revert k1. induction l1 as [|a l1 IH]; intros [|b k1]; simpl; intros Heq Hl Hk.
  - by injection Heq.
  - injection Heq as -> ->. exfalso. apply Hl. apply elem_of_app. right. by left.
  - injection Heq as -> <-. exfalso. apply Hk. apply elem_of_app. right. by left.
  - injection Heq as -> Heq. by eapply IH.
Qed.

(** X18: [TypeName] is the last component of the type's name.  For a type
    whose name [%T] prints as [typ] (so that [new(T)] prints as [*typ]),
    the result holds no dot and is the end of [typ], what comes before
    being empty or ending in a dot: the name itself when it has no dot, and
    what follows the last dot otherwise. *)
Theorem TypeName_last_component (typ : list ascii) :
  let r := TypeName ("*"%char :: typ) in
  ("."%char ∉ r)
  ∧ (∃ pre, typ = pre ++ r ∧ (pre = [] ∨ last pre = Some "."%char))
  ∧ ("."%char ∉ typ → r = typ)
  ∧ (∀ pkg name, typ = pkg ++ "."%char :: name → "."%char ∉ name → r = name).
Proof.
  simpl. unfold TypeName. rewrite TrimPrefix_star.
  pose proof (LastIndex_dot typ) as Hdot.
  destruct (LastIndex typ ["."%char]) as [i|].
  - destruct Hdot as (pre & post & -> & <- & Hpost).
    assert (Hdrop : drop (length pre + 1) (pre ++ "."%char :: post) = post).
    { rewrite drop_app_ge by lia.
      replace (length pre + 1 - length pre) with 1 by lia. done. }
    rewrite Hdrop. split_and!; try done.
    + exists (pre ++ ["."%char]). split; [by rewrite <-app_assoc|].
      right. by rewrite last_snoc.
    + intros Hno. exfalso. apply Hno. apply elem_of_app. right. by left.
    + intros pkg name Heq Hname. symmetry. by eapply last_occurrence.
  - split_and!; try done.
    + exists []. split; [done|by left].
    + intros pkg name -> _. exfalso. apply Hdot. apply elem_of_app. right. by left.
Qed.

(** ** Package logger *)

Lemma filter_all {A : Type} (P : A → Prop) `{∀ x, Decision (P x)} (l : list A) :
  Forall P l → filter P l = l.
Proof.
  induction 1 as [|x l Hx Hl IH]; [done|]. by rewrite filter_cons_True, IH.
Qed.

Lemma filter_none {A : Type} (P : A → Prop) `{∀ x, Decision (P x)} (l : list A) :
  Forall (λ x, ¬ P x) l → filter P l = [].
Proof.
  induction 1 as [|x l Hx Hl IH]; [done|]. by rewrite filter_cons_False.
Qed.

(** X19: what a [Logger] writes.  Whatever sequence of its eight methods is
    called, the lines written are those of the calls whose level is at
    least the Logger's, in the order of the calls, each one
    [LEVEL: prefix message] (for the [...ln] methods the message is the
    arguments joined by spaces); the level and the prefix never change.  So
    a Logger at [LogLevelDebug] writes a line for every call, and one
    above [LogLevelError] writes nothing. *)
Theorem logger_threshold (l : logger.Logger) (cs : list logger.Call) :
  let l' := logger.calls cs l in
  logger.logger l'
  = logger.logger l
    ++ (line_of (logger.prefix l)
        <$> filter (λ c, (logger.level l ≤ call_level c)%Z) cs)
  ∧ logger.level l' = logger.level l
  ∧ logger.prefix l' = logger.prefix l
  ∧ ((logger.level l ≤ logger.LogLevelDebug)%Z →
     logger.logger l' = logger.logger l ++ (line_of (logger.prefix l) <$> cs))
  ∧ ((logger.LogLevelError < logger.level l)%Z →
     logger.logger l' = logger.logger l).
Proof.
  simpl.
  assert (Hmain : ∀ l, logger.logger (logger.calls cs l)
            = logger.logger l
              ++ (line_of (logger.prefix l)
                  <$> filter (λ c, (logger.level l ≤ call_level c)%Z) cs)
            ∧ logger.level (logger.calls cs l) = logger.level l
            ∧ logger.prefix (logger.calls cs l) = logger.prefix l).
  { clear l. induction cs as [|c cs IH]; intros l.
    - simpl. by rewrite app_nil_r.
    - unfold logger.calls in *. simpl.
      assert (Hstep : logger.call l c
                = if decide (logger.level l ≤ call_level c)%Z
                  then logger.mkLogger (logger.logger l ++ [line_of (logger.prefix l) c])
                                       (logger.level l) (logger.prefix l)
                  else l).
      { destruct c; simpl;
          unfold logger.Debug, logger.Info, logger.Warn, logger.Error,
                 logger.Debugln, logger.Infoln, logger.Warnln, logger.Errorln;
          match goal with
          | |- context [(?a <=? ?b)%Z] => destruct (Z.leb_spec a b)
          end;
          first [rewrite decide_True by done | rewrite decide_False by lia]; done. }
      destruct (IH (logger.call l c)) as (Hlog & Hlev & Hpre).
      rewrite Hlog, Hlev, Hpre, Hstep.
      destruct (decide (logger.level l ≤ call_level c)%Z) as [Hle|Hgt]; simpl.
      + rewrite filter_cons_True by done. simpl. by rewrite <-app_assoc.
      + by rewrite filter_cons_False by done. }
  destruct (Hmain l) as (Hlog & Hlev & Hpre). split_and!; try done.
  - intros Hd. rewrite Hlog. do 2 f_equal. apply filter_all.
    apply Forall_forall. intros c _. destruct c; unfold call_level,
      logger.LogLevelDebug, logger.LogLevelInfo, logger.LogLevelWarn,
      logger.LogLevelError in *; lia.
  - intros He. rewrite Hlog.
    rewrite filter_none; [by rewrite app_nil_r|].
    apply Forall_forall. intros c _. destruct c; unfold call_level,
      logger.LogLevelDebug, logger.LogLevelInfo, logger.LogLevelWarn,
      logger.LogLevelError in *; lia.
Qed.

(** ** PrettyMap *)

Lemma string_leb_refl a : string_leb a a = true.
Proof. induction a as [|x a IH]; simpl; [done|]. by rewrite Nat.ltb_irrefl. Qed.

#[export] Instance string_le_total : Total string_le.
Proof.
  intros a. unfold string_le. induction a as [|x a IH]; intros [|y b]; simpl; auto.
  destruct (Nat.ltb_spec (nat_of_ascii x) (nat_of_ascii y)) as [Hlt|Hge]; [auto|].
  destruct (Nat.ltb_spec (nat_of_ascii y) (nat_of_ascii x)) as [Hlt'|Hge']; [auto|].
  apply IH.
Qed.

#[export] Instance string_le_trans : Transitive string_le.
Proof.
  intros a. unfold string_le. induction a as [|x a IH]; intros [|y b] [|z c]; simpl;
    try done.
  destruct (Nat.ltb_spec (nat_of_ascii x) (nat_of_ascii y)) as [Hxy|Hxy];
    destruct (Nat.ltb_spec (nat_of_ascii y) (nat_of_ascii z)) as [Hyz|Hyz];
    destruct (Nat.ltb_spec (nat_of_ascii x) (nat_of_ascii z)) as [Hxz|Hxz];
    try done; try lia;
    destruct (Nat.ltb_spec (nat_of_ascii y) (nat_of_ascii x)) as [Hyx|Hyx];
    try done; try lia;
    destruct (Nat.ltb_spec (nat_of_ascii z) (nat_of_ascii y)) as [Hzy|Hzy];
    try done; try lia;
    destruct (Nat.ltb_spec (nat_of_ascii z) (nat_of_ascii x)) as [Hzx|Hzx];
    try done; try lia.
  apply IH.
Qed.

#[export] Instance string_le_antisym : AntiSymm (=) string_le.
Proof.
  intros a. unfold string_le. induction a as [|x a IH]; intros [|y b]; simpl; try done.
  destruct (Nat.ltb_spec (nat_of_ascii x) (nat_of_ascii y)) as [Hxy|Hxy];
    destruct (Nat.ltb_spec (nat_of_ascii y) (nat_of_ascii x)) as [Hyx|Hyx];
    try done; try lia.
  intros Hab Hba. f_equal; [|by apply IH].
  rewrite <-(ascii_nat_embedding x), <-(ascii_nat_embedding y). f_equal. lia.
Qed.

(** The sorted keys do not depend on the order they were collected in. *)
Lemma sort_Strings_perm keys keys' : keys ≡ₚ keys' → sort_Strings keys = sort_Strings keys'.
Proof.
  intros Hperm. unfold sort_Strings.
  apply (StronglySorted_unique string_le); try apply StronglySorted_merge_sort; try apply _.
  by rewrite !merge_sort_Permutation.
Qed.

Section PrettyMapFacts.
Implicit Types (data : list (list ascii * value)) (indent k : list ascii).
Implicit Types (rec : list (list ascii * value) → list ascii → option (list ascii)).

Lemma builder_ext rec rec' data data' indent (keys : list (list ascii)) builder :
  (∀ k, k ∈ keys →
     PrettyMap_entry rec data indent k = PrettyMap_entry rec' data' indent k) →
  fold_left (λ builder k, b ← builder; t ← PrettyMap_entry rec data indent k;
                          Some (b ++ t)) keys builder
  = fold_left (λ builder k, b ← builder; t ← PrettyMap_entry rec' data' indent k;
                            Some (b ++ t)) keys builder.
Proof.
  revert builder. induction keys as [|k keys IH]; intros builder Hext; [done|].
  simpl. rewrite (Hext k) by left. apply IH. intros k' Hk'. apply Hext. by right.
Qed.

Lemma builder_Some rec data indent (keys : list (list ascii)) builder :
  (∀ k, k ∈ keys → is_Some (PrettyMap_entry rec data indent k)) →
  is_Some builder →
  is_Some (fold_left (λ builder k, b ← builder; t ← PrettyMap_entry rec data indent k;
                                   Some (b ++ t)) keys builder).
Proof.
  revert builder. induction keys as [|k keys IH]; intros builder Hall [b ->]; [done|].
  simpl. destruct (Hall k) as [t ->]; [by left|]. simpl.
  apply IH; [|done]. intros k' Hk'. apply Hall. by right.
Qed.

Lemma value_depth_VMap data : value_depth (VMap data) = S (map_depth data).
Proof.
  simpl. f_equal. induction data as [|[k v] data IH]; simpl; [done|]. by rewrite IH.
Qed.

Lemma map_index_depth data k : value_depth (map_index data k) ≤ map_depth data.
Proof.
  unfold map_index. destruct (list_find _ data) as [[i e]|] eqn:E; [|simpl; lia].
  apply list_find_Some in E as (Hi & _).
  apply list_elem_of_lookup_2 in Hi. clear i k.
  induction data as [|e' data IH]; [by apply elem_of_nil in Hi|].
  apply elem_of_cons in Hi as [->|Hi]; simpl; [lia|]. specialize (IH Hi). lia.
Qed.

(** Enough fuel: more than the maps are nested. *)
Lemma PrettyMap_enough fuel data indent :
  map_depth data < fuel → is_Some (PrettyMap fuel data indent).
Proof.
  revert data indent. induction fuel as [|fuel IH]; intros data indent Hd; [lia|].
  simpl. apply builder_Some; [|done]. intros k _. unfold PrettyMap_entry.
  pose proof (map_index_depth data k) as Hk.
  destruct (map_index data k) as [|sub|t|pv]; try done.
  rewrite value_depth_VMap in Hk.
  destruct (IH sub (indent ++ String.list_ascii_of_string "  ")) as [r ->]; [lia|]. done.
Qed.

Lemma PrettyMap_fuel fuel fuel' data indent :
  map_depth data < fuel → map_depth data < fuel' →
  PrettyMap fuel data indent = PrettyMap fuel' data indent.
Proof.
  revert fuel' data indent. induction fuel as [|fuel IH];
    intros [|fuel'] data indent Hd Hd'; try lia.
  simpl. apply builder_ext. intros k _. unfold PrettyMap_entry.
  pose proof (map_index_depth data k) as Hk.
  destruct (map_index data k) as [|sub|t|pv]; try done.
  rewrite value_depth_VMap in Hk. rewrite (IH fuel' sub); [done|lia|lia].
Qed.

Lemma PrettyMap_same fuel data data' indent :
  same_value (VMap data) (VMap data') →
  PrettyMap fuel data indent = PrettyMap fuel data' indent.
Proof.
  revert data data' indent. induction fuel as [|fuel IH]; intros data data' indent Hsame;
    [done|].
  inversion Hsame as [|? ? Hperm Hvals| |]; subst. simpl.
  rewrite <-(sort_Strings_perm _ _ Hperm). apply builder_ext. intros k Hk.
  assert (Hin : k ∈ data.*1).
  { unfold sort_Strings in Hk. by rewrite merge_sort_Permutation in Hk. }
  specialize (Hvals k Hin). unfold PrettyMap_entry.
  destruct (map_index data k) as [|sub|t|pv]; inversion Hvals as [|? ? ? ? Hsub| |];
    subst; try done.
  assert (Hrec : same_value (VMap sub) (VMap data'0)) by by constructor.
  by rewrite (IH sub data'0 _ Hrec).
Qed.

(** X23: the output of [PrettyMap] does not depend on the order in which
    its maps are run over.  For two presentations of the same value (the
    same keys, and under each key the same value, at every depth of
    nesting) [PrettyMap] returns, and returns the same text: with more
    fuel than the nesting is deep there is a result, the same for every
    such fuel and for both presentations. *)
Theorem PrettyMap_iteration_order data data' indent :
  same_value (VMap data) (VMap data') →
  ∃ out, ∀ fuel, map_depth data < fuel →
    PrettyMap fuel data indent = Some out ∧ PrettyMap fuel data' indent = Some out.
Proof.
  intros Hsame.
  destruct (PrettyMap_enough (S (map_depth data)) data indent) as [out Hout]; [lia|].
  exists out. intros fuel Hfuel.
  assert (Hd : PrettyMap fuel data indent = Some out).
  { rewrite <-Hout. apply PrettyMap_fuel; lia. }
  split; [done|]. by rewrite <-(PrettyMap_same fuel data data' indent Hsame).
Qed.

(** Every value is the same as itself, and a map is the same as itself
    run over in another order. *)
Lemma same_value_refl v : same_value v v.
Proof.
  remember (value_depth v) as n eqn:Hn. revert v Hn.
  induction (lt_wf n) as [n _ IH]. intros [|data|t|pv] Hn; try constructor; [done|].
  intros k _. pose proof (map_index_depth data k) as Hk.
  rewrite value_depth_VMap in Hn. eapply IH; [|done]. lia.
Qed.

Lemma NoDup_fst_unique {A B : Type} (l : list (A * B)) x y y' :
  NoDup l.*1 → (x, y) ∈ l → (x, y') ∈ l → y = y'.
Proof.
  induction l as [|[x0 y0] l IH]; simpl; intros Hnd H1 H2.
  - by apply elem_of_nil in H1.
  - apply NoDup_cons in Hnd as [Hx Hnd].
    assert (Hfst : ∀ z, (x0, z) ∈ l → False).
    { intros z Hz. apply Hx. apply list_elem_of_fmap. by exists (x0, z). }
    apply elem_of_cons in H1 as [[= -> ->]|H1]; apply elem_of_cons in H2 as [[= ?]|H2];
      subst; try done.
    + by destruct (Hfst _ H2).
    + by destruct (Hfst _ H1).
    + by eapply IH.
Qed.

Lemma map_index_perm data data' k :
  NoDup data.*1 → data ≡ₚ data' → map_index data k = map_index data' k.
Proof.
  intros Hnd Hperm.
  assert (Hfind : ∀ d, NoDup d.*1 →
            ∀ v, map_index d k = v ↔ ((k, v) ∈ d ∨ ((k ∉ d.*1) ∧ v = VNil))).
  { clear. intros d Hnd v. unfold map_index.
    destruct (list_find (λ e, e.1 = k) d) as [[i [k' v']]|] eqn:E; simpl.
    - apply list_find_Some in E as (Hi & Hk & _). simpl in Hk. subst k'.
      apply list_elem_of_lookup_2 in Hi. split.
      + intros <-. by left.
      + intros [Hin|[Hout _]].
        * by eapply (NoDup_fst_unique d k).
        * exfalso. apply Hout. apply list_elem_of_fmap. by exists (k, v').
    - apply list_find_None in E. rewrite Forall_forall in E. split.
      + intros <-. right. split; [|done]. intros ([k' v'] & Hk' & Hin)%list_elem_of_fmap.
        simpl in Hk'. subst k'. by apply (E _ Hin).
      + intros [Hin|[_ ->]]; [|done]. by destruct (E _ Hin). }
  assert (Hnd' : NoDup data'.*1) by (by rewrite <-Hperm).
  symmetry. apply (Hfind data' Hnd').
  destruct (proj1 (Hfind data Hnd (map_index data k)) eq_refl) as [Hin|[Hout Hnil]].
  - left. by rewrite <-Hperm.
  - right. split; [by rewrite <-Hperm|done].
Qed.

Lemma same_value_permuted data data' :
  NoDup data.*1 → data ≡ₚ data' → same_value (VMap data) (VMap data').
Proof.
  intros Hnd Hperm. constructor; [by rewrite Hperm|].
  intros k _. rewrite (map_index_perm data data' k Hnd Hperm). apply same_value_refl.
Qed.

End PrettyMapFacts.

(** * Coming and going *)

Section Lifecycle.
Context {T : Type} {sorter : Sorter} {contract : SorterContract sorter}.
Implicit Types (s : State (T:=T)) (c : Consumer (T:=T)) (h : list (Consumer (T:=T))).
Implicit Types (p q : ptr) (item : T) (tr : list (Action (T:=T))).

Lemma removeConsumer_snoc p (l : list ptr) : p ∉ l → removeConsumer p (l ++ [p]) = l.
Proof.
  induction l as [|r l IH]; simpl; intros Hni.
  - by rewrite Nat.eqb_refl.
  - apply not_elem_of_cons in Hni as [Hne Hni].
    destruct (r =? p) eqn:E; [apply Nat.eqb_eq in E; congruence|]. by rewrite IH.
Qed.

(** Creation, cancellation and the watcher's step, one after the other. *)
Lemma create_cancel_traces kind icap ccap s id parent_done now (by_Close : bool) :
  reachable kind icap ccap s →
  let p := fst (CreateConsumer id parent_done now s) in
  let cancelling := if by_Close then AConsumerClose p else ACtxCancel p in
  ∀ tr, tr = [ACreateConsumer id parent_done now; cancelling; AWatcher p]
        ∨ (parent_done = true ∧ tr = [ACreateConsumer id parent_done now; AWatcher p]) →
  ∃ s', exec tr s = Some s'
        ∧ consumers s' = consumers s
        ∧ (input s', done s', closeOnce s', pc s', closer s')
          = (input s, done s, closeOnce s, pc s, closer s)
        ∧ length (heap s') = S (length (heap s))
        ∧ (∀ q c, heap s !! q = Some c → heap s' !! q = Some c)
        ∧ ∃ c', heap s' !! p = Some c' ∧ ctx_done c' = true ∧ watching c' = false.
Proof.
  intros Hreach p cancelling tr Htr.
  pose proof (wf_reachable _ _ _ _ Hreach) as Hwf.
  assert (Hp : p = length (heap s)) by done.
  assert (Hfresh : p ∉ consumers s).
  { intros Hin. pose proof (wf_reg s Hwf p Hin). lia. }
  set (c0 := start_watcher (newConsumer (T:=T) id parent_done now
                                        (consumer_buffer_size s))).
  assert (Hwatch : ∀ c1, watching c1 = true → ctx_done c1 = true →
            ∃ s', exec [AWatcher p]
                    (upd_consumers (upd_heap s (heap s ++ [c1])) (consumers s ++ [p]))
                  = Some s'
                  ∧ consumers s' = consumers s
                  ∧ (input s', done s', closeOnce s', pc s', closer s')
                    = (input s, done s, closeOnce s, pc s, closer s)
                  ∧ length (heap s') = S (length (heap s))
                  ∧ (∀ q c, heap s !! q = Some c → heap s' !! q = Some c)
                  ∧ ∃ c', heap s' !! p = Some c' ∧ ctx_done c' = true
                          ∧ watching c' = false).
  { intros c1 Hw Hd. eexists. split.
    - cbn [exec step]. unfold watcher_step. cbn [heap upd_heap upd_consumers].
      rewrite lookup_app_r by (rewrite Hp; done). rewrite Hp, Nat.sub_diag. simpl.
      rewrite Hw, Hd. simpl. reflexivity.
    - simpl. split_and!.
      + rewrite <-Hp. by apply removeConsumer_snoc.
      + done.
      + rewrite length_insert, length_app. simpl. lia.
      + intros q c Hq. rewrite list_lookup_insert_ne.
        * by apply lookup_app_l_Some.
        * apply lookup_lt_Some in Hq. lia.
      + exists (stop_watcher c1). split; [|done].
        apply list_lookup_insert_eq. rewrite length_app. simpl. lia. }
  assert (Hnew : (heap s ++ [c0]) !! p = Some c0).
  { rewrite lookup_app_r by (rewrite Hp; done). by rewrite Hp, Nat.sub_diag. }
  destruct Htr as [->|[-> ->]].
  - cbn [exec step]. fold p.
    assert (Hcancel : ∃ c1, watching c1 = true ∧ ctx_done c1 = true
              ∧ step cancelling (snd (CreateConsumer id parent_done now s))
                = Some (upd_consumers (upd_heap s (heap s ++ [c1])) (consumers s ++ [p]))).
    { subst cancelling. destruct by_Close; cbn [step CreateConsumer snd heap upd_heap
        upd_consumers]; fold c0; fold p.
      - unfold Consumer_Close. rewrite Hnew. simpl.
        eexists. split; [|split; [|f_equal]]; last first.
        + unfold upd_consumers, upd_heap. simpl. f_equal.
          rewrite Hp. rewrite insert_app_r_alt by done. by rewrite Nat.sub_diag.
        + done.
        + done.
      - unfold ctx_cancel. rewrite Hnew.
        eexists. split; [|split; [|f_equal]]; last first.
        + unfold upd_consumers, upd_heap. simpl. f_equal.
          rewrite Hp. rewrite insert_app_r_alt by done. by rewrite Nat.sub_diag.
        + done.
        + done. }
    destruct Hcancel as (c1 & Hw1 & Hd1 & ->). by apply Hwatch.
  - cbn [exec step CreateConsumer snd]. fold p. fold c0. by apply Hwatch.
Qed.

(** X20: a Consumer that comes and goes leaves no trace in the registry.
    From any state of any execution, creating a Consumer, cancelling it (by
    its [Close] or through its context) and letting its watcher run gives
    back the registry as it was, in the same order, with [input], [done],
    the dispatch goroutine and every other Consumer untouched; when the
    context passed in was cancelled already, the watcher's step alone does
    it. *)
Theorem create_cancel_round_trip kind icap ccap s id parent_done now (by_Close : bool) :
  reachable kind icap ccap s →
  let p := fst (CreateConsumer id parent_done now s) in
  let cancelling := if by_Close then AConsumerClose p else ACtxCancel p in
  (∃ s', exec [ACreateConsumer id parent_done now; cancelling; AWatcher p] s = Some s'
         ∧ restored s p s')
  ∧ (parent_done = true →
     ∃ s', exec [ACreateConsumer id parent_done now; AWatcher p] s = Some s'
           ∧ restored s p s').
Proof.
  intros Hreach p cancelling.
  pose proof (create_cancel_traces kind icap ccap s id parent_done now by_Close Hreach)
    as Htr.
  split.
  - destruct (Htr _ (or_introl eq_refl)) as (s' & Hex & Hrest). by exists s'.
  - intros Hpd. destruct (Htr _ (or_intror (conj Hpd eq_refl))) as (s' & Hex & Hrest).
    by exists s'.
Qed.

(** X21: [input] takes what it has room for.  On an open Producer whose
    dispatch goroutine is not waiting on [input], a series of writes with
    nothing running in between puts the first items on [input], as many as
    it has free slots, and leaves the others out; nothing else changes. *)
Theorem input_takes_its_capacity kind icap ccap s (ws : list (T * nat)) :
  reachable kind icap ccap s →
  done s = false →
  ch_recvq (input s) = 0 →
  ∃ s', exec ((λ w, AWrite w.1 w.2) <$> ws) s = Some s'
        ∧ ch_buf (input s')
          = ch_buf (input s) ++ take (icap - length (ch_buf (input s))) ws.*1
        ∧ ch_recvd (input s') = ch_recvd (input s)
        ∧ (heap s', consumers s', pc s', done s') = (heap s, consumers s, pc s, done s).
Proof.
  intros Hreach. 
  assert (Hcap : ch_cap (input s) = icap).
  { destruct Hreach as [tr Htr]. apply exec_params in Htr. by injection Htr. }
  clear Hreach. revert s Hcap. induction ws as [|[item rnd] ws IH]; intros s Hcap Hd Hq.
  - exists s. simpl. rewrite take_nil, app_nil_r. done.
  - cbn [fmap list_fmap exec step fst snd].
    assert (Hw : snd (Write item rnd s)
              = if length (ch_buf (input s)) <? ch_cap (input s)
                then upd_input s (mkChan (ch_cap (input s)) (ch_buf (input s) ++ [item])
                                         (ch_recvq (input s)) (ch_recvd (input s)))
                else s).
    { unfold Write, can_send. rewrite Hq, Hd. change (0 <? 0) with false. cbn [orb].
      destruct (length (ch_buf (input s)) <? ch_cap (input s)) eqn:E.
      - rewrite go_select_first. simpl. unfold send_input, chansend. by rewrite Hq.
      - by rewrite go_select_none. }
    rewrite Hw. destruct (length (ch_buf (input s)) <? ch_cap (input s)) eqn:E.
    + apply Nat.ltb_lt in E.
      destruct (IH (upd_input s (mkChan (ch_cap (input s)) (ch_buf (input s) ++ [item])
                                        (ch_recvq (input s)) (ch_recvd (input s)))))
        as (s' & Hex & Hbuf & Hrec & Hrest); try done.
      exists s'. split; [done|]. split; [|done].
      rewrite Hbuf. simpl. rewrite length_app. simpl.
      replace (icap - length (ch_buf (input s))) with
        (S (icap - (length (ch_buf (input s)) + 1))) by lia.
      simpl. by rewrite <-app_assoc.
    + apply Nat.ltb_ge in E. destruct (IH s) as (s' & Hex & Hbuf & Hrest); try done.
      exists s'. split; [done|]. split; [|done]. rewrite Hbuf.
      replace (icap - length (ch_buf (input s))) with 0 by lia. done.
Qed.

(** Once [done] is closed nothing is parked on [input]. *)
Lemma closed_unparked_step a s s' :
  wf s → (done s = true → ch_recvq (input s) = 0) → step a s = Some s' →
  done s' = true → ch_recvq (input s') = 0.
Proof.
  intros Hwf Hs. destruct a; simpl; try (by intros [= <-]).
  - intros [= <-]. unfold Write. destruct (go_select _ rnd) as [[]|]; simpl; try done.
    unfold send_input, chansend.
    destruct (0 <? ch_recvq (input s)) eqn:E; simpl; [|done].
    intros Hd. rewrite (Hs Hd) in E. done.
  - unfold Close, close_done. destruct (closeOnce s); [by intros [= <-]|]. simpl.
    destruct (done s); [done|]. intros [= <-].
    destruct (0 <? ch_recvq (input s)) eqn:E; simpl; [done|].
    intros _. apply Nat.ltb_ge in E. lia.
  - intros [= <-]. by destruct (read_step_shape p s) as (h & -> & _).
  - intros [= <-]. unfold loop_step. destruct (dispatcher s) as [g|]; [|done].
    destruct (pc s) as [|item|]; [| |done].
    + destruct (0 <? ch_recvq (input s)); [done|].
      destruct (go_select _ rnd) as [[]|] eqn:E; try done.
      * unfold chanrecv. destruct (ch_buf (input s)); [done|]. simpl. done.
      * apply go_select_two in E as [_ Hopen]. simpl. congruence.
    + by destruct (deliver_shape g item rnd now (upd_pc s AtSelect)) as (l & h & -> & _).
  - intros [= <-]. unfold shutdown_step. by destruct (done s && closer s).
  - intros [= <-]. unfold watcher_step. destruct (heap s !! p); [|done].
    by destruct (watching _ && ctx_done _).
Qed.

Lemma closed_unparked kind icap ccap s :
  reachable kind icap ccap s → done s = true → ch_recvq (input s) = 0.
Proof.
  intros [tr Htr].
  assert (Hgen : ∀ s0, wf s0 → (done s0 = true → ch_recvq (input s0) = 0) →
            exec tr s0 = Some s → done s = true → ch_recvq (input s) = 0).
  { clear Htr. induction tr as [|a tr IH]; simpl; intros s0 Hwf0 Hs0.
    - by intros [= <-].
    - destruct (step a s0) as [s1|] eqn:E; [|done].
      apply IH; [by eapply wf_step|by eapply closed_unparked_step]. }
  by apply (Hgen _ (wf_NewProducer kind icap ccap)).
Qed.

(** X22: [Close] does not wait for [input] to be drained.  Once [done] is
    closed the dispatch goroutine can return at its next [select], after
    the delivery of the item it holds if it holds one: at most two of its
    steps, and everything that is queued on [input] stays there. *)
Theorem Close_may_strand_items kind icap ccap s now :
  reachable kind icap ccap s →
  done s = true →
  is_Some (dispatcher s) →
  ∃ n s', n ≤ 2
          ∧ exec (replicate n (ALoop 1 now)) s = Some s'
          ∧ pc s' = Returned
          ∧ ch_buf (input s') = ch_buf (input s)
          ∧ ch_recvd (input s') = ch_recvd (input s).
Proof.
  intros Hreach Hd [g Hg]. pose proof (wf_reachable _ _ _ _ Hreach) as Hwf.
  pose proof (closed_unparked _ _ _ _ Hreach Hd) as Hq.
  assert (Hselect : ∀ s0, dispatcher s0 = Some g → pc s0 = AtSelect → done s0 = true →
            ch_recvq (input s0) = 0 →
            loop_step 1 now s0 = upd_pc s0 Returned).
  { intros s0 Hg0 Hpc0 Hd0 Hq0. unfold loop_step. rewrite Hg0, Hpc0, Hq0, Hd0.
    cbn [Nat.ltb Nat.leb].
    destruct (can_recv (input s0)); [by rewrite go_select_both|by rewrite go_select_second]. }
  destruct (pc s) as [|item|] eqn:Epc.
  - exists 1, (upd_pc s Returned). split; [lia|]. cbn [replicate exec step].
    by rewrite Hselect.
  - exists 2, (upd_pc (loop_step 1 now s) Returned). split; [lia|].
    cbn [replicate exec step].
    assert (Hl : pc (loop_step 1 now s) = AtSelect ∧ input (loop_step 1 now s) = input s).
    { unfold loop_step. rewrite Hg, Epc.
      by destruct (deliver_shape g item 1 now (upd_pc s AtSelect)) as (l & h & -> & _). }
    destruct Hl as [Hpc1 Hin1].
    destruct (loop_step_fields 1 now s) as (Hpar & Hd1 & _).
    rewrite Hselect.
    + simpl. by rewrite Hin1.
    + by injection Hpar as _ _ ->.
    + done.
    + congruence.
    + by rewrite Hin1.
  - exists 0, s. split; [lia|]. done.
Qed.

End Lifecycle.

(** * LRU over many rounds *)

Section Rounds.
Context {T : Type} {sorter : Sorter} {contract : SorterContract sorter}.
Implicit Types (s : State (T:=T)) (c : Consumer (T:=T)) (h : list (Consumer (T:=T))).
Implicit Types (p q : ptr) (item : T) (items : list (T * Timestamp)).

Lemma lru_rounds_app items1 items2 s :
  lru_rounds (items1 ++ items2) s = lru_rounds items2 (lru_rounds items1 s).
Proof. unfold lru_rounds. apply fold_left_app. Qed.

Lemma lru_rounds_keeps items s :
  wf s →
  wf (lru_rounds items s)
  ∧ consumers (lru_rounds items s) ≡ₚ consumers s
  ∧ consumer_buffer_size (lru_rounds items s) = consumer_buffer_size s.
Proof.
  revert s. induction items as [|x items IH]; intros s Hwf; [done|].
  unfold lru_rounds in *. simpl.
  destruct (deliver_shape goroutine_Producer_lru x.1 0 (steady x.2) s)
    as (l & h & Heq & Hl & _).
  change (deliver_lru x.1 x.2 s = upd_heap (upd_consumers s l) h) in Heq.
  destruct (IH (deliver_lru x.1 x.2 s)) as (Hwf' & Hperm & Hsize).
  { by apply (wf_deliver goroutine_Producer_lru _ 0 (steady _)). }
  split; [done|]. rewrite Hperm, Hsize, Heq. simpl. done.
Qed.

Lemma lru_rounds_even (rounds : list (list (T * Timestamp))) s :
  wf s →
  Forall (λ r, length r = length (consumers s)) rounds →
  StronglySorted (λ x y, x.2 < y.2) (concat rounds) →
  (∀ x q, x ∈ concat rounds → q ∈ consumers s → lastUsed_at (heap s) q < x.2) →
  (∀ q c, q ∈ consumers s → heap s !! q = Some c →
     length (ch_buf (Messages c)) + length rounds ≤ consumer_buffer_size s) →
  ∀ p, p ∈ consumers s →
    ∃ c c', heap s !! p = Some c
            ∧ heap (lru_rounds (concat rounds) s) !! p = Some c'
            ∧ length (ch_sent (Messages c'))
              = length (ch_sent (Messages c)) + length rounds.
Proof.
  revert s. induction rounds as [|r rounds IH]; intros s Hwf Hlen Hsorted Htime Hroom p Hp.
  - destruct (lookup_lt_is_Some_2 _ _ (wf_reg s Hwf p Hp)) as [c Hc].
    exists c, c. simpl. split; [done|]. split; [done|lia].
  - apply Forall_cons in Hlen as [Hr Hlen]. cbn [concat] in *.
    apply StronglySorted_app in Hsorted as (Hbefore & Hsr & Hsrest).
    rewrite lru_rounds_app. set (s1 := lru_rounds r s).
    destruct (lru_rounds_keeps r s Hwf) as (Hwf1 & Hperm1 & Hsize1). fold s1 in Hwf1, Hperm1, Hsize1.
    destruct (lru_rounds_serves r s [] Hwf) as (order & Hord & _ & Hserved & _).
    { constructor. }
    { by intros ? ?%elem_of_nil. }
    { done. }
    { intros x q Hx Hq _. apply Htime; [|done]. apply elem_of_app. by left. }
    { by intros ? ? ?%elem_of_nil. }
    { intros q c Hq _ Hc. pose proof (Hroom q c Hq Hc) as Hle.
      pose proof (wf_cap s Hwf q c Hc) as Hcap. simpl in Hle.
      unfold can_send. apply orb_true_iff. right. apply Nat.ltb_lt. lia. }
    simpl in Hord. fold s1 in Hserved.
    assert (Hone : ∀ q, q ∈ consumers s →
              ∃ c y, heap s !! q = Some c ∧ y ∈ r
                     ∧ heap s1 !! q = Some (pushed c y.1 y.2)).
    { intros q Hq. rewrite <-Hord in Hq. apply list_elem_of_lookup_1 in Hq as [i Hi].
      assert (Hi' : i < length r).
      { rewrite Hr, <-Hord. by eapply lookup_lt_Some. }
      destruct (lookup_lt_is_Some_2 _ _ Hi') as [y Hy].
      destruct (Hserved i q y Hi Hy) as (c & Hc & Hfin).
      exists c, y. split; [done|]. split; [by eapply list_elem_of_lookup_2|done]. }
    destruct (IH s1 Hwf1) with (p := p) as (c1 & c' & Hc1 & Hc' & Hcount).
    + eapply Forall_impl; [exact Hlen|]. intros r' Hr'. simpl in *. by rewrite Hperm1.
    + done.
    + intros x q Hx Hq. rewrite Hperm1 in Hq.
      destruct (Hone q Hq) as (c & y & Hc & Hy & Hq1).
      unfold lastUsed_at. rewrite Hq1. simpl. by apply Hbefore.
    + intros q c1 Hq Hc1. rewrite Hperm1 in Hq.
      destruct (Hone q Hq) as (c & y & Hc & Hy & Hq1).
      assert (c1 = pushed c y.1 y.2) as -> by congruence.
      pose proof (Hroom q c Hq Hc) as Hle. rewrite Hsize1. simpl in *.
      unfold chansend. destruct (0 <? ch_recvq (Messages c)); simpl; [lia|].
      rewrite length_app. simpl. lia.
    + by rewrite Hperm1.
    + destruct (Hone p Hp) as (c & y & Hc & Hy & Hp1).
      assert (c1 = pushed c y.1 y.2) as -> by congruence.
      exists c, c'. split; [done|]. split; [done|]. rewrite Hcount. simpl.
      rewrite (chansend_sent _ _ (wf_chan s Hwf p c Hc)), length_app. simpl. lia.
Qed.

(** X24: LRU shares the items out evenly.  With the clock advancing from
    one delivery to the next, items delivered in rounds of as many items as
    there are registered Consumers, and room in every queue for one item
    of each round, every registered Consumer is sent exactly one item of
    each round. *)
Theorem lru_even_distribution kind icap ccap s (rounds : list (list (T * Timestamp))) :
  reachable kind icap ccap s →
  Forall (λ r, length r = length (consumers s)) rounds →
  StronglySorted (λ x y, x.2 < y.2) (concat rounds) →
  (∀ x q, x ∈ concat rounds → q ∈ consumers s → lastUsed_at (heap s) q < x.2) →
  (∀ q c, q ∈ consumers s → heap s !! q = Some c →
     length (ch_buf (Messages c)) + length rounds ≤ ccap) →
  ∀ p, p ∈ consumers s →
    ∃ c c', heap s !! p = Some c
            ∧ heap (lru_rounds (concat rounds) s) !! p = Some c'
            ∧ length (ch_sent (Messages c'))
              = length (ch_sent (Messages c)) + length rounds.
Proof.
  intros Hreach Hlen Hsorted Htime Hroom. pose proof (wf_reachable _ _ _ _ Hreach) as Hwf.
  apply lru_rounds_even; try done.
  assert (Hsize : consumer_buffer_size s = ccap).
  { destruct Hreach as [tr Htr]. apply exec_params in Htr. by injection Htr. }
  by rewrite Hsize.
Qed.

End Rounds.

(** * The further theorems on concrete runs *)

Lemma returned_run_reachable : reachable ProducerKind_Single 4 4 returned_run.
Proof. exists returned_trace. vm_compute. reflexivity. Defined.

Lemma closing_run_reachable : reachable ProducerKind_LRU 4 4 closing_run.
Proof. exists closing_trace. vm_compute. reflexivity. Defined.

Lemma shut_run_reachable : reachable ProducerKind_LRU 4 4 shut_run.
Proof. exists shut_trace. vm_compute. reflexivity. Defined.

Lemma queues_bounded_witness :
  reachable ProducerKind_LRU 4 4 lru_run
  ∧ length (ch_buf (input lru_run)) ≤ 4
  ∧ ∀ p c, heap lru_run !! p = Some c →
      ch_cap (Messages c) = 4 ∧ length (ch_buf (Messages c)) ≤ 4.
Proof.
  split; [exact lru_run_reachable|].
  exact (queues_bounded ProducerKind_LRU 4 4 lru_run lru_run_reachable).
Defined.

Lemma delivered_in_order_witness :
  exec lru_trace (NewProducer ProducerKind_LRU 4 4) = Some lru_run
  ∧ heap lru_run !! 0 = Some (mkConsumer "a" (mkChan 4 [7] 0 []) 30 false false true)
  ∧ [7] `sublist_of` ch_recvd (input lru_run)
  ∧ ch_recvd (input lru_run) `prefix_of` ch_sent (input lru_run)
  ∧ ch_sent (input lru_run) `sublist_of` writes lru_trace.
Proof.
  assert (Hex : exec lru_trace (NewProducer ProducerKind_LRU 4 4) = Some lru_run)
    by (vm_compute; reflexivity).
  assert (Hc : heap lru_run !! 0
               = Some (mkConsumer "a" (mkChan 4 [7] 0 []) 30 false false true))
    by (vm_compute; reflexivity).
  split; [exact Hex|]. split; [exact Hc|].
  exact (delivered_in_order ProducerKind_LRU 4 4 lru_trace lru_run 0 _ Hex Hc).
Defined.

Lemma returned_is_final_witness :
  reachable ProducerKind_Single 4 4 returned_run
  ∧ pc returned_run = Returned
  ∧ exec late_trace returned_run = Some (run late_trace returned_run)
  ∧ pc (run late_trace returned_run) = Returned
  ∧ ch_recvd (input (run late_trace returned_run)) = ch_recvd (input returned_run)
  ∧ ∀ p c', heap (run late_trace returned_run) !! p = Some c' →
      ch_sent (Messages c')
      = match heap returned_run !! p with Some c => ch_sent (Messages c) | None => [] end.
Proof.
  assert (Hex : exec late_trace returned_run = Some (run late_trace returned_run))
    by (vm_compute; reflexivity).
  split; [exact returned_run_reachable|]. split; [reflexivity|]. split; [exact Hex|].
  exact (returned_is_final ProducerKind_Single 4 4 returned_run late_trace _
           returned_run_reachable eq_refl Hex).
Defined.

Lemma shutdown_empties_registry_witness :
  reachable ProducerKind_LRU 4 4 closing_run
  ∧ done closing_run = true ∧ closer closing_run = true
  ∧ [1; 0] ≡ₚ consumers closing_run
  ∧ closer (shutdown_step closing_run) = false
  ∧ consumers (shutdown_step closing_run) = consumers closing_run
  ∧ (∀ p c, p ∈ consumers closing_run → heap closing_run !! p = Some c →
       ∃ c', heap (shutdown_step closing_run) !! p = Some c'
             ∧ ctx_done c' = true ∧ c_closeOnce c' = true
             ∧ (c_id c', Messages c', lastUsed c', watching c')
               = (c_id c, Messages c, lastUsed c, watching c))
  ∧ ∃ s2, exec (AWatcher <$> [1; 0]) (shutdown_step closing_run) = Some s2
          ∧ consumers s2 = [].
Proof.
  assert (Hperm : [1; 0] ≡ₚ consumers closing_run) by (vm_compute; apply perm_swap).
  split; [exact closing_run_reachable|]. split; [reflexivity|]. split; [reflexivity|].
  split; [exact Hperm|].
  exact (shutdown_empties_registry ProducerKind_LRU 4 4 closing_run [1; 0]
           closing_run_reachable eq_refl eq_refl Hperm).
Defined.

Lemma late_consumer_never_cancelled_witness :
  reachable ProducerKind_LRU 4 4 shut_run
  ∧ closer shut_run = false
  ∧ Forall (not_cancelling (fst (CreateConsumer "c" false 50 shut_run))) late_trace
  ∧ exec late_trace (snd (CreateConsumer "c" false 50 shut_run))
    = Some (run late_trace (snd (CreateConsumer "c" false 50 shut_run)))
  ∧ done (run late_trace (snd (CreateConsumer "c" false 50 shut_run))) = true
  ∧ fst (CreateConsumer "c" false 50 shut_run)
    ∈ consumers (run late_trace (snd (CreateConsumer "c" false 50 shut_run)))
  ∧ ctx_done <$> heap (run late_trace (snd (CreateConsumer "c" false 50 shut_run)))
                   !! fst (CreateConsumer "c" false 50 shut_run)
    = Some false.
Proof.
  assert (Hnc : Forall (not_cancelling (fst (CreateConsumer "c" false 50 shut_run)))
                       late_trace)
    by (repeat constructor).
  assert (Hex : exec late_trace (snd (CreateConsumer "c" false 50 shut_run))
                = Some (run late_trace (snd (CreateConsumer "c" false 50 shut_run))))
    by (vm_compute; reflexivity).
  split; [exact shut_run_reachable|]. split; [reflexivity|]. split; [exact Hnc|].
  split; [exact Hex|].
  exact (late_consumer_never_cancelled ProducerKind_LRU 4 4 shut_run "c" 50 late_trace _
           shut_run_reachable eq_refl Hnc Hex).
Defined.

Lemma lru_ready_reachable : reachable ProducerKind_LRU 4 4 lru_ready.
Proof. exists lru_ready_trace. vm_compute. reflexivity. Defined.

Lemma single_lru_at_most_once_witness :
  ProducerKind_LRU ≠ ProducerKind_All
  ∧ reachable ProducerKind_LRU 4 4 lru_run
  ∧ all_sent (heap lru_run) ++ held lru_run ⊆+ ch_recvd (input lru_run)
  ∧ length (all_sent (heap lru_run)) + length (held lru_run)
    ≤ length (ch_recvd (input lru_run)).
Proof.
  assert (Hk : ProducerKind_LRU ≠ ProducerKind_All) by discriminate.
  split; [exact Hk|]. split; [exact lru_run_reachable|].
  exact (single_lru_at_most_once ProducerKind_LRU 4 4 lru_run Hk lru_run_reachable).
Defined.

Lemma single_lru_exactly_once_witness :
  (ProducerKind_LRU = ProducerKind_Single ∨ ProducerKind_LRU = ProducerKind_LRU)
  ∧ reachable ProducerKind_LRU 4 4 lru_ready
  ∧ done lru_ready = false
  ∧ ch_sent (input lru_ready) = []
  ∧ 0 ∈ consumers lru_ready
  ∧ ctx_done <$> heap lru_ready !! 0 = Some false
  ∧ Forall (undisturbed [0]) three_writes
  ∧ length (writes three_writes) ≤ 4
  ∧ exec three_writes lru_ready = Some (run three_writes lru_ready)
  ∧ ch_sent (input (run three_writes lru_ready)) = writes three_writes
  ∧ all_sent (heap (run three_writes lru_ready)) ++ held (run three_writes lru_ready)
    ≡ₚ ch_recvd (input (run three_writes lru_ready))
  ∧ ∃ n s', exec (replicate n (ALoop 0 (steady 0))) (run three_writes lru_ready) = Some s'
            ∧ all_sent (heap s') ≡ₚ writes three_writes
            ∧ length (all_sent (heap s')) = length (writes three_writes).
Proof.
  assert (Hreg : 0 ∈ consumers lru_ready) by (vm_compute; left).
  assert (Hund : Forall (undisturbed [0]) three_writes).
  { repeat constructor. intros Hin. apply list_elem_of_In in Hin. simpl in Hin.
    destruct Hin as [Heq|[]]. discriminate Heq. }
  assert (Hlen : length (writes three_writes) ≤ 4) by (vm_compute; lia).
  assert (Hex : exec three_writes lru_ready = Some (run three_writes lru_ready))
    by (vm_compute; reflexivity).
  split; [by right|]. split; [exact lru_ready_reachable|]. split; [reflexivity|].
  split; [reflexivity|]. split; [exact Hreg|]. split; [reflexivity|].
  split; [exact Hund|]. split; [exact Hlen|]. split; [exact Hex|].
  exact (single_lru_exactly_once ProducerKind_LRU 4 4 lru_ready three_writes _ 0
           (or_intror eq_refl) lru_ready_reachable eq_refl eq_refl Hreg eq_refl Hund
           Hlen Hlen Hex).
Defined.

Lemma lru_blocked_reachable : reachable ProducerKind_LRU 4 1 lru_blocked.
Proof. exists lru_blocked_trace. vm_compute. reflexivity. Defined.

Lemma all_offers_each_witness :
  reachable ProducerKind_All 4 4 all_ready
  ∧ consumers (deliver goroutine_Producer_all 7 0 (ticking 30) all_ready)
    = consumers all_ready
  ∧ length (heap (deliver goroutine_Producer_all 7 0 (ticking 30) all_ready))
    = length (heap all_ready)
  ∧ (∀ i p c, consumers all_ready !! i = Some p → heap all_ready !! p = Some c →
       heap (deliver goroutine_Producer_all 7 0 (ticking 30) all_ready) !! p
       = Some (try_push 7 (ticking 30 i) c))
  ∧ (∀ p c, p ∉ consumers all_ready → heap all_ready !! p = Some c →
       heap (deliver goroutine_Producer_all 7 0 (ticking 30) all_ready) !! p = Some c).
Proof.
  split; [exact all_ready_reachable|].
  exact (all_offers_each ProducerKind_All 4 4 all_ready 7 0 (ticking 30)
           all_ready_reachable).
Defined.

(** With the clock advancing between the two pushes the Consumers of
    [all_ready] are left with different [lastUsed], the first pushed to
    the earlier one. *)
Example all_ready_stamps :
  heap (deliver goroutine_Producer_all 7 0 (ticking 30) all_ready)
  = [mkConsumer "a" (mkChan 4 [7] 0 []) 30 false false true;
     mkConsumer "b" (mkChan 4 [7] 0 []) 31 false false true]
  ∧ Less (heap (deliver goroutine_Producer_all 7 0 (ticking 30) all_ready)) 0 1 = true.
Proof. split; vm_compute; reflexivity. Qed.

Lemma lru_round_robin_witness :
  reachable ProducerKind_LRU 4 4 lru_ready
  ∧ length [(7, 30); (8, 31)] = length (consumers lru_ready)
  ∧ (∀ x q, x ∈ [(7, 30); (8, 31)] → q ∈ consumers lru_ready →
       lastUsed_at (heap lru_ready) q < x.2)
  ∧ (∀ q c, q ∈ consumers lru_ready → heap lru_ready !! q = Some c →
       can_send (Messages c) = true)
  ∧ ∃ order,
      order ≡ₚ consumers lru_ready
      ∧ StronglySorted
          (λ a b, lastUsed_at (heap lru_ready) a ≤ lastUsed_at (heap lru_ready) b) order
      ∧ ∀ i p x, order !! i = Some p → [(7, 30); (8, 31)] !! i = Some x →
          ∃ c, heap lru_ready !! p = Some c
               ∧ heap (lru_rounds [(7, 30); (8, 31)] lru_ready) !! p
                 = Some (pushed c x.1 x.2).
Proof.
  assert (Hreg : consumers lru_ready = [0; 1]) by (vm_compute; reflexivity).
  assert (Hlen : length [(7, 30); (8, 31)] = length (consumers lru_ready))
    by (vm_compute; reflexivity).
  assert (Htime : ∀ x q, x ∈ [(7, 30); (8, 31)] → q ∈ consumers lru_ready →
            lastUsed_at (heap lru_ready) q < x.2).
  { intros x q Hx Hq. rewrite Hreg in Hq.
    apply list_elem_of_In in Hx. apply list_elem_of_In in Hq. simpl in Hx, Hq.
    destruct Hx as [<-|[<-|[]]]; destruct Hq as [<-|[<-|[]]]; vm_compute; lia. }
  assert (Hroom : ∀ q c, q ∈ consumers lru_ready → heap lru_ready !! q = Some c →
            can_send (Messages c) = true).
  { intros q c Hq Hc. rewrite Hreg in Hq. apply list_elem_of_In in Hq. simpl in Hq.
    destruct Hq as [<-|[<-|[]]]; vm_compute in Hc; injection Hc as <-; reflexivity. }
  split; [exact lru_ready_reachable|]. split; [exact Hlen|]. split; [exact Htime|].
  split; [exact Hroom|].
  exact (lru_round_robin ProducerKind_LRU 4 4 lru_ready [(7, 30); (8, 31)]
           lru_ready_reachable Hlen Htime Hroom).
Defined.

Lemma lru_full_head_blocks_witness :
  reachable ProducerKind_LRU 4 1 lru_blocked
  ∧ (∀ p, p ∈ consumers lru_blocked →
       (∀ q, q ∈ consumers lru_blocked →
          lastUsed_at (heap lru_blocked) p ≤ lastUsed_at (heap lru_blocked) q) →
       ∃ c, heap lru_blocked !! p = Some c ∧ can_send (Messages c) = false)
  ∧ heap (lru_rounds [(8, 30); (9, 31)] lru_blocked) = heap lru_blocked
  ∧ consumers (lru_rounds [(8, 30); (9, 31)] lru_blocked) ≡ₚ consumers lru_blocked.
Proof.
  assert (Hreg : consumers lru_blocked = [0; 1]) by (vm_compute; reflexivity).
  assert (Hfull : ∀ p, p ∈ consumers lru_blocked →
            (∀ q, q ∈ consumers lru_blocked →
               lastUsed_at (heap lru_blocked) p ≤ lastUsed_at (heap lru_blocked) q) →
            ∃ c, heap lru_blocked !! p = Some c ∧ can_send (Messages c) = false).
  { intros p Hp Hmin. rewrite Hreg in Hp. apply list_elem_of_In in Hp. simpl in Hp.
    destruct Hp as [<-|[<-|[]]].
    - eexists. split; vm_compute; reflexivity.
    - assert (H0 : 0 ∈ consumers lru_blocked) by (rewrite Hreg; left).
      apply Hmin in H0. vm_compute in H0. lia. }
  split; [exact lru_blocked_reachable|]. split; [exact Hfull|].
  exact (lru_full_head_blocks ProducerKind_LRU 4 1 lru_blocked [(8, 30); (9, 31)]
           lru_blocked_reachable Hfull).
Defined.

Lemma lru_loaded_reachable : reachable ProducerKind_LRU 4 4 lru_loaded.
Proof. exists lru_loaded_trace. vm_compute. reflexivity. Defined.

Lemma Consumer_Close_deregisters_witness :
  reachable ProducerKind_LRU 4 4 lru_ready
  ∧ 1 ∈ consumers lru_ready
  ∧ ∃ c c1,
      heap lru_ready !! 1 = Some c
      ∧ Consumer_Close (heap lru_ready) 1 !! 1 = Some c1
      ∧ ctx_done c1 = true ∧ c_closeOnce c1 = true
      ∧ (c_id c1, Messages c1, lastUsed c1) = (c_id c, Messages c, lastUsed c)
      ∧ (∀ q, q ≠ 1 → Consumer_Close (heap lru_ready) 1 !! q = heap lru_ready !! q)
      ∧ Consumer_Close (Consumer_Close (heap lru_ready) 1) 1
        = Consumer_Close (heap lru_ready) 1
      ∧ ∃ s', exec [AConsumerClose 1; AWatcher 1] lru_ready = Some s'
              ∧ consumers s' = filter (λ q, q ≠ 1) (consumers lru_ready).
Proof.
  assert (Hreg : 1 ∈ consumers lru_ready) by (vm_compute; right; left).
  split; [exact lru_ready_reachable|]. split; [exact Hreg|].
  exact (Consumer_Close_deregisters ProducerKind_LRU 4 4 lru_ready 1
           lru_ready_reachable Hreg).
Defined.

Lemma Write_outcomes_witness :
  reachable ProducerKind_Single 4 4 returned_run
  ∧ (consumers (snd (Write 9 1 returned_run)), heap (snd (Write 9 1 returned_run)),
     done (snd (Write 9 1 returned_run)), closeOnce (snd (Write 9 1 returned_run)))
    = (consumers returned_run, heap returned_run, done returned_run,
       closeOnce returned_run)
  ∧ match fst (Write 9 1 returned_run) with
    | None =>
        can_send (input returned_run) = true
        ∧ ch_sent (input (snd (Write 9 1 returned_run)))
          = ch_sent (input returned_run) ++ [9]
        ∧ ch_cap (input (snd (Write 9 1 returned_run))) = ch_cap (input returned_run)
    | Some ErrProducerClosed =>
        done returned_run = true ∧ snd (Write 9 1 returned_run) = returned_run
    | Some ErrBufferFull =>
        done returned_run = false ∧ can_send (input returned_run) = false
        ∧ snd (Write 9 1 returned_run) = returned_run
    end.
Proof.
  split; [exact returned_run_reachable|].
  exact (Write_outcomes ProducerKind_Single 4 4 returned_run 9 1 returned_run_reachable).
Defined.

Lemma registry_invariant_witness :
  reachable ProducerKind_LRU 4 4 shut_run
  ∧ heap shut_run !! 0 = Some shut_a
  ∧ NoDup (consumers shut_run)
  ∧ (∀ q, q ∈ consumers shut_run → q < length (heap shut_run))
  ∧ (watching shut_a = true ↔ 0 ∈ consumers shut_run)
  ∧ (watching shut_a = false → ctx_done shut_a = true)
  ∧ (c_closeOnce shut_a = true → ctx_done shut_a = true)
  ∧ ∀ tr s', exec tr shut_run = Some s' →
      ∃ c', heap s' !! 0 = Some c'
            ∧ (ctx_done shut_a = true → ctx_done c' = true)
            ∧ (0 ∉ consumers shut_run → 0 ∉ consumers s').
Proof.
  assert (Hc : heap shut_run !! 0 = Some shut_a) by (vm_compute; reflexivity).
  split; [exact shut_run_reachable|]. split; [exact Hc|].
  exact (registry_invariant ProducerKind_LRU 4 4 shut_run 0 shut_a shut_run_reachable Hc).
Defined.

Lemma dispatcher_drains_witness :
  reachable ProducerKind_LRU 4 4 lru_loaded
  ∧ done lru_loaded = false
  ∧ is_Some (dispatcher lru_loaded)
  ∧ length [(0, steady 30); (0, steady 31); (5, steady 32); (1, steady 33)]
    = 2 * length (ch_buf (input lru_loaded)) + length (held lru_loaded)
  ∧ ∃ s', exec ((λ x, ALoop x.1 x.2)
                  <$> [(0, steady 30); (0, steady 31); (5, steady 32); (1, steady 33)])
               lru_loaded
          = Some s'
          ∧ ch_buf (input s') = [] ∧ held s' = []
          ∧ ch_recvd (input s') = ch_sent (input lru_loaded)
          ∧ done s' = false.
Proof.
  assert (Hg : is_Some (dispatcher lru_loaded)) by (vm_compute; eauto).
  assert (Hlen : length [(0, steady 30); (0, steady 31); (5, steady 32); (1, steady 33)]
                 = 2 * length (ch_buf (input lru_loaded)) + length (held lru_loaded))
    by (vm_compute; reflexivity).
  split; [exact lru_loaded_reachable|]. split; [reflexivity|]. split; [exact Hg|].
  split; [exact Hlen|].
  exact (dispatcher_drains ProducerKind_LRU 4 4 lru_loaded
           [(0, steady 30); (0, steady 31); (5, steady 32); (1, steady 33)]
           lru_loaded_reachable eq_refl Hg Hlen).
Defined.

Lemma ConsumerList_sort_interface_witness :
  reachable ProducerKind_LRU 4 4 lru_run
  ∧ 0 < ConsumerList_Len (consumers lru_run)
  ∧ 1 < ConsumerList_Len (consumers lru_run)
  ∧ (∃ p q, consumers lru_run !! 0 = Some p ∧ consumers lru_run !! 1 = Some q
            ∧ ConsumerList_Less (heap lru_run) (consumers lru_run) 0 1
              = Some (Less (heap lru_run) p q))
  ∧ ConsumerList_Less (heap lru_run) (consumers lru_run) 0 0 = Some false
  ∧ (ConsumerList_Less (heap lru_run) (consumers lru_run) 0 1 = Some true →
     ConsumerList_Less (heap lru_run) (consumers lru_run) 1 0 = Some true →
     ConsumerList_Less (heap lru_run) (consumers lru_run) 0 0 = Some true)
  ∧ (ConsumerList_Less (heap lru_run) (consumers lru_run) 0 1 = Some false →
     ConsumerList_Less (heap lru_run) (consumers lru_run) 1 0 = Some false →
     ConsumerList_Less (heap lru_run) (consumers lru_run) 0 0 = Some false)
  ∧ ∃ cl', ConsumerList_Swap (consumers lru_run) 0 1 = Some cl'
           ∧ cl' ≡ₚ consumers lru_run
           ∧ ConsumerList_Len cl' = ConsumerList_Len (consumers lru_run)
           ∧ cl' !! 0 = consumers lru_run !! 1
           ∧ cl' !! 1 = consumers lru_run !! 0
           ∧ (∀ n, n ≠ 0 → n ≠ 1 → cl' !! n = consumers lru_run !! n)
           ∧ ConsumerList_Swap cl' 0 1 = Some (consumers lru_run)
           ∧ ConsumerList_Less (heap lru_run) cl' 0 1
             = ConsumerList_Less (heap lru_run) (consumers lru_run) 1 0.
Proof.
  assert (H0 : 0 < ConsumerList_Len (consumers lru_run)) by (vm_compute; lia).
  assert (H1 : 1 < ConsumerList_Len (consumers lru_run)) by (vm_compute; lia).
  split; [exact lru_run_reachable|]. split; [exact H0|]. split; [exact H1|].
  exact (ConsumerList_sort_interface ProducerKind_LRU 4 4 lru_run 0 1 0
           lru_run_reachable H0 H1 H0).
Defined.

Lemma CreateID_format_witness :
  sample_Read (replicate 16 Byte.x00) = Some sample_bytes
  ∧ length sample_bytes = 16
  ∧ ∃ id, CreateID sample_Read = Some id
          ∧ length id = 36
          ∧ (∀ i, i ∈ [8; 13; 18; 23] → id !! i = Some "-"%char)
          ∧ (∀ i a, i ∉ [8; 13; 18; 23] → id !! i = Some a → a ∈ ldigits)
          ∧ parseID id = Some sample_bytes
          ∧ ∀ rand_Read' b',
              rand_Read' (replicate 16 Byte.x00) = Some b' → length b' = 16 →
              CreateID rand_Read' = Some id → b' = sample_bytes.
Proof.
  split; [reflexivity|]. split; [reflexivity|].
  exact (CreateID_format sample_Read sample_bytes eq_refl eq_refl).
Defined.

(** The identifier made of [sample_bytes]. *)
Example CreateID_sample :
  CreateID sample_Read
  = Some (String.list_ascii_of_string "00017f80-ff10-a55a-dead-beef0990c33c").
Proof. vm_compute. reflexivity. Qed.

(** The name the Producer's logger takes for a type of another package,
    and for a predeclared type. *)
Example TypeName_samples :
  TypeName (String.list_ascii_of_string "*mpmc.Consumer")
  = String.list_ascii_of_string "Consumer"
  ∧ TypeName (String.list_ascii_of_string "*int") = String.list_ascii_of_string "int".
Proof. split; vm_compute; reflexivity. Qed.

Lemma stranded_run_reachable : reachable ProducerKind_Single 4 4 stranded_run.
Proof. exists stranded_trace. vm_compute. reflexivity. Defined.

Lemma create_cancel_round_trip_witness :
  reachable ProducerKind_LRU 4 4 lru_run
  ∧ (∃ s', exec [ACreateConsumer "c" true 50;
                 AConsumerClose (fst (CreateConsumer "c" true 50 lru_run));
                 AWatcher (fst (CreateConsumer "c" true 50 lru_run))] lru_run
           = Some s'
           ∧ restored lru_run (fst (CreateConsumer "c" true 50 lru_run)) s')
  ∧ (∃ s', exec [ACreateConsumer "c" true 50;
                 AWatcher (fst (CreateConsumer "c" true 50 lru_run))] lru_run
           = Some s'
           ∧ restored lru_run (fst (CreateConsumer "c" true 50 lru_run)) s').
Proof.
  split; [exact lru_run_reachable|].
  destruct (create_cancel_round_trip ProducerKind_LRU 4 4 lru_run "c" true 50 true
              lru_run_reachable) as [Hcancel Hparent].
  exact (conj Hcancel (Hparent eq_refl)).
Defined.

Lemma input_takes_its_capacity_witness :
  reachable ProducerKind_LRU 4 4 lru_ready
  ∧ done lru_ready = false
  ∧ ch_recvq (input lru_ready) = 0
  ∧ ∃ s', exec ((λ w, AWrite w.1 w.2) <$> six_writes) lru_ready = Some s'
          ∧ ch_buf (input s')
            = ch_buf (input lru_ready)
              ++ take (4 - length (ch_buf (input lru_ready))) six_writes.*1
          ∧ ch_recvd (input s') = ch_recvd (input lru_ready)
          ∧ (heap s', consumers s', pc s', done s')
            = (heap lru_ready, consumers lru_ready, pc lru_ready, done lru_ready).
Proof.
  split; [exact lru_ready_reachable|]. split; [reflexivity|]. split; [reflexivity|].
  exact (input_takes_its_capacity ProducerKind_LRU 4 4 lru_ready six_writes
           lru_ready_reachable eq_refl eq_refl).
Defined.

Lemma Close_may_strand_items_witness :
  reachable ProducerKind_Single 4 4 stranded_run
  ∧ done stranded_run = true
  ∧ is_Some (dispatcher stranded_run)
  ∧ ∃ n s', n ≤ 2
            ∧ exec (replicate n (ALoop 1 (steady 20))) stranded_run = Some s'
            ∧ pc s' = Returned
            ∧ ch_buf (input s') = ch_buf (input stranded_run)
            ∧ ch_recvd (input s') = ch_recvd (input stranded_run).
Proof.
  assert (Hg : is_Some (dispatcher stranded_run)) by (vm_compute; eauto).
  split; [exact stranded_run_reachable|]. split; [reflexivity|]. split; [exact Hg|].
  exact (Close_may_strand_items ProducerKind_Single 4 4 stranded_run (steady 20)
           stranded_run_reachable eq_refl Hg).
Defined.

(** In [stranded_run] the item written before [Close] is still on
    [input]. *)
Example stranded_run_input : ch_buf (input stranded_run) = [7].
Proof. vm_compute. reflexivity. Qed.

Lemma sample_map_same : same_value (VMap sample_map) (VMap sample_map').
Proof.
  constructor; [apply perm_swap|].
  intros k Hk. apply list_elem_of_In in Hk. simpl in Hk.
  destruct Hk as [<-|[<-|[<-|[]]]]; vm_compute; try constructor.
  - apply perm_swap.
  - intros k Hk. apply list_elem_of_In in Hk. simpl in Hk.
    destruct Hk as [<-|[<-|[]]]; vm_compute; constructor.
Defined.

Lemma PrettyMap_iteration_order_witness :
  same_value (VMap sample_map) (VMap sample_map')
  ∧ ∃ out, ∀ fuel, map_depth sample_map < fuel →
      PrettyMap fuel sample_map [] = Some out
      ∧ PrettyMap fuel sample_map' [] = Some out.
Proof.
  split; [exact sample_map_same|].
  exact (PrettyMap_iteration_order sample_map sample_map' [] sample_map_same).
Defined.

(** What [PrettyMap] prints for [sample_map]. *)
Example PrettyMap_sample :
  PrettyMap 2 sample_map []
  = Some (String.list_ascii_of_string "a: " ++ newline
          ++ String.list_ascii_of_string "  x: [1 2]" ++ newline
          ++ String.list_ascii_of_string "  y: nil" ++ newline
          ++ String.list_ascii_of_string "b: 2" ++ newline
          ++ String.list_ascii_of_string "c: (Unsupported map type: map[int]string)"
          ++ newline).
Proof. vm_compute. reflexivity. Qed.

Lemma lru_even_distribution_witness :
  reachable ProducerKind_LRU 4 4 lru_ready
  ∧ Forall (λ r, length r = length (consumers lru_ready)) two_rounds
  ∧ StronglySorted (λ x y, x.2 < y.2) (concat two_rounds)
  ∧ (∀ x q, x ∈ concat two_rounds → q ∈ consumers lru_ready →
       lastUsed_at (heap lru_ready) q < x.2)
  ∧ (∀ q c, q ∈ consumers lru_ready → heap lru_ready !! q = Some c →
       length (ch_buf (Messages c)) + length two_rounds ≤ 4)
  ∧ ∀ p, p ∈ consumers lru_ready →
      ∃ c c', heap lru_ready !! p = Some c
              ∧ heap (lru_rounds (concat two_rounds) lru_ready) !! p = Some c'
              ∧ length (ch_sent (Messages c'))
                = length (ch_sent (Messages c)) + length two_rounds.
Proof.
  assert (Hreg : consumers lru_ready = [0; 1]) by (vm_compute; reflexivity).
  assert (Hlen : Forall (λ r, length r = length (consumers lru_ready)) two_rounds).
  { rewrite Hreg. unfold two_rounds.
    repeat (apply Forall_cons; split; [reflexivity|]). done. }
  assert (Hsorted : StronglySorted (λ x y, x.2 < y.2) (concat two_rounds)).
  { cbn [concat two_rounds app].
    repeat (apply SSorted_cons;
            [|repeat (apply Forall_cons; split; [simpl; lia|]); done]).
    apply SSorted_nil. }
  assert (Htime : ∀ x q, x ∈ concat two_rounds → q ∈ consumers lru_ready →
            lastUsed_at (heap lru_ready) q < x.2).
  { intros x q Hx Hq. rewrite Hreg in Hq.
    apply list_elem_of_In in Hx. apply list_elem_of_In in Hq. simpl in Hx, Hq.
    destruct Hx as [<-|[<-|[<-|[<-|[]]]]]; destruct Hq as [<-|[<-|[]]]; vm_compute; lia. }
  assert (Hroom : ∀ q c, q ∈ consumers lru_ready → heap lru_ready !! q = Some c →
            length (ch_buf (Messages c)) + length two_rounds ≤ 4).
  { intros q c Hq Hc. rewrite Hreg in Hq. apply list_elem_of_In in Hq. simpl in Hq.
    destruct Hq as [<-|[<-|[]]]; vm_compute in Hc; injection Hc as <-; vm_compute; lia. }
  split; [exact lru_ready_reachable|]. split; [exact Hlen|]. split; [exact Hsorted|].
  split; [exact Htime|]. split; [exact Hroom|].
  exact (lru_even_distribution ProducerKind_LRU 4 4 lru_ready two_rounds
           lru_ready_reachable Hlen Hsorted Htime Hroom).
Defined.

(** After [two_rounds] each of the two Consumers holds one item of each
    round. *)
Example two_rounds_queues :
  (λ c, ch_buf (Messages c)) <$> heap (lru_rounds (concat two_rounds) lru_ready)
  = [[1; 3]; [2; 4]].
Proof. vm_compute. reflexivity. Qed.
